(** * A shallow embedding of the parallel code-generation orchestrator

    This development models, in Rocq, the Python modules of the orchestrator:
    - [src/agents/agent_pool.py]          (module [AgentPool])
    - [src/orchestrator/retry.py]         (module [Retry])
    - [src/orchestrator/task_executor.py] (module [Executor])
    - [src/graph/dependency_graph.py] over Python's [graphlib]
                                          (modules [Graphlib], [DepGraph])
    - [src/graph/validator.py]            (module [Validator])
    - [src/orchestrator/dynamic_deps.py]  (module [Dynamic])
    - [src/orchestrator/orchestrator.py]  (module [Orch])

    Conventions.  Task identifiers are [string]s.  A Python [dict] is an
    association list in insertion order (assignment to an existing key keeps
    its position).  A Python [set] is a duplicate-free list; its iteration
    order is whatever order the list has.  A raised exception is the [Raise]
    branch of [Res]; where the Python code mutates state before raising, the
    mutated state is returned alongside. *)

From Stdlib Require Import List String Ascii ZArith Lia Bool Arith Relations Wellfounded.
Import ListNotations.
Open Scope string_scope.
Open Scope list_scope.

(** ** Python exceptions *)

(** Classification of failures, [retry.FailureType]. *)
Inductive FailureType := TRANSIENT | PERMANENT | UNKNOWN.

(** The exception classes the modelled code raises or inspects. *)
Inductive exc_kind :=
| KRetryableError (ft : FailureType)
| KTimeoutError
| KConnectionError
| KConnectionResetError
| KConnectionRefusedError
| KConnectionAbortedError
| KValueError
| KKeyError
| KRuntimeError
| KCycleDetectedError
| KDynamicTaskRegistrationError
| KOrchestrationError
| KOtherError.

(** An exception object: its class and [str(e)]. *)
Record exn := mk_exn { ekind : exc_kind; emsg : string }.

Definition ValueError (m : string) : exn := mk_exn KValueError m.

(** The result of a Python call: a value, or a raised exception. *)
Inductive Res (A : Type) :=
| Ok (a : A)
| Raise (e : exn).
Arguments Ok {A} a.
Arguments Raise {A} e.

(** ** Small helpers on strings, dicts and sets *)

Definition str_eqb := String.eqb.

Definition mem (x : string) (l : list string) : bool :=
  existsb (str_eqb x) l.

(** [set(xs)]: drop later duplicates. *)
Fixpoint dedup (l : list string) : list string :=
  match l with
  | [] => []
  | x :: r => x :: filter (fun y => negb (str_eqb x y)) (dedup r)
  end.

(** [s.add(x)] for a set kept as a list. *)
Definition set_add (x : string) (s : list string) : list string :=
  if mem x s then s else s ++ [x].

(** [s.discard(x)] / [s.remove(x)] when [x] is present. *)
Definition set_remove (x : string) (s : list string) : list string :=
  filter (fun y => negb (str_eqb x y)) s.

Section Dict.
Context {V : Type}.

(** [d.get(k)]. *)
Fixpoint lookup (k : string) (d : list (string * V)) : option V :=
  match d with
  | [] => None
  | (k', v) :: r => if str_eqb k k' then Some v else lookup k r
  end.

(** [d[k] = v]: an existing key keeps its position, a new key goes last. *)
Fixpoint upsert (k : string) (v : V) (d : list (string * V)) : list (string * V) :=
  match d with
  | [] => [(k, v)]
  | (k', v') :: r => if str_eqb k k' then (k', v) :: r else (k', v') :: upsert k v r
  end.

Definition keys (d : list (string * V)) : list string := map fst d.
End Dict.

(** ** Agent pool ([src/agents/agent_pool.py]) *)
Module AgentPool.

Inductive AgentStatus := IDLE | BUSY | FAILED.

Definition status_eqb (a b : AgentStatus) : bool :=
  match a, b with
  | IDLE, IDLE | BUSY, BUSY | FAILED, FAILED => true
  | _, _ => false
  end.

(** [ManagedAgent]; the opaque Codegen [agent] handle is omitted. *)
Record ManagedAgent := mk_agent {
  id : nat;
  status : AgentStatus;
  current_task : option string
}.

(** [AgentPool.mark_busy]: raises [ValueError] unless the agent is idle. *)
Definition mark_busy (agent : ManagedAgent) (task_id : string) : Res ManagedAgent :=
  if negb (status_eqb (status agent) IDLE)
  then Raise (ValueError "Cannot mark agent as busy")
  else Ok (mk_agent (id agent) BUSY (Some task_id)).

(** [AgentPool.mark_idle]: unconditional. *)
Definition mark_idle (agent : ManagedAgent) : ManagedAgent :=
  mk_agent (id agent) IDLE None.

(** [AgentPool.mark_failed]: unconditional, the reason is only logged. *)
Definition mark_failed (agent : ManagedAgent) (error : option string) : ManagedAgent :=
  mk_agent (id agent) FAILED None.

(** [AgentPool.reset_agent]: raises [ValueError] unless the agent failed. *)
Definition reset_agent (agent : ManagedAgent) : Res ManagedAgent :=
  if negb (status_eqb (status agent) FAILED)
  then Raise (ValueError "Cannot reset agent")
  else Ok (mk_agent (id agent) IDLE None).

(** The four status-changing calls of the pool, as one transition. *)
Inductive PoolOp :=
| OpMarkBusy (task_id : string)
| OpMarkIdle
| OpMarkFailed (error : option string)
| OpReset.

Definition apply_op (agent : ManagedAgent) (op : PoolOp) : Res ManagedAgent :=
  match op with
  | OpMarkBusy t => mark_busy agent t
  | OpMarkIdle => Ok (mark_idle agent)
  | OpMarkFailed r => Ok (mark_failed agent r)
  | OpReset => reset_agent agent
  end.

(** [AgentPool.get_idle_agent]: the first idle agent in list order. *)
Fixpoint get_idle_agent (agents : list ManagedAgent) : option ManagedAgent :=
  match agents with
  | [] => None
  | a :: r => if status_eqb (status a) IDLE then Some a else get_idle_agent r
  end.

(** Mutating an agent object that sits in [pool.agents]: the list slot
    whose agent has the same [id] (the 0-based index) is replaced. *)
Definition put_agent (agents : list ManagedAgent) (a : ManagedAgent) : list ManagedAgent :=
  map (fun b => if Nat.eqb (id b) (id a) then a else b) agents.

Definition MIN_AGENTS : Z := 1.
Definition MAX_AGENTS_LIMIT : Z := 10.

(** [_initialize_pool]: agents [i], [i+1], ... ([n] of them) are
    appended, each [IDLE] with no task.  [create i] is the construction
    of the [i]-th Codegen [Agent]; its exception is re-raised. *)
Fixpoint initialize_pool (create : nat -> Res unit) (i n : nat) (agents : list ManagedAgent)
  : Res (list ManagedAgent) :=
  match n with
  | O => Ok agents
  | S n' =>
      match create i with
      | Raise e => Raise e
      | Ok _ => initialize_pool create (S i) n' (agents ++ [mk_agent i IDLE None])
      end
  end.

(** [AgentPool.__init__]: the range check, then [_initialize_pool]; the
    result is [self.agents]. *)
Definition new_pool (max_agents : Z) (create : nat -> Res unit) : Res (list ManagedAgent) :=
  if negb ((MIN_AGENTS <=? max_agents)%Z && (max_agents <=? MAX_AGENTS_LIMIT)%Z)
  then Raise (ValueError "max_agents must be between 1 and 10")
  else initialize_pool create O (Z.to_nat max_agents) [].

(** [AgentPool.get_stats]. *)
Record PoolStats := mk_pool_stats { idle : nat; busy : nat; failed : nat }.

Definition count_status (s : AgentStatus) (agents : list ManagedAgent) : nat :=
  List.length (filter (fun a => status_eqb (status a) s) agents).

Definition get_stats (agents : list ManagedAgent) : PoolStats :=
  mk_pool_stats (count_status IDLE agents) (count_status BUSY agents)
    (count_status FAILED agents).

(** [AgentPool.get_total_agents]. *)
Definition get_total_agents (agents : list ManagedAgent) : nat := List.length agents.

(** A pool method called on the agent object [agent] taken from
    [pool.agents]: the object is mutated in place, so the pool's list sees
    the change; a call that raises has changed nothing. *)
Definition pool_call (agents : list ManagedAgent) (agent : ManagedAgent) (op : PoolOp)
  : list ManagedAgent * Res unit :=
  match apply_op agent op with
  | Ok a' => (put_agent agents a', Ok tt)
  | Raise e => (agents, Raise e)
  end.

End AgentPool.

(** ** Task results ([src/agents/codegen_executor.py]) *)
Module Codegen.

Inductive TaskStatus := PENDING | RUNNING | COMPLETED | FAILED.

Definition is_failed (s : TaskStatus) : bool :=
  match s with FAILED => true | _ => false end.

(** [TaskResult]; timestamps are [None] where the orchestrator builds a
    synthesized result, durations and payloads are left out. *)
Record TaskResult := mk_result {
  task_id : string;
  status : TaskStatus;
  start_time : option Z;
  end_time : option Z;
  error : option string;
  retry_count : nat
}.

(** Values stored in a task's data dictionary. *)
Inductive PyVal :=
| VStr (s : string)
| VSet (xs : list string)
| VList (xs : list string)
| VOther.

Definition TaskData := list (string * PyVal).

(** The id a [CodegenExecutor.execute_task] result carries:
    [task_data.get("task_id", "unknown")]. *)
Definition result_task_id (task_data : TaskData) : string :=
  match lookup "task_id" task_data with
  | Some (VStr s) => s
  | Some _ => "<non-string task_id>"
  | None => "unknown"
  end.

End Codegen.

(** ** Retry policy ([src/orchestrator/retry.py]) *)
Module Retry.

Definition lower_ascii (c : ascii) : ascii :=
  let n := nat_of_ascii c in
  if Nat.leb 65 n && Nat.leb n 90 then ascii_of_nat (n + 32) else c.

(** [str.lower] on the ASCII range. *)
Fixpoint lower (s : string) : string :=
  match s with
  | EmptyString => EmptyString
  | String c r => String (lower_ascii c) (lower r)
  end.

(** [pattern in s]. *)
Fixpoint contains (pat s : string) : bool :=
  String.prefix pat s ||
  match s with
  | EmptyString => false
  | String _ r => contains pat r
  end.

Definition transient_patterns : list string :=
  ["timeout"; "connection"; "network"; "temporary"; "rate limit";
   "service unavailable"; "try again"; "502"; "503"; "504"].

Definition permanent_patterns : list string :=
  ["invalid"; "unauthorized"; "forbidden"; "not found"; "bad request";
   "400"; "401"; "403"; "404"].

(** [classify_error]. *)
Definition classify_error (error : exn) : FailureType :=
  match ekind error with
  | KRetryableError ft => ft
  | KTimeoutError | KConnectionError | KConnectionResetError
  | KConnectionRefusedError | KConnectionAbortedError => TRANSIENT
  | _ =>
      let error_message := lower (emsg error) in
      if existsb (fun p => contains p error_message) transient_patterns then TRANSIENT
      else if existsb (fun p => contains p error_message) permanent_patterns then PERMANENT
      else UNKNOWN
  end.

Definition is_permanent (ft : FailureType) : bool :=
  match ft with PERMANENT => true | _ => false end.

(** Observable effects of [execute_with_retry]: a call of [func] with its
    1-based attempt number, and an [asyncio.sleep] of the given delay. *)
Inductive RetryEvent := Call (attempt : Z) | Sleep (delay : Z).

Local Open Scope Z_scope.

Section WithFunc.
Context {T : Type}.
(** [func] is stateful: its [k]-th call (0-based) yields [func k]. *)
Variable func : nat -> Res T.
Variables max_attempts base_delay_seconds : Z.

(** The [for attempt in range(1, max_attempts + 1)] loop, from
    [attempt] on, with [n] iterations left. *)
Fixpoint retry_loop (attempt : Z) (n : nat) (last_error : option exn)
  : list RetryEvent * Res T :=
  match n with
  | O =>
      match last_error with
      | Some e => ([], Raise e)
      | None => ([], Raise (mk_exn KRuntimeError "Retry logic failed unexpectedly"))
      end
  | S n' =>
      match func (Z.to_nat (attempt - 1)) with
      | Ok result => ([Call attempt], Ok result)
      | Raise e =>
          if is_permanent (classify_error e) then ([Call attempt], Raise e)
          else if max_attempts <=? attempt then ([Call attempt], Raise e)
          else
            let delay := base_delay_seconds * 2 ^ (attempt - 1) in
            let '(tr, r) := retry_loop (attempt + 1) n' (Some e) in
            (Call attempt :: Sleep delay :: tr, r)
      end
  end.

(** [execute_with_retry]. *)
Definition execute_with_retry : list RetryEvent * Res T :=
  retry_loop 1 (Z.to_nat max_attempts) None.
End WithFunc.

(** The schedule the specification describes: [n] calls numbered from
    [k], with a sleep of [base * 2^(attempt-1)] after every non-final one. *)
Fixpoint backoff_schedule (base : Z) (k : Z) (n : nat) : list RetryEvent :=
  match n with
  | O => []
  | S O => [Call k]
  | S n' => Call k :: Sleep (base * 2 ^ (k - 1)) :: backoff_schedule base (k + 1) n'
  end.

(** The first [n] calls of [func] raise errors that are not classified
    [PERMANENT]. *)
Definition fails_retryably {T : Type} (func : nat -> Res T) (n : nat) : Prop :=
  forall i, (i < n)%nat -> exists e, func i = Raise e /\ classify_error e <> PERMANENT.

End Retry.

(** ** Concurrency-gated executor ([src/orchestrator/task_executor.py]) *)
Module Executor.
Import AgentPool Codegen.

(** [RetryConfig]. *)
Record RetryConfig := mk_retry_config {
  max_attempts : Z;
  base_delay_seconds : Z;
  enabled : bool
}.

(** [RetryConfig.__init__]. *)
Definition RetryConfig_init (max_attempts base_delay_seconds : Z) (enabled : bool)
  : Res RetryConfig :=
  if (max_attempts <? 0)%Z then Raise (ValueError "max_attempts must be non-negative")
  else if (base_delay_seconds <? 0)%Z then Raise (ValueError "base_delay_seconds must be non-negative")
  else Ok (mk_retry_config max_attempts base_delay_seconds enabled).

(** [RetryConfig.from_agent_config], on the [retry_attempts] and
    [retry_delay_seconds] of the [AgentConfig]. *)
Definition from_agent_config (retry_attempts retry_delay_seconds : Z) : Res RetryConfig :=
  RetryConfig_init retry_attempts retry_delay_seconds (0 <? retry_attempts)%Z.

(** The fields of [TaskExecutor] the claims touch.  The semaphore is
    represented by the acquire/release events of the trace below. *)
Record TaskExecutor := mk_executor {
  agent_pool : list ManagedAgent;
  active_tasks : list string;
  task_results : list (string * TaskResult);
  agent_executors : list nat;
  timeout_seconds : Z;
  poll_interval_seconds : Z;
  retry_config : RetryConfig
}.

Definition set_pool (ex : TaskExecutor) (p : list ManagedAgent) : TaskExecutor :=
  mk_executor p (active_tasks ex) (task_results ex) (agent_executors ex)
    (timeout_seconds ex) (poll_interval_seconds ex) (retry_config ex).

Definition set_active (ex : TaskExecutor) (a : list string) : TaskExecutor :=
  mk_executor (agent_pool ex) a (task_results ex) (agent_executors ex)
    (timeout_seconds ex) (poll_interval_seconds ex) (retry_config ex).

Definition set_results (ex : TaskExecutor) (r : list (string * TaskResult)) : TaskExecutor :=
  mk_executor (agent_pool ex) (active_tasks ex) r (agent_executors ex)
    (timeout_seconds ex) (poll_interval_seconds ex) (retry_config ex).

Definition set_executors (ex : TaskExecutor) (c : list nat) : TaskExecutor :=
  mk_executor (agent_pool ex) (active_tasks ex) (task_results ex) c
    (timeout_seconds ex) (poll_interval_seconds ex) (retry_config ex).

(** What [execute_task] does, in order. *)
Inductive ExecEvent :=
| EAcquire                          (* [async with self.semaphore] enters *)
| EActiveAdd (task_id : string)     (* [self.active_tasks.add] *)
| EMarkBusy (agent : nat) (task_id : string)
| ERun (agent : nat)                (* the (retry-wrapped) remote execution *)
| EMarkIdle (agent : nat)           (* inner [finally] *)
| EActiveDiscard (task_id : string) (* outer [finally] *)
| ERelease.                         (* the semaphore is released *)

(** [_get_or_create_executor]: building a [CodegenExecutor] validates the
    timeout (at least 60) and the polling interval (at least 1); the
    retry delay is left at its valid default. *)
Definition get_or_create_executor (ex : TaskExecutor) (agent : ManagedAgent)
  : Res TaskExecutor :=
  if existsb (Nat.eqb (id agent)) (agent_executors ex) then Ok ex
  else if (timeout_seconds ex <? 60)%Z
  then Raise (ValueError "timeout_seconds must be at least 60")
  else if (poll_interval_seconds ex <? 1)%Z
  then Raise (ValueError "poll_interval_seconds must be at least 1")
  else Ok (set_executors ex (agent_executors ex ++ [id agent])).

(** The remote execution of one task on one agent: with retry enabled,
    [execute_with_retry] over the collaborator's attempts; otherwise one
    direct call.  [call k] is the outcome of the [k]-th physical attempt. *)
Definition run_attempts (cfg : RetryConfig) (call : nat -> Res TaskResult)
  : Res TaskResult :=
  if enabled cfg
  then snd (Retry.execute_with_retry call (max_attempts cfg) (base_delay_seconds cfg))
  else call O.

(** Outcome of [execute_task]: it returns or raises ([Finished]), or it
    keeps polling [_wait_for_idle_agent] because no agent is idle and no
    other coroutine is modelled to free one ([Blocked]). *)
Inductive ExecOutcome :=
| Blocked
| Finished (ex : TaskExecutor) (trace : list ExecEvent) (r : Res TaskResult).

(** [TaskExecutor.execute_task].  [call a k] is the [k]-th attempt on the
    collaborator bound to agent [a]. *)
Definition execute_task (ex : TaskExecutor) (task_id : string) (task_data : TaskData)
  (call : nat -> nat -> Res TaskResult) : ExecOutcome :=
  (* async with self.semaphore: *)
  let ex1 := set_active ex (set_add task_id (active_tasks ex)) in
  (* try: *)
  match get_idle_agent (agent_pool ex1) with
  | None => Blocked
  | Some agent =>
      match mark_busy agent task_id with
      | Raise e =>
          (* except Exception: raise; finally: discard *)
          Finished (set_active ex1 (set_remove task_id (active_tasks ex1)))
            [EAcquire; EActiveAdd task_id; EActiveDiscard task_id; ERelease] (Raise e)
      | Ok busy =>
          let ex2 := set_pool ex1 (put_agent (agent_pool ex1) busy) in
          (* inner try *)
          let '(ex3, ran, inner) :=
            match get_or_create_executor ex2 agent with
            | Raise e => (ex2, false, Raise e)
            | Ok ex2' =>
                match run_attempts (retry_config ex2') (call (id agent)) with
                | Ok result =>
                    (set_results ex2' (upsert task_id result (task_results ex2')),
                     true, Ok result)
                | Raise e => (ex2', true, Raise e)
                end
            end in
          (* inner finally: self.agent_pool.mark_idle(agent) *)
          let ex4 := set_pool ex3 (put_agent (agent_pool ex3) (mark_idle busy)) in
          (* outer finally: self.active_tasks.discard(task_id) *)
          let ex5 := set_active ex4 (set_remove task_id (active_tasks ex4)) in
          Finished ex5
            ([EAcquire; EActiveAdd task_id; EMarkBusy (id agent) task_id]
             ++ (if ran then [ERun (id agent)] else [])
             ++ [EMarkIdle (id agent); EActiveDiscard task_id; ERelease])
            inner
      end
  end.

(** [TaskExecutor.get_result]. *)
Definition get_result (ex : TaskExecutor) (task_id : string) : option TaskResult :=
  lookup task_id (task_results ex).

(** [TaskExecutor.get_stats]. *)
Record ExecutorStats := mk_executor_stats {
  stat_active_tasks : nat;
  stat_completed_tasks : nat;
  stat_total_tasks : nat;
  agent_pool_stats : PoolStats
}.

Definition get_stats (ex : TaskExecutor) : ExecutorStats :=
  mk_executor_stats (List.length (active_tasks ex)) (List.length (task_results ex))
    (List.length (active_tasks ex) + List.length (task_results ex))
    (AgentPool.get_stats (agent_pool ex)).

(** [TaskExecutor.clear_results]. *)
Definition clear_results (ex : TaskExecutor) : TaskExecutor := set_results ex [].

End Executor.

(** ** Python's [graphlib.TopologicalSorter]

    [DependencyGraph] delegates ordering to the standard library's
    [graphlib] (CPython [Lib/graphlib.py]); this module translates the
    parts it uses: [__init__]/[add], [prepare] with [_find_cycle],
    [get_ready], [is_active] and [done]. *)
Module Graphlib.
Local Open Scope Z_scope.

Definition NODE_OUT : Z := -1.
Definition NODE_DONE : Z := -2.

(** [_NodeInfo]: [npredecessors] is a count, or [NODE_OUT]/[NODE_DONE]. *)
Record NodeInfo := mk_info { npredecessors : Z; successors : list string }.

Record TopologicalSorter := mk_sorter {
  node2info : list (string * NodeInfo);
  ready_nodes : option (list string);   (* [None] until [prepare()] *)
  npassedout : nat;
  nfinished : nat
}.

Definition CycleError (m : string) : exn := ValueError m.

(** Apply [f] to the info object stored under [n]. *)
Definition update_info (n : string) (f : NodeInfo -> NodeInfo)
  (n2i : list (string * NodeInfo)) : list (string * NodeInfo) :=
  map (fun p => if str_eqb n (fst p) then (fst p, f (snd p)) else p) n2i.

(** [_get_nodeinfo]: create an empty entry on first use. *)
Definition get_nodeinfo (n : string) (n2i : list (string * NodeInfo))
  : list (string * NodeInfo) :=
  match lookup n n2i with
  | Some _ => n2i
  | None => n2i ++ [(n, mk_info 0 [])]
  end.

Definition add_npred (k : Z) (i : NodeInfo) : NodeInfo :=
  mk_info (npredecessors i + k) (successors i).

Definition set_npred (k : Z) (i : NodeInfo) : NodeInfo :=
  mk_info k (successors i).

Definition add_succ (s : string) (i : NodeInfo) : NodeInfo :=
  mk_info (npredecessors i) (successors i ++ [s]).

(** [add(node, *predecessors)] on a sorter that is not prepared yet. *)
Definition add_n2i (node : string) (predecessors : list string)
  (n2i : list (string * NodeInfo)) : list (string * NodeInfo) :=
  let n2i1 := get_nodeinfo node n2i in
  let n2i2 := update_info node (add_npred (Z.of_nat (List.length predecessors))) n2i1 in
  fold_left (fun acc pred => update_info pred (add_succ node) (get_nodeinfo pred acc))
    predecessors n2i2.

(** [TopologicalSorter(graph)]: [add(node, *preds)] for each item. *)
Definition new_sorter (graph : list (string * list string)) : TopologicalSorter :=
  mk_sorter
    (fold_left (fun acc item => add_n2i (fst item) (snd item) acc) graph [])
    None 0 0.

(** *** [_find_cycle]

    The iterative depth-first search of [graphlib].  Its [stack] and
    [itstack] are pushed and popped together; they are kept here as one
    list of frames, top first: the node and the successors its iterator
    has not produced yet.  [node2stacki] maps a node on the stack to its
    index in the (bottom-first) Python [stack]. *)
Record FCState := mk_fc {
  fc_frames : list (string * list string);
  fc_seen : list string;
  fc_node2stacki : list (string * nat)
}.

Fixpoint dict_del {V} (k : string) (d : list (string * V)) : list (string * V) :=
  match d with
  | [] => []
  | (k', v) :: r => if str_eqb k k' then r else (k', v) :: dict_del k r
  end.

(** The inner [while stack: try: node = itstack[-1]() ...] loop: the next
    successor of the topmost frame that has one, popping exhausted frames;
    [None] is its [else: break] branch (the stack ran empty). *)
Fixpoint backtrack (frames : list (string * list string)) (n2s : list (string * nat))
  : option string * list (string * list string) * list (string * nat) :=
  match frames with
  | [] => (None, [], n2s)
  | (s, x :: it) :: rest => (Some x, (s, it) :: rest, n2s)
  | (s, []) :: rest => backtrack rest (dict_del s n2s)
  end.

Inductive WalkResult :=
| WalkCycle (cycle : list string)
| WalkDone (st : FCState)
| WalkFuel.

Section FindCycle.
Variable n2i : list (string * NodeInfo).

Definition succs_of (n : string) : list string :=
  match lookup n n2i with Some i => successors i | None => [] end.

(** One [while True:] iteration per unit of fuel. *)
Fixpoint fc_walk (fuel : nat) (node : string) (st : FCState) : WalkResult :=
  match fuel with
  | O => WalkFuel
  | S fuel' =>
      let step :=
        if mem node (fc_seen st) then
          match lookup node (fc_node2stacki st) with
          | Some i =>
              inl (skipn i (rev (map fst (fc_frames st))) ++ [node])
          | None => inr st
          end
        else
          inr (mk_fc ((node, succs_of node) :: fc_frames st)
                     (set_add node (fc_seen st))
                     (fc_node2stacki st ++ [(node, List.length (fc_frames st))]))
      in
      match step with
      | inl cycle => WalkCycle cycle
      | inr st1 =>
          match backtrack (fc_frames st1) (fc_node2stacki st1) with
          | (Some node', frames, n2s) => fc_walk fuel' node' (mk_fc frames (fc_seen st1) n2s)
          | (None, frames, n2s) => WalkDone (mk_fc frames (fc_seen st1) n2s)
          end
      end
  end.

(** The outer [for node in n2i:] loop.  [None] reports fuel
    exhaustion. *)
Fixpoint fc_roots (fuel : nat) (roots : list string) (st : FCState)
  : option (option (list string)) :=
  match roots with
  | [] => Some None
  | r :: rs =>
      if mem r (fc_seen st) then fc_roots fuel rs st
      else match fc_walk fuel r st with
           | WalkCycle c => Some (Some c)
           | WalkDone st' => fc_roots fuel rs st'
           | WalkFuel => None
           end
  end.

(** Each [while True:] iteration pushes a new node or consumes one
    successor, so this many iterations always suffice. *)
Definition fc_fuel : nat :=
  S (List.length n2i + fold_right (fun p acc => List.length (successors (snd p)) + acc) O n2i)%nat.

(** [_find_cycle].  Fuel exhaustion cannot happen with [fc_fuel]; were
    it to happen, it is reported as a cycle, so a [None] here always
    comes from a search that ran to its end. *)
Definition find_cycle : option (list string) :=
  match fc_roots fc_fuel (keys n2i) (mk_fc [] [] []) with
  | Some r => r
  | None => Some []
  end.
End FindCycle.

(** [prepare()]: the ready list is stored before the cycle check, so a
    sorter that raised [CycleError] keeps it. *)
Definition prepare (s : TopologicalSorter) : TopologicalSorter * Res unit :=
  match ready_nodes s with
  | Some _ => (s, Raise (ValueError "cannot prepare() more than once"))
  | None =>
      let ready := map fst (filter (fun p => npredecessors (snd p) =? 0) (node2info s)) in
      let s' := mk_sorter (node2info s) (Some ready) (npassedout s) (nfinished s) in
      match find_cycle (node2info s) with
      | Some cycle => (s', Raise (CycleError "nodes are in a cycle"))
      | None => (s', Ok tt)
      end
  end.

(** [get_ready()]. *)
Definition get_ready (s : TopologicalSorter) : TopologicalSorter * Res (list string) :=
  match ready_nodes s with
  | None => (s, Raise (ValueError "prepare() must be called first"))
  | Some result =>
      let n2i := fold_left (fun acc n => update_info n (set_npred NODE_OUT) acc)
                   result (node2info s) in
      (mk_sorter n2i (Some []) (npassedout s + List.length result)%nat (nfinished s), Ok result)
  end.

(** [is_active()]. *)
Definition is_active (s : TopologicalSorter) : Res bool :=
  match ready_nodes s with
  | None => Raise (ValueError "prepare() must be called first")
  | Some ready => Ok (Nat.ltb (nfinished s) (npassedout s) || negb (List.length ready =? 0)%nat)
  end.

(** The successor loop of [done]: decrement each successor's count and
    append it to the ready list when the count reaches zero. *)
Definition release_successors (succs : list string)
  (acc : list (string * NodeInfo) * list string) : list (string * NodeInfo) * list string :=
  fold_left (fun '(n2i, ready) succ =>
               let n2i' := update_info succ (add_npred (-1)) n2i in
               match lookup succ n2i' with
               | Some i => if npredecessors i =? 0 then (n2i', ready ++ [succ]) else (n2i', ready)
               | None => (n2i', ready)
               end) succs acc.

(** [done(nodes...)]: the nodes are processed in order; an invalid node
    raises [ValueError] with the earlier nodes already marked. *)
Fixpoint done_nodes (s : TopologicalSorter) (nodes : list string)
  : TopologicalSorter * Res unit :=
  match nodes with
  | [] => (s, Ok tt)
  | node :: rest =>
      match ready_nodes s with
      | None => (s, Raise (ValueError "prepare() must be called first"))
      | Some ready =>
          match lookup node (node2info s) with
          | None => (s, Raise (ValueError "node was not added using add()"))
          | Some info =>
              let stat := npredecessors info in
              if stat =? NODE_OUT then
                let n2i1 := update_info node (set_npred NODE_DONE) (node2info s) in
                let '(n2i2, ready') := release_successors (successors info) (n2i1, ready) in
                done_nodes (mk_sorter n2i2 (Some ready') (npassedout s) (S (nfinished s))) rest
              else if 0 <=? stat then
                (s, Raise (ValueError "node was not passed out (still not ready)"))
              else if stat =? NODE_DONE then
                (s, Raise (ValueError "node was already marked done"))
              else (s, Raise (mk_exn KOtherError "unknown status"))
          end
      end
  end.

End Graphlib.

(** ** The dependency graph ([src/graph/dependency_graph.py]) *)
Module DepGraph.
Import Graphlib.

Record DependencyGraph := mk_graph {
  graph : list (string * list string);      (* task id -> set of prerequisites *)
  sorter : option TopologicalSorter;
  is_built : bool                           (* [_is_built] *)
}.

Definition empty : DependencyGraph := mk_graph [] None false.

Definition CycleDetectedError (m : string) : exn := mk_exn KCycleDetectedError m.

(** [add_task]: invalidates a built graph, then stores a copy of the set. *)
Definition add_task (g : DependencyGraph) (task_id : string) (dependencies : list string)
  : DependencyGraph :=
  let '(s, b) := if is_built g then (None, false) else (sorter g, is_built g) in
  mk_graph (upsert task_id (dedup dependencies) (graph g)) s b.

(** [build]: [self.sorter] is assigned before [prepare()], so after a
    cycle the new (failed) sorter is kept and [_is_built] is untouched. *)
Definition build (g : DependencyGraph) : DependencyGraph * Res unit :=
  match graph g with
  | [] =>
      let '(s, _) := prepare (new_sorter []) in
      (mk_graph [] (Some s) true, Ok tt)
  | _ =>
      let '(s, r) := prepare (new_sorter (graph g)) in
      match r with
      | Ok _ => (mk_graph (graph g) (Some s) true, Ok tt)
      | Raise e =>
          (mk_graph (graph g) (Some s) (is_built g),
           Raise (CycleDetectedError "Cycle detected in dependency graph"))
      end
  end.

(** [rebuild] just calls [build]. *)
Definition rebuild := build.

(** [get_ready_tasks]. *)
Definition get_ready_tasks (g : DependencyGraph) : DependencyGraph * Res (list string) :=
  match is_built g, sorter g with
  | true, Some s =>
      match is_active s with
      | Raise e => (g, Raise e)
      | Ok false => (g, Ok [])
      | Ok true =>
          let '(s', r) := get_ready s in
          (mk_graph (graph g) (Some s') (is_built g), r)
      end
  | _, _ => (g, Ok [])
  end.

(** [mark_completed(task_ids...)]. *)
Definition mark_completed (g : DependencyGraph) (task_ids : list string)
  : DependencyGraph * Res unit :=
  match is_built g, sorter g with
  | true, Some s =>
      match task_ids with
      | [] => (g, Ok tt)
      | _ =>
          let '(s', r) := done_nodes s task_ids in
          (mk_graph (graph g) (Some s') (is_built g), r)
      end
  | _, _ => (g, Raise (ValueError "Cannot mark tasks completed before building graph"))
  end.

(** [is_active]. *)
Definition is_active (g : DependencyGraph) : Res bool :=
  match is_built g, sorter g with
  | true, Some s => Graphlib.is_active s
  | _, _ => Ok false
  end.

(** [copy]: the edge map only. *)
Definition copy (g : DependencyGraph) : DependencyGraph :=
  mk_graph (graph g) None false.

(** [set_built_state]. *)
Definition set_built_state (g : DependencyGraph) (b : bool) : DependencyGraph :=
  mk_graph (graph g) (sorter g) b.

(** [DependencyGraph.get_stats]: the dict display is evaluated in order,
    so an exception of [is_active()] propagates. *)
Record GraphStats := mk_graph_stats {
  total_tasks : nat;
  total_dependencies : nat;
  stat_is_built : bool;
  stat_is_active : bool
}.

Definition get_stats (g : DependencyGraph) : Res GraphStats :=
  match is_active g with
  | Raise e => Raise e
  | Ok a =>
      Ok (mk_graph_stats (List.length (graph g))
            (fold_right (fun p acc => List.length (snd p) + acc)%nat O (graph g))
            (is_built g) a)
  end.

End DepGraph.

(** ** The graph validator ([src/graph/validator.py]) *)
Module Validator.

Record ValidationReport := mk_report {
  is_valid : bool;
  errors : list string;
  warnings : list string;
  cycles : list (list string);
  missing_refs : list string;
  orphaned_tasks : list string
}.

Definition empty_report : ValidationReport := mk_report true [] [] [] [] [].

(** [add_error] marks the report invalid; [add_warning] does not. *)
Definition add_error (r : ValidationReport) (m : string) : ValidationReport :=
  mk_report false (errors r ++ [m]) (warnings r) (cycles r) (missing_refs r) (orphaned_tasks r).

Definition add_warning (r : ValidationReport) (m : string) : ValidationReport :=
  mk_report (is_valid r) (errors r) (warnings r ++ [m]) (cycles r) (missing_refs r) (orphaned_tasks r).

Definition set_cycles (r : ValidationReport) (c : list (list string)) : ValidationReport :=
  mk_report (is_valid r) (errors r) (warnings r) c (missing_refs r) (orphaned_tasks r).

Definition set_missing (r : ValidationReport) (m : list string) : ValidationReport :=
  mk_report (is_valid r) (errors r) (warnings r) (cycles r) m (orphaned_tasks r).

Definition set_orphaned (r : ValidationReport) (o : list string) : ValidationReport :=
  mk_report (is_valid r) (errors r) (warnings r) (cycles r) (missing_refs r) o.

(** The validator's mutable search state: [_visited], [_rec_stack] and
    [_path] (bottom first). *)
Record DFSState := mk_dfs {
  visited : list string;
  rec_stack : list string;
  path : list string
}.

(** [list.index]: position of the first occurrence. *)
Fixpoint index_of (x : string) (l : list string) : nat :=
  match l with
  | [] => O
  | y :: r => if str_eqb x y then O else S (index_of x r)
  end.

Section Search.
Variable graph : list (string * list string).

(** [graph.get(node, set())]. *)
Definition deps_of (n : string) : list string :=
  match lookup n graph with Some d => d | None => [] end.

(** The [for dep in dependencies:] loop of [_dfs_cycle_detect] for
    [node], with [visit] the recursive call.  On finding a cycle the
    function returns at once, leaving [_rec_stack] and [_path] as they
    are, exactly as the Python code does. *)
Fixpoint dfs_loop (visit : string -> DFSState -> option (DFSState * option (list string)))
  (node : string) (deps : list string) (st : DFSState)
  : option (DFSState * option (list string)) :=
  match deps with
  | [] =>
      (* backtrack: self._rec_stack.remove(node); self._path.pop() *)
      Some (mk_dfs (visited st) (set_remove node (rec_stack st)) (removelast (path st)), None)
  | dep :: rest =>
      if negb (mem dep (visited st)) then
        match visit dep st with
        | None => None
        | Some (st', Some cycle) => Some (st', Some cycle)
        | Some (st', None) => dfs_loop visit node rest st'
        end
      else if mem dep (rec_stack st) then
        let cycle_start_idx := index_of dep (path st) in
        Some (st, Some (skipn cycle_start_idx (path st) ++ [dep]))
      else dfs_loop visit node rest st
  end.

(** [_dfs_cycle_detect].  Each recursive call consumes one unit of
    fuel; [None] reports fuel exhaustion. *)
Fixpoint dfs_cycle_detect (fuel : nat) (node : string) (st : DFSState)
  : option (DFSState * option (list string)) :=
  match fuel with
  | O => None
  | S fuel' =>
      dfs_loop (dfs_cycle_detect fuel') node (deps_of node)
        (mk_dfs (set_add node (visited st)) (set_add node (rec_stack st)) (path st ++ [node]))
  end.

(** [all_nodes]: the task ids and every dependency id. *)
Definition all_nodes : list string :=
  dedup (keys graph ++ List.concat (map snd graph)).

Definition dfs_fuel : nat := S (List.length all_nodes).

(** The [for node in all_nodes] loop of [_detect_cycles]. *)
Fixpoint detect_from (nodes : list string) (st : DFSState) : list (list string) :=
  match nodes with
  | [] => []
  | node :: rest =>
      if mem node (visited st) then detect_from rest st
      else match dfs_cycle_detect dfs_fuel node st with
           | None => []
           | Some (st', Some cycle) => cycle :: detect_from rest st'
           | Some (st', None) => detect_from rest st'
           end
  end.

(** [_detect_cycles]. *)
Definition detect_cycles : list (list string) :=
  match graph with
  | [] => []
  | _ => detect_from all_nodes (mk_dfs [] [] [])
  end.

(** [_check_missing_refs]. *)
Definition check_missing_refs : list string :=
  filter (fun d => negb (mem d (keys graph))) (dedup (List.concat (map snd graph))).

(** [_build_reverse_dependency_map] then [_find_end_nodes]: task ids no
    task depends on. *)
Definition end_nodes : list string :=
  filter (fun t => negb (existsb (fun p => mem t (snd p)) graph)) (keys graph).

(** [_find_reachable_tasks_from_end_nodes]: breadth-first walk over
    dependencies.  Each round pops one queue entry; the fuel bounds the
    number of pops (every node enters [reachable] once and queues its
    dependencies once). *)
Fixpoint bfs (fuel : nat) (queue reachable : list string) : list string :=
  match fuel with
  | O => reachable
  | S fuel' =>
      match queue with
      | [] => reachable
      | current :: queue' =>
          if mem current reachable then bfs fuel' queue' reachable
          else
            let reachable' := set_add current reachable in
            let new_deps := filter (fun d => negb (mem d reachable')) (deps_of current) in
            bfs fuel' (queue' ++ new_deps) reachable'
      end
  end.

Definition bfs_fuel : nat :=
  S (List.length all_nodes * S (List.length (List.concat (map snd graph))) + List.length all_nodes).

(** [_check_orphaned_tasks]. *)
Definition check_orphaned_tasks : list string :=
  match graph with
  | [] => []
  | _ =>
      match end_nodes with
      | [] => []
      | ends =>
          let reachable := bfs bfs_fuel ends [] in
          filter (fun t => negb (mem t reachable)) (keys graph)
      end
  end.

(** [GraphValidator.validate]. *)
Definition validate : ValidationReport :=
  let report := empty_report in
  let cycles := detect_cycles in
  let report :=
    match cycles with
    | [] => report
    | _ => fold_left (fun r c => add_error r ("Cycle detected: " ++ String.concat " -> " c)%string)
             cycles (set_cycles report cycles)
    end in
  let missing := check_missing_refs in
  let report :=
    match missing with
    | [] => report
    | _ => add_warning (set_missing report missing)
             ("Tasks referenced as dependencies but not defined: " ++ String.concat ", " missing)%string
    end in
  match cycles with
  | [] =>
      match check_orphaned_tasks with
      | [] => report
      | orphaned => add_warning (set_orphaned report orphaned)
                      ("Orphaned tasks with no path to completion: " ++ String.concat ", " orphaned)%string
      end
  | _ => report
  end.
End Search.

End Validator.

(** ** Dynamic dependency manager ([src/orchestrator/dynamic_deps.py]) *)
Module Dynamic.
Import DepGraph Codegen.

Record Manager := mk_manager {
  dep_graph : DependencyGraph;
  new_tasks_queue : list (string * TaskData);   (* FIFO, oldest first *)
  completed_tasks : list string                 (* [_completed_tasks] *)
}.

Definition DynamicTaskRegistrationError (m : string) : exn :=
  mk_exn KDynamicTaskRegistrationError m.

(** [mark_task_completed]. *)
Definition mark_task_completed (m : Manager) (task_id : string) : Manager :=
  mk_manager (dep_graph m) (new_tasks_queue m) (set_add task_id (completed_tasks m)).

(** [_would_create_cycle]: build a copy of the live graph with the one
    task added.  Only [CycleDetectedError] is caught. *)
Definition would_create_cycle (m : Manager) (new_task_id : string) (dependencies : list string)
  : Res bool :=
  let temp_graph := add_task (copy (dep_graph m)) new_task_id dependencies in
  match snd (build temp_graph) with
  | Ok _ => Ok false
  | Raise e =>
      match ekind e with
      | KCycleDetectedError => Ok true
      | _ => Raise e
      end
  end.

(** [_validate_dependencies_exist]. *)
Definition validate_dependencies_exist (m : Manager) (task_id : string)
  (dependencies : list string) : Res unit :=
  if forallb (fun dep => mem dep (keys (graph (dep_graph m))) || mem dep (completed_tasks m))
       dependencies
  then Ok tt
  else Raise (DynamicTaskRegistrationError "depends on non-existent task").

(** The dependency set of an entry:
    [set(dependencies) if isinstance(dependencies, list) else dependencies],
    after the checks that it is present and a set or a list. *)
Definition entry_deps (task_data : TaskData) : Res (list string) :=
  match lookup "dependencies" task_data with
  | None => Raise (ValueError "missing 'dependencies' field")
  | Some (VSet xs) => Ok xs
  | Some (VList xs) => Ok (dedup xs)
  | Some _ => Raise (ValueError "dependencies must be set or list")
  end.

(** The first loop: validate each entry before adding any. *)
Fixpoint validate_entries (m : Manager) (entries : list (string * TaskData)) : Res unit :=
  match entries with
  | [] => Ok tt
  | (task_id, task_data) :: rest =>
      match entry_deps task_data with
      | Raise e => Raise e
      | Ok dep_set =>
          match would_create_cycle m task_id dep_set with
          | Raise e => Raise e
          | Ok true => Raise (DynamicTaskRegistrationError "would create a cycle")
          | Ok false =>
              match validate_dependencies_exist m task_id dep_set with
              | Raise e => Raise e
              | Ok _ => validate_entries m rest
              end
          end
      end
  end.

(** The second loop: [self.dep_graph.add_task] for every entry.  The
    entries passed validation, so [entry_deps] succeeds on each. *)
Definition add_entries (g : DependencyGraph) (entries : list (string * TaskData))
  : DependencyGraph :=
  fold_left (fun g '(task_id, task_data) =>
               match entry_deps task_data with
               | Ok dep_set => add_task g task_id dep_set
               | Raise _ => g
               end) entries g.

(** [add_dynamic_tasks] ([new_tasks] is a dict: its items in order). *)
Definition add_dynamic_tasks (m : Manager) (new_tasks : list (string * TaskData))
  : Manager * Res unit :=
  match new_tasks with
  | [] => (m, Ok tt)
  | _ =>
      match validate_entries m new_tasks with
      | Raise e => (m, Raise e)
      | Ok _ =>
          let g1 := add_entries (dep_graph m) new_tasks in
          let '(g2, r) := rebuild g1 in
          match r with
          | Raise e =>
              match ekind e with
              | KCycleDetectedError =>
                  (mk_manager g2 (new_tasks_queue m) (completed_tasks m),
                   Raise (DynamicTaskRegistrationError "Unexpected cycle detected during rebuild"))
              | _ => (mk_manager g2 (new_tasks_queue m) (completed_tasks m), Raise e)
              end
          | Ok _ =>
              (mk_manager g2 (new_tasks_queue m ++ new_tasks) (completed_tasks m), Ok tt)
          end
      end
  end.

(** [TaskExecutionContext.add_discovered_task]: the data dict is the
    display [{"dependencies": dependencies, **task_data}], whose later
    entries overwrite earlier ones in place. *)
Definition full_task_data (dependencies : PyVal) (task_data : TaskData) : TaskData :=
  fold_left (fun d '(k, v) => upsert k v d) task_data [("dependencies", dependencies)].

Definition add_discovered_task (m : Manager) (task_id : string) (dependencies : PyVal)
  (task_data : TaskData) : Manager * Res unit :=
  add_dynamic_tasks m [(task_id, full_task_data dependencies task_data)].

End Dynamic.

(** ** The orchestration loop ([src/orchestrator/orchestrator.py]) *)
Module Orch.
Import DepGraph Codegen.

Definition OrchestrationError (m : string) : exn := mk_exn KOrchestrationError m.

(** What one execution of [executor.execute_task(task_id, data)] gives
    back to [asyncio.gather(..., return_exceptions=True)]: a result or the
    exception it raised. *)
Definition Runner := string -> TaskData -> Res TaskResult.

(** The synthesized result for a task whose execution raised. *)
Definition failed_result (task_id : string) (e : exn) : TaskResult :=
  mk_result task_id FAILED None None (Some (emsg e)) 0.

(** One tick's bookkeeping: the ids dispatched, and the ids passed to the
    single [mark_completed] call ([[]] when it is skipped). *)
Record Tick := mk_tick { dispatched : list string; marked : list string }.

(** Outcome of the loop: it returned, it raised, or it still runs when
    the fuel (number of iterations) is spent. *)
Inductive Outcome :=
| Returned (g : DependencyGraph) (results : list TaskResult) (ticks : list Tick)
| Raised (g : DependencyGraph) (e : exn) (results : list TaskResult) (ticks : list Tick)
| Running (g : DependencyGraph) (results : list TaskResult) (ticks : list Tick).

(** [[self.executor.execute_task(task_id, tasks[task_id]) for ...]]:
    building the coroutines looks each id up; a missing key raises
    [KeyError] before anything runs. *)
Fixpoint dispatch (run : Runner) (tasks : list (string * TaskData)) (ids : list string)
  : Res (list (string * Res TaskResult)) :=
  match ids with
  | [] => Ok []
  | tid :: rest =>
      match lookup tid tasks with
      | None => Raise (mk_exn KKeyError tid)
      | Some data =>
          match dispatch run tasks rest with
          | Raise e => Raise e
          | Ok outs => Ok ((tid, run tid data) :: outs)
          end
      end
  end.

(** The result-processing loop of [orchestrate]: results to append and
    ids to mark completed. *)
Fixpoint process_base (outs : list (string * Res TaskResult))
  : list TaskResult * list string :=
  match outs with
  | [] => ([], [])
  | (tid, Raise e) :: rest =>
      let '(rs, cs) := process_base rest in (failed_result tid e :: rs, tid :: cs)
  | (tid, Ok tr) :: rest =>
      (* both the FAILED branch and the success branch append
         [task_result.task_id] *)
      let '(rs, cs) := process_base rest in (tr :: rs, task_id tr :: cs)
  end.

(** The [while self.executor.dep_graph.is_active()] loop of
    [orchestrate]; any exception inside it becomes an
    [OrchestrationError]. *)
Fixpoint orchestrate_loop (run : Runner) (tasks : list (string * TaskData)) (fuel : nat)
  (g : DependencyGraph) (results : list TaskResult) (ticks : list Tick) : Outcome :=
  match fuel with
  | O => Running g results ticks
  | S fuel' =>
      match DepGraph.is_active g with
      | Raise e => Raised g (OrchestrationError "Critical orchestration failure") results ticks
      | Ok false => Returned g results ticks
      | Ok true =>
          let '(g1, r) := get_ready_tasks g in
          match r with
          | Raise e => Raised g1 (OrchestrationError "Critical orchestration failure") results ticks
          | Ok [] => orchestrate_loop run tasks fuel' g1 results ticks   (* asyncio.sleep *)
          | Ok ready =>
              match dispatch run tasks ready with
              | Raise e => Raised g1 (OrchestrationError "Critical orchestration failure") results ticks
              | Ok outs =>
                  let '(rs, cids) := process_base outs in
                  let results' := results ++ rs in
                  match cids with
                  | [] => orchestrate_loop run tasks fuel' g1 results' (ticks ++ [mk_tick ready []])
                  | _ =>
                      let '(g2, mr) := mark_completed g1 cids in
                      match mr with
                      | Raise e =>
                          Raised g2 (OrchestrationError "Critical orchestration failure")
                            results' (ticks ++ [mk_tick ready cids])
                      | Ok _ =>
                          orchestrate_loop run tasks fuel' g2 results' (ticks ++ [mk_tick ready cids])
                      end
                  end
              end
          end
      end
  end.

(** [TaskOrchestrator.orchestrate] on the executor's graph [g]. *)
Definition orchestrate (run : Runner) (tasks : list (string * TaskData)) (fuel : nat)
  (g : DependencyGraph) : Outcome :=
  match tasks with
  | [] => Returned g [] []
  | _ => orchestrate_loop run tasks fuel g [] []
  end.

(** The result-processing loop of [orchestrate_with_early_termination]:
    [inl] is the [OrchestrationError] for a failed critical task. *)
Fixpoint process_et (critical : list string) (outs : list (string * Res TaskResult))
  : (exn * list TaskResult) + (list TaskResult * list string) :=
  match outs with
  | [] => inr ([], [])
  | (tid, out) :: rest =>
      let is_failed := match out with Raise _ => true | Ok tr => is_failed (status tr) end in
      if mem tid critical && is_failed then
        inl (mk_exn KOrchestrationError ("Critical task '" ++ tid ++ "' failed"), [])
      else
        let '(here_r, here_c) :=
          match out with
          | Raise e => ([failed_result tid e], [])
          | Ok tr => ([tr], if is_failed then [] else [task_id tr])
          end in
        match process_et critical rest with
        | inl (e, rs) => inl (e, here_r ++ rs)
        | inr (rs, cs) => inr (here_r ++ rs, here_c ++ cs)
        end
  end.

(** The loop of [orchestrate_with_early_termination] (with a set of
    critical ids, i.e. [critical_task_ids is not None]). *)
Fixpoint et_loop (run : Runner) (tasks : list (string * TaskData)) (critical : list string)
  (fuel : nat) (g : DependencyGraph) (results : list TaskResult) (ticks : list Tick) : Outcome :=
  match fuel with
  | O => Running g results ticks
  | S fuel' =>
      match DepGraph.is_active g with
      | Raise e => Raised g (OrchestrationError "Critical failure during orchestration") results ticks
      | Ok false => Returned g results ticks
      | Ok true =>
          let '(g1, r) := get_ready_tasks g in
          match r with
          | Raise e => Raised g1 (OrchestrationError "Critical failure during orchestration") results ticks
          | Ok [] => et_loop run tasks critical fuel' g1 results ticks
          | Ok ready =>
              match dispatch run tasks ready with
              | Raise e => Raised g1 (OrchestrationError "Critical failure during orchestration") results ticks
              | Ok outs =>
                  match process_et critical outs with
                  | inl (e, rs) => Raised g1 e (results ++ rs) ticks
                  | inr (rs, cids) =>
                      let results' := results ++ rs in
                      match cids with
                      | [] => et_loop run tasks critical fuel' g1 results' (ticks ++ [mk_tick ready []])
                      | _ =>
                          let '(g2, mr) := mark_completed g1 cids in
                          match mr with
                          | Raise e =>
                              Raised g2 (OrchestrationError "Critical failure during orchestration")
                                results' (ticks ++ [mk_tick ready cids])
                          | Ok _ =>
                              et_loop run tasks critical fuel' g2 results' (ticks ++ [mk_tick ready cids])
                          end
                      end
                  end
              end
          end
      end
  end.

Definition orchestrate_with_early_termination (run : Runner) (tasks : list (string * TaskData))
  (critical_task_ids : option (list string)) (fuel : nat) (g : DependencyGraph) : Outcome :=
  match critical_task_ids with
  | None => orchestrate run tasks fuel g
  | Some critical => et_loop run tasks critical fuel g [] []
  end.

End Orch.

(** ** Graph notions used by the statements *)
Module GraphSpec.
Import Validator.

(** Task [u] depends on [v] in the edge map [gr]. *)
Definition dep_edge (gr : list (string * list string)) (u v : string) : Prop :=
  In v (deps_of gr u).

(** The edge map has a cycle: a self-loop, a 2-cycle or a longer one. *)
Definition has_cycle (gr : list (string * list string)) : Prop :=
  exists u, clos_trans string (dep_edge gr) u u.

(** The shape of [DependencyGraph.graph]: a dict (distinct keys) of sets
    (distinct elements). *)
Definition wf_graph (gr : list (string * list string)) : Prop :=
  NoDup (keys gr) /\ forall k ds, In (k, ds) gr -> NoDup ds.

(** [y] is reached from one of the ids [S] by following dependencies. *)
Inductive reaches (gr : list (string * list string)) (S : list string) : string -> Prop :=
| reaches_start x : In x S -> reaches gr S x
| reaches_dep x y : reaches gr S x -> In y (deps_of gr x) -> reaches gr S y.

End GraphSpec.

(** ** Sessions of calls on one [DependencyGraph] *)
Module Session.
Import DepGraph.

(** The public calls that change a [DependencyGraph] ([rebuild] is
    [build]). *)
Inductive GraphOp :=
| GAdd (task_id : string) (dependencies : list string)
| GBuild
| GReady
| GMark (task_ids : list string)
| GSetBuilt (is_built : bool).

(** Bookkeeping of a session since the last [build]: the ids
    [get_ready_tasks] handed out, and the ids [mark_completed] accepted. *)
Record Ghost := mk_ghost { handed : list string; marked : list string }.

(** The ids of one [mark_completed] call that are accepted: they are taken
    in turn while each was handed out and not yet marked. *)
Fixpoint ghost_mark (h m : list string) (ids : list string) : list string :=
  match ids with
  | [] => m
  | x :: r => if mem x h && negb (mem x m) then ghost_mark h (m ++ [x]) r else m
  end.

Definition step (st : DependencyGraph * Ghost) (o : GraphOp) : DependencyGraph * Ghost :=
  let '(g, gh) := st in
  match o with
  | GAdd t ds => (add_task g t ds, gh)
  | GBuild => (fst (build g), mk_ghost [] [])
  | GReady =>
      let '(g', r) := get_ready_tasks g in
      (g', match r with
           | Ok ready => mk_ghost (handed gh ++ ready) (marked gh)
           | Raise _ => gh
           end)
  | GMark ids =>
      (fst (mark_completed g ids),
       if is_built g then mk_ghost (handed gh) (ghost_mark (handed gh) (marked gh) ids) else gh)
  | GSetBuilt b => (set_built_state g b, gh)
  end.

(** A session: the calls [ops], in order, on a new [DependencyGraph()]. *)
Definition run_ops (ops : list GraphOp) : DependencyGraph * Ghost :=
  fold_left step ops (empty, mk_ghost [] []).

(** The client loop of the specification: call [get_ready_tasks()], stop
    on an empty tuple, otherwise pass the ids to [mark_completed] and go
    on; the rounds handed out, in order.  [fuel] bounds the rounds. *)
Fixpoint drain (fuel : nat) (g : DependencyGraph) : list (list string) :=
  match fuel with
  | O => []
  | S fuel' =>
      match get_ready_tasks g with
      | (_, Raise _) => []
      | (_, Ok []) => []
      | (g1, Ok ready) =>
          match mark_completed g1 ready with
          | (g2, Ok _) => ready :: drain fuel' g2
          | (_, Raise _) => [ready]
          end
      end
  end.

(** The task ids passed to [add_task] in a session, in call order. *)
Definition added_ids (ops : list GraphOp) : list string :=
  flat_map (fun o => match o with GAdd t _ => [t] | _ => [] end) ops.

End Session.

(** ** Invariants of the searches and of the sorter *)
Module Order.

(** [F] lists finished nodes, the most recent first: each node's [succ]
    nodes were finished before it. *)
Fixpoint topo_ok (succ : string -> list string) (F : list string) : Prop :=
  match F with
  | [] => True
  | x :: F' => (forall y, In y (succ x) -> In y F') /\ topo_ok succ F'
  end.

(** Consecutive entries of [l] are related by [R]. *)
Fixpoint chain (R : string -> string -> Prop) (l : list string) : Prop :=
  match l with
  | x :: ((y :: _) as r) => R x y /\ chain R r
  | _ => True
  end.

End Order.

Module ValidatorInv.
Import Validator GraphSpec Order.

(** Holds in every state of the validator's search: the recursion stack
    is the set of the path's entries, and the path has no repeats. *)
Definition vinv (st : DFSState) : Prop :=
  (forall x, In x (rec_stack st) <-> In x (path st)) /\
  NoDup (path st) /\ incl (path st) (visited st).

(** Holds until the first cycle is found: [F] lists the nodes whose
    search is over, the path follows dependency edges. *)
Definition cinv (gr : list (string * list string)) (F : list string) (st : DFSState) : Prop :=
  vinv st /\
  (forall x, In x (visited st) <-> In x F \/ In x (path st)) /\
  (forall x, In x F -> ~ In x (path st)) /\
  topo_ok (deps_of gr) F /\ NoDup F /\ chain (dep_edge gr) (path st).

End ValidatorInv.

(** ** Concrete inputs used by the proofs below *)
Module GraphlibInv.
Import Graphlib Validator GraphSpec Order.

Section FC.
Variable n2i : list (string * NodeInfo).
Variable F : list string.

(** The frames of [_find_cycle]'s stack, top first: the successors a
    frame's iterator has produced are finished ([F]), or are the node
    [a] the frame above was pushed for. *)
Fixpoint frok (a : option string) (frames : list (string * list string)) : Prop :=
  match frames with
  | [] => True
  | (s, it) :: rest =>
      (exists pre, succs_of n2i s = pre ++ it /\ forall y, In y pre -> In y F \/ Some y = a) /\
      frok (Some s) rest
  end.

(** The state of [_find_cycle] between two iterations, [F] the nodes
    whose search is over, most recent first. *)
Definition fc_inv (st : FCState) : Prop :=
  (forall x, In x (fc_seen st) <-> In x F \/ In x (map fst (fc_frames st))) /\
  NoDup (map fst (fc_frames st)) /\
  (forall x, In x F -> ~ In x (map fst (fc_frames st))) /\
  NoDup (keys (fc_node2stacki st)) /\
  (forall x, In x (keys (fc_node2stacki st)) <-> In x (map fst (fc_frames st))) /\
  topo_ok (succs_of n2i) F /\ NoDup F.
End FC.

(** What [TopologicalSorter(graph)] has recorded after the items [P]:
    the number of predecessors and the successors of [x]. *)
Definition npsum (x : string) (P : list (string * list string)) : nat :=
  fold_right (fun p acc => (if str_eqb x (fst p) then List.length (snd p) else 0) + acc)%nat 0%nat P.

Definition sgr (x : string) (P : list (string * list string)) : list string :=
  flat_map (fun p => if mem x (snd p) then [fst p] else []) P.

(** [acc] has the keys [Kp], and stores [N x] and [S x] under [x]. *)
Definition rep (acc : list (string * NodeInfo)) (Kp : string -> Prop)
  (N : string -> Z) (S : string -> list string) : Prop :=
  NoDup (keys acc) /\ (forall x, In x (keys acc) <-> Kp x) /\
  (forall x, In x (keys acc) -> lookup x acc = Some (mk_info (N x) (S x))) /\
  (forall x, ~ In x (keys acc) -> N x = 0%Z /\ S x = []).

(** The prerequisites of [x] not yet marked done. *)
Definition notdone_count (gr : list (string * list string)) (M : list string) (x : string) : nat :=
  List.length (filter (fun d => negb (mem d M)) (deps_of gr x)).

(** The sorter of the edge map [gr] after [prepare()], when [H] are the
    nodes [get_ready] handed out and [M] those [done] accepted. *)
Definition KI (gr : list (string * list string)) (s : TopologicalSorter) (H M : list string) : Prop :=
  (forall x, NoDup (deps_of gr x)) /\
  NoDup (keys (node2info s)) /\
  (forall x, In x (keys (node2info s)) <-> In x (all_nodes gr)) /\
  (forall x i, lookup x (node2info s) = Some i ->
     (forall y, In y (successors i) <-> dep_edge gr y x) /\ NoDup (successors i) /\
     npredecessors i = (if mem x M then NODE_DONE else if mem x H then NODE_OUT
                        else Z.of_nat (notdone_count gr M x))) /\
  (exists R, ready_nodes s = Some R /\ NoDup R /\
     forall x, In x R <-> In x (all_nodes gr) /\ ~ In x H /\ incl (deps_of gr x) M) /\
  NoDup H /\ NoDup M /\ incl M H /\ incl H (all_nodes gr) /\
  (forall x d, In x H -> In d (deps_of gr x) -> In d M) /\
  npassedout s = List.length H /\ nfinished s = List.length M.

End GraphlibInv.

(** The state of a session: the edge map has the shape [add_task]
    gives it, and a sorter kept by the graph is that of some edge map,
    with the ids handed out and accepted since the last [build]. *)
Module SessionInv.
Import Graphlib DepGraph GraphSpec GraphlibInv Session.

Definition sess_inv (st : DependencyGraph * Ghost) : Prop :=
  wf_graph (graph (fst st)) /\
  forall s, sorter (fst st) = Some s -> exists gr0, KI gr0 s (handed (snd st)) (marked (snd st)).

End SessionInv.

(** The shape of a pool's [agents] list: the ids are the indices
    [0 .. n-1], and an agent carries a task exactly when it is busy. *)
Module PoolInv.
Import AgentPool.

Definition task_ok (a : ManagedAgent) : Prop :=
  match status a with
  | BUSY => current_task a <> None
  | _ => current_task a = None
  end.

Definition pool_ok (n : nat) (agents : list ManagedAgent) : Prop :=
  map id agents = seq 0 n /\ Forall task_ok agents.

End PoolInv.

Module Scenarios.
Import Codegen AgentPool Executor DepGraph Dynamic Orch.

(** A callable whose every call times out. *)
Definition always_timeout (k : nat) : Res nat :=
  Raise (mk_exn KTimeoutError "Request timed out").

Definition demo_agent : ManagedAgent := mk_agent 0 IDLE None.

Definition demo_executor : TaskExecutor :=
  mk_executor [demo_agent] [] [] [] 600 2 (mk_retry_config 3 30 true).

(** A collaborator whose every attempt raises a connection error. *)
Definition demo_call (a k : nat) : Res TaskResult :=
  Raise (mk_exn KConnectionError "Connection reset").

(** A completed result for [task-1]. *)
Definition demo_result : TaskResult := mk_result "task-1" COMPLETED None None None 0.

(** The live graph of the dynamic-dependency tests:
    [task-2] depends on [task-1]; built. *)
Definition live_graph : DependencyGraph :=
  fst (build (add_task (add_task empty "task-1" []) "task-2" ["task-1"])).

Definition task_entry (deps : list string) (prompt : string) : TaskData :=
  [("dependencies", VSet deps); ("prompt", VStr prompt); ("repo_id", VStr "org/repo")].

(** A manager that has recorded [task-x] and [task-y] as completed. *)
Definition manager_xy : Manager := mk_manager live_graph [] ["task-x"; "task-y"].

(** A batch whose two tasks depend on each other. *)
Definition batch_xy : list (string * TaskData) :=
  [("task-x", task_entry ["task-y"] "Task X"); ("task-y", task_entry ["task-x"] "Task Y")].

(** The batch of [test_batch_with_internal_dependencies]: a chain
    [task-1 <- task-a <- task-b <- task-c]. *)
Definition manager_fresh : Manager := mk_manager live_graph [] [].

Definition batch_chain : list (string * TaskData) :=
  [("task-a", task_entry ["task-1"] "Task A");
   ("task-b", task_entry ["task-a"] "Task B");
   ("task-c", task_entry ["task-b"] "Task C")].

(** The [tasks] of the [orchestrate] docstring: no ["task_id"] key. *)
Definition doc_tasks : list (string * TaskData) :=
  [("task-1", [("prompt", VStr "Add validation"); ("repo_id", VStr "org/repo")])].

Definition doc_graph : DependencyGraph := fst (build (add_task empty "task-1" [])).

(** An executor whose remote execution succeeds; the result carries the
    id [CodegenExecutor] reads from the task data. *)
Definition run_succeeds : Runner := fun tid data =>
  Ok (mk_result (result_task_id data) COMPLETED None None None 0).

(** [B] depends on [A]; [A]'s execution returns a failed result. *)
Definition ab_tasks : list (string * TaskData) :=
  [("A", [("task_id", VStr "A")]); ("B", [("task_id", VStr "B")])].

Definition ab_graph : DependencyGraph :=
  fst (build (add_task (add_task empty "A" []) "B" ["A"])).

Definition run_a_fails : Runner := fun tid data =>
  Ok (mk_result (result_task_id data)
        (if str_eqb tid "A" then Codegen.FAILED else COMPLETED) None None None 0).

(** A graph whose two tasks depend on each other. *)
Definition cyc_graph : DependencyGraph := mk_graph [("A", ["B"]); ("B", ["A"])] None false.

(** [B] depends on [A]. *)
Definition ab_ops : list Session.GraphOp := [Session.GAdd "A" []; Session.GAdd "B" ["A"]].

(** The same, built, and one [get_ready_tasks()] call, which hands out [A]. *)
Definition ab_ready_ops : list Session.GraphOp := ab_ops ++ [Session.GBuild; Session.GReady].

End Scenarios.

(** * Proofs *)

(** ** Facts about the list helpers *)
Module ListFacts.

Lemma mem_In x l : mem x l = true <-> In x l.
Proof.
unfold mem. rewrite existsb_exists. split.
- intros [y [Hy Hxy]]. apply String.eqb_eq in Hxy. subst. exact Hy.
- intros H. exists x. split; [exact H | apply String.eqb_refl].
Qed.

Lemma mem_notIn x l : mem x l = false <-> ~ In x l.
Proof.
rewrite <- mem_In. destruct (mem x l); split; congruence.
Qed.

Lemma str_eqb_true x y : str_eqb x y = true <-> x = y.
Proof. apply String.eqb_eq. Qed.

Lemma str_eqb_false x y : str_eqb x y = false <-> x <> y.
Proof. apply String.eqb_neq. Qed.

Lemma In_set_remove x y l : In y (set_remove x l) <-> In y l /\ x <> y.
Proof.
unfold set_remove. rewrite filter_In, negb_true_iff, str_eqb_false. tauto.
Qed.

Lemma In_set_add x y l : In y (set_add x l) <-> In y l \/ x = y.
Proof.
unfold set_add. destruct (mem x l) eqn:E.
- apply mem_In in E. split; [tauto|]. intros [H|<-]; auto.
- rewrite in_app_iff. simpl. intuition.
Qed.

Lemma In_dedup x l : In x (dedup l) <-> In x l.
Proof.
  induction l as [|a l IH]; simpl; [tauto|].
  rewrite filter_In, IH, negb_true_iff, str_eqb_false.
  split.
  - intros [->|[H _]]; auto.
  - intros [->|H]; [auto|]. destruct (string_dec a x); [left; auto | right; split; auto].
Qed.

Lemma NoDup_dedup l : NoDup (dedup l).
Proof.
  induction l as [|a l IH]; simpl; constructor.
  - rewrite filter_In, negb_true_iff, str_eqb_false. intros [_ H]. apply H. reflexivity.
  - apply NoDup_filter. exact IH.
Qed.

Lemma lookup_In {V} k (d : list (string * V)) v : lookup k d = Some v -> In (k, v) d.
Proof.
  induction d as [|[k' v'] d IH]; simpl; [discriminate|].
  destruct (str_eqb k k') eqn:E.
  - intros [= <-]. apply str_eqb_true in E. subst. auto.
  - intros H. right. auto.
Qed.

Lemma lookup_keys {V} k (d : list (string * V)) v : lookup k d = Some v -> In k (keys d).
Proof. intros H. apply lookup_In in H. unfold keys. apply in_map_iff. exists (k, v). auto. Qed.

Lemma lookup_None {V} k (d : list (string * V)) : lookup k d = None <-> ~ In k (keys d).
Proof.
  induction d as [|[k' v'] d IH]; simpl; [tauto|].
  destruct (str_eqb k k') eqn:E.
  - apply str_eqb_true in E. subst. split; [discriminate|]. intros H. exfalso. auto.
  - apply str_eqb_false in E. rewrite IH. intuition.
Qed.

Lemma In_lookup {V} k v (d : list (string * V)) :
  NoDup (keys d) -> In (k, v) d -> lookup k d = Some v.
Proof.
  induction d as [|[k' v'] d IH]; simpl; [tauto|].
  intros Hn Hin. inversion Hn as [|? ? Hk Hd]; subst.
  destruct (str_eqb k k') eqn:E.
  - apply str_eqb_true in E. subst. destruct Hin as [[= ->]|Hin]; [reflexivity|].
    exfalso. apply Hk. apply in_map_iff. exists (k', v). auto.
  - apply str_eqb_false in E. destruct Hin as [[= -> ->]|Hin]; [congruence|]. auto.
Qed.

End ListFacts.

(** ** C9: the worker state machine *)
Module PoolProofs.
Import AgentPool.

(** C9 (counterexample).  [reset_agent] is not the only way out of
    [FAILED]: [mark_idle] turns a failed worker into an idle one. *)
Lemma mark_idle_leaves_failed :
  ~ (forall a o a', status a = FAILED -> apply_op a o = Ok a' ->
                     status a' <> FAILED -> o = OpReset).
Proof.
  intros H.
  specialize (H (mk_agent 0 FAILED None) OpMarkIdle (mk_agent 0 IDLE None)
                eq_refl eq_refl ltac:(discriminate)).
  discriminate.
Qed.

(** C9 (amended).  [mark_busy] succeeds, recording the task, exactly
    from [IDLE] and raises [ValueError] otherwise; [reset_agent] succeeds
    exactly from [FAILED] and raises [ValueError] otherwise; [mark_idle]
    and [mark_failed] succeed from every status and clear the current
    task; out of [FAILED], the transitions that succeed and leave
    [FAILED] are exactly [reset_agent] and [mark_idle], both to [IDLE]. *)
Theorem worker_state_machine : forall a : ManagedAgent,
  (forall t, status a = IDLE -> mark_busy a t = Ok (mk_agent (id a) BUSY (Some t))) /\
  (forall t, status a <> IDLE -> exists m, mark_busy a t = Raise (ValueError m)) /\
  (status a = FAILED -> reset_agent a = Ok (mk_agent (id a) IDLE None)) /\
  (status a <> FAILED -> exists m, reset_agent a = Raise (ValueError m)) /\
  (status (mark_idle a) = IDLE /\ current_task (mark_idle a) = None) /\
  (forall r, status (mark_failed a r) = FAILED /\ current_task (mark_failed a r) = None) /\
  (status a = FAILED -> forall o a',
      apply_op a o = Ok a' -> status a' <> FAILED ->
      (o = OpReset \/ o = OpMarkIdle) /\ status a' = IDLE /\ current_task a' = None).
Proof.
  intros [i s c]; simpl.
  split; [|split; [|split; [|split; [|split; [|split]]]]].
  - intros t ->. reflexivity.
  - intros t Hs. unfold mark_busy; simpl.
    destruct s; [congruence | eexists; reflexivity | eexists; reflexivity].
  - intros ->. reflexivity.
  - intros Hs. unfold reset_agent; simpl.
    destruct s; [eexists; reflexivity | eexists; reflexivity | congruence].
  - split; reflexivity.
  - intros r. split; reflexivity.
  - intros -> o a' Hop Hst.
    destruct o as [t | | r | ]; simpl in Hop; unfold mark_busy, reset_agent in Hop;
      simpl in Hop; inversion Hop; subst; simpl in *; auto; congruence.
Qed.

End PoolProofs.

(** ** C5: retries and exponential backoff *)
Module RetryProofs.
Import Retry Scenarios.
Local Open Scope Z_scope.

Lemma not_permanent_is_permanent e :
  classify_error e <> PERMANENT -> is_permanent (classify_error e) = false.
Proof. destruct (classify_error e); simpl; congruence. Qed.

Lemma attempt_index k : Z.to_nat (Z.of_nat (S k) - 1) = k.
Proof. rewrite Nat2Z.inj_succ. rewrite Z.sub_1_r, Z.pred_succ. apply Nat2Z.id. Qed.

Lemma attempt_next k : Z.of_nat (S k) + 1 = Z.of_nat (S (S k)).
Proof. lia. Qed.

Lemma backoff_schedule_S base k n :
  (1 <= n)%nat ->
  backoff_schedule base k (S n) = Call k :: Sleep (base * 2 ^ (k - 1)) :: backoff_schedule base (k + 1) n.
Proof. destruct n; [lia | reflexivity]. Qed.

Section Loop.
Context {T : Type}.
Variable fn : nat -> Res T.
Variables max base : Z.

(** Every remaining attempt fails retryably: all of them are made, and
    the last error is raised. *)
Lemma retry_loop_all_fail : forall n k last,
  Z.of_nat k + Z.of_nat n = max -> (1 <= n)%nat ->
  (forall i, (i < n)%nat -> exists e, fn (k + i)%nat = Raise e /\ classify_error e <> PERMANENT) ->
  exists e, fn (k + n - 1)%nat = Raise e /\
    retry_loop fn max base (Z.of_nat (S k)) n last
    = (backoff_schedule base (Z.of_nat (S k)) n, Raise e).
Proof.
  induction n as [|n IH]; intros k last Hmax Hn Hf; [lia|].
  destruct (Hf 0%nat ltac:(lia)) as [e0 [He0 Hc0]].
  rewrite Nat.add_0_r in He0.
  cbn [retry_loop]. rewrite attempt_index, He0, not_permanent_is_permanent by exact Hc0.
  destruct n as [|n].
  - exists e0. replace (k + 1 - 1)%nat with k by lia. split; [exact He0|].
    replace (max <=? Z.of_nat (S k)) with true by (symmetry; apply Z.leb_le; lia).
    reflexivity.
  - replace (max <=? Z.of_nat (S k)) with false by (symmetry; apply Z.leb_gt; lia).
    destruct (IH (S k) (Some e0)) as [e [He Hr]].
    + lia.
    + lia.
    + intros i Hi. replace (S k + i)%nat with (k + S i)%nat by lia. apply Hf. lia.
    + exists e. split.
      * replace (k + S (S n) - 1)%nat with (S k + S n - 1)%nat by lia. exact He.
      * rewrite attempt_next, Hr. rewrite (backoff_schedule_S _ _ (S n)) by lia.
        rewrite attempt_next. reflexivity.
Qed.

(** The first [j] remaining attempts fail retryably and attempt [j]
    succeeds: [j + 1] calls, with the backoff sleeps in between. *)
Lemma retry_loop_success : forall j k n last v,
  Z.of_nat k + Z.of_nat n = max -> (j < n)%nat ->
  (forall i, (i < j)%nat -> exists e, fn (k + i)%nat = Raise e /\ classify_error e <> PERMANENT) ->
  fn (k + j)%nat = Ok v ->
  retry_loop fn max base (Z.of_nat (S k)) n last
  = (backoff_schedule base (Z.of_nat (S k)) (S j), Ok v).
Proof.
  induction j as [|j IH]; intros k n last v Hmax Hj Hf Hv.
  - destruct n as [|n]; [lia|]. rewrite Nat.add_0_r in Hv.
    cbn [retry_loop]. rewrite attempt_index, Hv. reflexivity.
  - destruct n as [|n]; [lia|].
    destruct (Hf 0%nat ltac:(lia)) as [e0 [He0 Hc0]].
    rewrite Nat.add_0_r in He0.
    cbn [retry_loop]. rewrite attempt_index, He0, not_permanent_is_permanent by exact Hc0.
    replace (max <=? Z.of_nat (S k)) with false by (symmetry; apply Z.leb_gt; lia).
    rewrite attempt_next.
    rewrite (IH (S k) n (Some e0) v).
    + rewrite (backoff_schedule_S _ _ (S j)) by lia. rewrite attempt_next. reflexivity.
    + lia.
    + lia.
    + intros i Hi. replace (S k + i)%nat with (k + S i)%nat by lia. apply Hf. lia.
    + replace (S k + j)%nat with (k + S j)%nat by lia. exact Hv.
Qed.
End Loop.

(** C5.  For [max_attempts >= 1]: a first failure classified [PERMANENT]
    is re-raised after exactly one call; when the calls before attempt
    [j + 1] fail with non-permanent errors and attempt [j + 1 <= max]
    succeeds, the calls are [1 .. j+1] with a sleep of
    [base * 2^(attempt-1)] after each failed one; when all [max] calls fail
    with non-permanent errors, all [max] calls are made with those sleeps
    between them and the last error is re-raised. *)
Theorem execute_with_retry_schedule {T : Type} (fn : nat -> Res T) (max base : Z) :
  1 <= max ->
  (forall e, fn O = Raise e -> classify_error e = PERMANENT ->
     execute_with_retry fn max base = ([Call 1], Raise e)) /\
  (forall j v, (j < Z.to_nat max)%nat -> fails_retryably fn j -> fn j = Ok v ->
     execute_with_retry fn max base = (backoff_schedule base 1 (S j), Ok v)) /\
  (fails_retryably fn (Z.to_nat max) ->
     exists e, fn (pred (Z.to_nat max)) = Raise e /\
       execute_with_retry fn max base = (backoff_schedule base 1 (Z.to_nat max), Raise e)).
Proof.
  intros Hmax. unfold execute_with_retry. split; [|split].
  - intros e He Hc. destruct (Z.to_nat max) eqn:En; [lia|].
    simpl. rewrite He, Hc. reflexivity.
  - intros j v Hj Hf Hv.
    apply (retry_loop_success fn max base j 0 (Z.to_nat max) None v); auto; lia.
  - intros Hf.
    destruct (retry_loop_all_fail fn max base (Z.to_nat max) 0 None) as [e [He Hr]].
    + lia.
    + lia.
    + exact Hf.
    + exists e. split.
      * rewrite <- He. f_equal. lia.
      * exact Hr.
Qed.

Lemma execute_with_retry_schedule_witness :
  1 <= 3 /\
  exists e, always_timeout 2 = Raise e /\
    execute_with_retry always_timeout 3 30
    = ([Call 1; Sleep 30; Call 2; Sleep 60; Call 3], Raise e).
Proof.
  split; [lia|].
  apply (proj2 (proj2 (execute_with_retry_schedule always_timeout 3 30 ltac:(lia)))).
  intros i Hi. eexists. split; [reflexivity | discriminate].
Defined.

End RetryProofs.

(** ** C8: cleanup on every exit of [execute_task] *)
Module ExecutorProofs.
Import Codegen AgentPool Executor ListFacts Scenarios.

Lemma get_idle_agent_spec l a :
  get_idle_agent l = Some a -> In a l /\ status a = IDLE.
Proof.
  induction l as [|b l IH]; simpl; [discriminate|].
  destruct (status_eqb (status b) IDLE) eqn:E.
  - intros [= <-]. split; [auto|]. destruct (status b); simpl in E; congruence.
  - intros H. destruct (IH H). auto.
Qed.

Lemma put_agent_same_id l a b :
  In b (put_agent l a) -> id b = id a -> b = a.
Proof.
  unfold put_agent. rewrite in_map_iff. intros [c [<- _]].
  destruct (Nat.eqb (id c) (id a)) eqn:E; auto.
  intros H. apply Nat.eqb_neq in E. congruence.
Qed.

Lemma put_agent_present l a b :
  In b l -> id b = id a -> In a (put_agent l a).
Proof.
  intros Hb Hid. unfold put_agent. apply in_map_iff. exists b. split; auto.
  rewrite Hid, Nat.eqb_refl. reflexivity.
Qed.

Lemma get_or_create_executor_ok ex a ex' :
  get_or_create_executor ex a = Ok ex' ->
  agent_pool ex' = agent_pool ex /\ active_tasks ex' = active_tasks ex /\
  retry_config ex' = retry_config ex.
Proof.
  unfold get_or_create_executor.
  destruct existsb; [intros [= <-]; auto|].
  destruct (timeout_seconds ex <? 60)%Z; [discriminate|].
  destruct (poll_interval_seconds ex <? 1)%Z; [discriminate|].
  intros [= <-]. simpl. auto.
Qed.

Lemma get_or_create_executor_raise ex a e :
  get_or_create_executor ex a = Raise e -> exists m, e = ValueError m.
Proof.
  unfold get_or_create_executor.
  destruct existsb; [discriminate|].
  destruct (timeout_seconds ex <? 60)%Z; [intros [= <-]; eexists; reflexivity|].
  destruct (poll_interval_seconds ex <? 1)%Z; [intros [= <-]; eexists; reflexivity|].
  discriminate.
Qed.

(** C8.  Whenever [execute_task] returns or raises, the worker [a] it
    marked busy has been put back: the trace ends with [mark_idle] of that
    worker, then the discard of the task id, then the semaphore release;
    the pool holds that worker, idle and with no current task; the task id
    is not in the active set; and the outcome is the one of the remote
    (retry-wrapped) execution, value or exception, or the [ValueError] of
    building the worker's executor, raised before any remote call. *)
Theorem execute_task_cleanup ex task_id task_data call ex' tr r :
  execute_task ex task_id task_data call = Finished ex' tr r ->
  exists a tr0,
    tr = tr0 ++ [EMarkIdle a; EActiveDiscard task_id; ERelease] /\
    In (EMarkBusy a task_id) tr0 /\
    (exists ag, In ag (agent_pool ex') /\ id ag = a) /\
    (forall ag, In ag (agent_pool ex') -> id ag = a ->
                status ag = IDLE /\ current_task ag = None) /\
    ~ In task_id (active_tasks ex') /\
    (r = run_attempts (retry_config ex) (call a) \/
     (exists m, r = Raise (ValueError m) /\ ~ In (ERun a) tr)).
Proof.
  unfold execute_task. cbn [agent_pool set_active].
  destruct (get_idle_agent (agent_pool ex)) as [ag0|] eqn:Eg; [|discriminate].
  destruct (get_idle_agent_spec _ _ Eg) as [Hin Hidle].
  unfold mark_busy at 1. rewrite Hidle. cbn [status_eqb negb].
  set (busy := mk_agent (id ag0) BUSY (Some task_id)).
  set (ex2 := set_pool _ (put_agent _ busy)).
  assert (Hbusy : In busy (agent_pool ex2))
    by (apply (put_agent_present _ _ ag0); auto).
  (* the three ways out of the inner [try] *)
  destruct (get_or_create_executor ex2 ag0) as [ex2'|e] eqn:Ec.
  - destruct (get_or_create_executor_ok _ _ _ Ec) as [Hp [Ha Hr]].
    assert (Hrun : retry_config ex2' = retry_config ex) by (rewrite Hr; reflexivity).
    destruct (run_attempts (retry_config ex2') (call (id ag0))) as [res|e] eqn:Er;
      intros H; inversion H; subst; clear H;
      exists (id ag0), [EAcquire; EActiveAdd task_id; EMarkBusy (id ag0) task_id; ERun (id ag0)];
      cbn [agent_pool active_tasks set_active set_pool set_results];
      (split; [reflexivity|]); (split; [simpl; tauto|]);
      (split; [exists (mark_idle busy); split;
                [apply (put_agent_present _ _ busy); [rewrite ?Hp; exact Hbusy | reflexivity]
                | reflexivity]|]);
      (split; [intros ag Hag Hid; rewrite (put_agent_same_id _ _ _ Hag Hid); split; reflexivity|]);
      (split; [rewrite In_set_remove; tauto|]);
      left; rewrite <- Hrun, Er; reflexivity.
  - intros H; inversion H; subst; clear H.
    destruct (get_or_create_executor_raise _ _ _ Ec) as [m ->].
    exists (id ag0), [EAcquire; EActiveAdd task_id; EMarkBusy (id ag0) task_id].
    cbn [agent_pool active_tasks set_active set_pool].
    split; [reflexivity|]. split; [simpl; tauto|].
    split; [exists (mark_idle busy); split;
             [apply (put_agent_present _ _ busy); [exact Hbusy | reflexivity] | reflexivity]|].
    split; [intros ag Hag Hid; rewrite (put_agent_same_id _ _ _ Hag Hid); split; reflexivity|].
    split; [rewrite In_set_remove; tauto|].
    right. exists m. split; [reflexivity|]. simpl. intuition discriminate.
Qed.

Lemma execute_task_cleanup_witness :
  exists ex' tr r,
    execute_task demo_executor "task-1" [] demo_call = Finished ex' tr r /\
    exists a tr0,
      tr = tr0 ++ [EMarkIdle a; EActiveDiscard "task-1"; ERelease] /\
      In (EMarkBusy a "task-1") tr0 /\
      (exists ag, In ag (agent_pool ex') /\ id ag = a) /\
      (forall ag, In ag (agent_pool ex') -> id ag = a ->
                  status ag = IDLE /\ current_task ag = None) /\
      ~ In "task-1" (active_tasks ex') /\
      (r = run_attempts (retry_config demo_executor) (demo_call a) \/
       (exists m, r = Raise (ValueError m) /\ ~ In (ERun a) tr)).
Proof.
  do 3 eexists. split; [reflexivity|].
  apply (execute_task_cleanup demo_executor "task-1" [] demo_call). reflexivity.
Defined.

End ExecutorProofs.

(** ** C1, C7: batch registration of dynamic tasks *)
Module DynamicProofs.
Import DepGraph Codegen Dynamic Scenarios.

(** C1 (failing input).  Each task of [batch_xy] passes the per-task
    checks ([task-x] and [task-y] are recorded as completed, and each task
    alone adds no cycle to the live graph), so the batch is applied to the
    live graph; its rebuild then finds the cycle [task-x <-> task-y].  The
    call raises, and the live graph keeps both batch tasks and is no longer
    built: nothing is rolled back.  Only the queue is untouched. *)
Theorem add_dynamic_tasks_no_rollback :
  let '(m', r) := add_dynamic_tasks manager_xy batch_xy in
  (exists e, r = Raise e /\ ekind e = KDynamicTaskRegistrationError) /\
  is_built (dep_graph manager_xy) = true /\
  is_built (dep_graph m') = false /\
  graph (dep_graph m') =
    graph (dep_graph manager_xy) ++ [("task-x", ["task-y"]); ("task-y", ["task-x"])] /\
  new_tasks_queue m' = new_tasks_queue manager_xy.
Proof.
  vm_compute. split; [eexists; split; reflexivity|]. repeat split.
Qed.

(** C7 (failing input).  The chain batch of the repository's test
    [test_batch_with_internal_dependencies] refers only to [task-1] of
    the live graph and to tasks of the batch itself, and the live graph
    with the whole batch added builds without a cycle; yet
    [add_dynamic_tasks] rejects it with a [DynamicTaskRegistrationError]
    about a non-existent dependency, leaving the manager unchanged. *)
Theorem add_dynamic_tasks_rejects_batch_refs :
  (forall tid data, In (tid, data) batch_chain ->
     exists deps, entry_deps data = Ok deps /\
       forall d, In d deps -> In d (keys (graph live_graph)) \/ In d (map fst batch_chain)) /\
  snd (build (add_entries live_graph batch_chain)) = Ok tt /\
  add_dynamic_tasks manager_fresh batch_chain =
    (manager_fresh, Raise (DynamicTaskRegistrationError "depends on non-existent task")).
Proof.
  split; [|split; vm_compute; reflexivity].
  intros tid data Hin. simpl in Hin.
  destruct Hin as [[= <- <-] | [[= <- <-] | [[= <- <-] | []]]];
    eexists; (split; [reflexivity|]); simpl; intros d Hd; intuition subst; auto.
Qed.

End DynamicProofs.

(** ** C3, C4: the orchestration loops *)
Module OrchProofs.
Import DepGraph Codegen Orch Scenarios.

(** C3 (failing input).  On the [tasks] of the [orchestrate] docstring,
    whose entries carry no ["task_id"] key, the executor's successful
    result carries the id ["unknown"]; the loop marks that id instead of
    the dispatched ["task-1"], [mark_completed] raises, and [orchestrate]
    raises [OrchestrationError] after an ordinary success. *)
Theorem orchestrate_marks_result_id : forall fuel,
  orchestrate run_succeeds doc_tasks (S fuel) doc_graph =
    Raised (fst (mark_completed (fst (get_ready_tasks doc_graph)) ["unknown"]))
      (OrchestrationError "Critical orchestration failure")
      [mk_result "unknown" COMPLETED None None None 0]
      [mk_tick ["task-1"] ["unknown"]].
Proof. intros fuel. vm_compute. reflexivity. Qed.

(** The state after the first tick of [ab_graph]: [A] handed out, never
    marked. *)
Lemma ab_stuck_step :
  DepGraph.is_active (fst (get_ready_tasks ab_graph)) = Ok true /\
  get_ready_tasks (fst (get_ready_tasks ab_graph)) = (fst (get_ready_tasks ab_graph), Ok []).
Proof. vm_compute. split; reflexivity. Qed.

Lemma et_loop_stuck crit rs ts : forall fuel,
  et_loop run_a_fails ab_tasks crit fuel (fst (get_ready_tasks ab_graph)) rs ts
  = Running (fst (get_ready_tasks ab_graph)) rs ts.
Proof.
  destruct ab_stuck_step as [Ha Hg].
  induction fuel as [|fuel IH]; [reflexivity|].
  cbn [et_loop]. rewrite Ha, Hg. exact IH.
Qed.

(** C4 (failing input).  [B] depends on [A], only [B] is critical, and
    [A]'s execution returns a failed result.  The base loop marks [A]
    completed and then runs [B]; the early-termination loop never marks
    [A], so [B] never becomes ready, nothing is raised, and the loop polls
    forever: for every number of iterations it is still running, with
    only [A] dispatched and nothing marked. *)
Theorem early_termination_never_marks_failed :
  (exists g, orchestrate_with_early_termination run_a_fails ab_tasks None 10 ab_graph =
     Returned g [mk_result "A" FAILED None None None 0; mk_result "B" COMPLETED None None None 0]
       [mk_tick ["A"] ["A"]; mk_tick ["B"] ["B"]]) /\
  (forall fuel,
     orchestrate_with_early_termination run_a_fails ab_tasks (Some ["B"]) (S fuel) ab_graph =
     Running (fst (get_ready_tasks ab_graph))
       [mk_result "A" FAILED None None None 0] [mk_tick ["A"] []]).
Proof.
  split.
  - eexists. vm_compute. reflexivity.
  - intros fuel. cbn [orchestrate_with_early_termination et_loop].
    replace (DepGraph.is_active ab_graph) with (Ok true) by (vm_compute; reflexivity).
    replace (get_ready_tasks ab_graph)
      with (fst (get_ready_tasks ab_graph), Ok ["A"] : Res (list string))
      by (vm_compute; reflexivity).
    cbn -[get_ready_tasks]. rewrite et_loop_stuck. reflexivity.
Qed.

End OrchProofs.

(** ** Generic facts about finishing orders *)
Module OrderFacts.
Import Order.

Lemma topo_acc (succ : string -> list string) F :
  topo_ok succ F -> forall x, In x F -> Acc (fun y x => In y (succ x)) x.
Proof.
  induction F as [|a F IH]; simpl; [tauto|].
  intros [Hs Ht] x [<-|Hx].
  - constructor. intros y Hy. apply IH; auto.
  - apply IH; auto.
Qed.

Lemma acc_no_cycle {A} (R : relation A) x : Acc R x -> ~ clos_trans A R x x.
Proof.
  intros H. apply Acc_clos_trans in H. induction H as [x _ IH].
  intros Hc. exact (IH x Hc Hc).
Qed.

Lemma clos_trans_flip {A} (R : relation A) x y :
  clos_trans A R x y -> clos_trans A (fun a b => R b a) y x.
Proof.
  induction 1 as [x y H|x y z _ IH1 _ IH2].
  - apply t_step. exact H.
  - eapply t_trans; eauto.
Qed.

Lemma clos_trans_first {A} (R : relation A) x y : clos_trans A R x y -> exists v, R x v.
Proof. induction 1; eauto. Qed.

Lemma chain_app_l R l l' : chain R (l ++ l') -> chain R l.
Proof.
  induction l as [|a l IH]; simpl; [tauto|].
  destruct l as [|b l]; simpl; [tauto|].
  intros [H1 H2]. split; [exact H1|]. apply IH. exact H2.
Qed.

Lemma chain_snoc R l x :
  chain R l -> (forall P a, l = P ++ [a] -> R a x) -> chain R (l ++ [x]).
Proof.
  induction l as [|a l IH]; simpl; [tauto|].
  intros Hc Hl. destruct l as [|b l]; simpl.
  - split; [apply (Hl []); reflexivity | exact I].
  - destruct Hc as [H1 H2]. split; [exact H1|].
    apply IH; [exact H2|]. intros P c HP. apply (Hl (a :: P)). rewrite HP. reflexivity.
Qed.

Lemma chain_reach R l a x :
  chain R (l ++ [a]) -> In x (l ++ [a]) -> clos_refl_trans string R x a.
Proof.
  revert x. induction l as [|b l IH]; intros x; simpl.
  - intros _ [<-|[]]. apply rt_refl.
  - intros Hc [<-|Hx].
    + destruct l as [|c l]; simpl in Hc.
      * apply rt_step. apply Hc.
      * destruct Hc as [H1 H2]. eapply rt_trans; [apply rt_step; exact H1|].
        apply (IH c H2). left. reflexivity.
    + apply IH; [|exact Hx]. destruct l as [|c l]; simpl in *; [exact I | apply Hc].
Qed.

Lemma filter_len_mono (l v1 v2 : list string) :
  incl v1 v2 ->
  List.length (filter (fun x => negb (mem x v2)) l) <= List.length (filter (fun x => negb (mem x v1)) l).
Proof.
  intros Hi. induction l as [|a l IH]; simpl; [lia|].
  destruct (mem a v2) eqn:E2; destruct (mem a v1) eqn:E1; simpl; try lia.
  apply ListFacts.mem_In in E1. apply ListFacts.mem_notIn in E2. exfalso. auto.
Qed.

Lemma filter_len_strict (l v1 v2 : list string) x :
  incl v1 v2 -> In x l -> ~ In x v1 -> In x v2 ->
  List.length (filter (fun x => negb (mem x v2)) l) < List.length (filter (fun x => negb (mem x v1)) l).
Proof.
  intros Hi Hx H1 H2. induction l as [|a l IH]; simpl; [destruct Hx|].
  destruct Hx as [<-|Hx].
  - apply ListFacts.mem_In in H2. apply ListFacts.mem_notIn in H1. rewrite H1, H2. simpl.
    pose proof (filter_len_mono l v1 v2 Hi). lia.
  - specialize (IH Hx).
    destruct (mem a v2) eqn:E2; destruct (mem a v1) eqn:E1; simpl; try lia.
    apply ListFacts.mem_In in E1. apply ListFacts.mem_notIn in E2. exfalso. auto.
Qed.

End OrderFacts.

(** ** C6, validator side: the cycle search of [GraphValidator] *)
Module ValidatorProofs.
Import Validator GraphSpec Order ValidatorInv ListFacts OrderFacts.

Section Graph.
Variable gr : list (string * list string).

Lemma in_deps_all u v : In v (deps_of gr u) -> In v (all_nodes gr).
Proof.
  unfold deps_of. destruct (lookup u gr) as [ds|] eqn:E; [|simpl; tauto].
  intros Hv. apply lookup_In in E. unfold all_nodes. apply In_dedup, in_app_iff. right.
  apply in_concat. exists ds. split; [|exact Hv]. apply in_map_iff. exists (u, ds). auto.
Qed.

Lemma dep_edge_src u v : dep_edge gr u v -> In u (all_nodes gr).
Proof.
  unfold dep_edge, deps_of. destruct (lookup u gr) as [ds|] eqn:E; [|simpl; tauto].
  intros _. apply lookup_keys in E. unfold all_nodes. apply In_dedup, in_app_iff. left. exact E.
Qed.

Lemma skipn_index_of x l : In x l -> exists t, skipn (index_of x l) l = x :: t.
Proof.
  induction l as [|a l IH]; simpl; [tauto|].
  destruct (str_eqb x a) eqn:E.
  - apply str_eqb_true in E. subst. intros _. exists l. reflexivity.
  - apply str_eqb_false in E. intros [->|H]; [congruence|]. apply IH. exact H.
Qed.

Lemma vinv_enter st node :
  vinv st -> ~ In node (visited st) ->
  vinv (mk_dfs (set_add node (visited st)) (set_add node (rec_stack st)) (path st ++ [node])).
Proof.
  intros [H1 [H2 H3]] Hn. unfold vinv; simpl. split; [|split].
  - intros x. rewrite In_set_add, H1, in_app_iff. simpl. intuition.
  - apply NoDup_app; [exact H2 | repeat constructor; simpl; tauto|].
    intros a Ha [<-|[]]. apply Hn. apply H3. exact Ha.
  - intros x. rewrite in_app_iff, In_set_add. simpl. intros [Hx|[<-|[]]]; [left; apply H3|right]; auto.
Qed.

Lemma vinv_leave s P node :
  vinv s -> path s = P ++ [node] ->
  vinv (mk_dfs (visited s) (set_remove node (rec_stack s)) (removelast (path s))).
Proof.
  intros [H1 [H2 H3]] HP. unfold vinv; simpl. rewrite HP in *. rewrite removelast_last.
  assert (Hn : ~ In node P) by (apply NoDup_remove_2 in H2; rewrite app_nil_r in H2; exact H2).
  split; [|split].
  - intros x. rewrite In_set_remove, H1, in_app_iff. simpl. intuition congruence.
  - eapply NoDup_app_remove_r. exact H2.
  - intros x Hx. apply H3. apply in_app_iff. left. exact Hx.
Qed.

(** Every state of the search keeps [vinv], and every reported cycle
    starts and ends with the same node. *)
Lemma dfs_vinv : forall fuel node st st' c,
  vinv st -> ~ In node (visited st) ->
  dfs_cycle_detect gr fuel node st = Some (st', c) ->
  vinv st' /\ incl (visited st) (visited st') /\
  (c = None -> path st' = path st) /\
  (forall cy, c = Some cy -> exists x mid, cy = x :: mid ++ [x]).
Proof.
  induction fuel as [|f IH]; intros node st st' c Hv Hn Hr; [discriminate|].
  cbn [dfs_cycle_detect] in Hr.
  assert (L : forall ds s, vinv s -> (exists P, path s = P ++ [node]) ->
             incl (visited st) (visited s) ->
             dfs_loop (dfs_cycle_detect gr f) node ds s = Some (st', c) ->
             vinv st' /\ incl (visited st) (visited st') /\
             (c = None -> path st' = removelast (path s)) /\
             (forall cy, c = Some cy -> exists x mid, cy = x :: mid ++ [x])).
  { induction ds as [|d ds IHd]; intros s Hs [P HP] Hinc Hl; cbn [dfs_loop] in Hl.
    - injection Hl as <- <-. split; [eapply vinv_leave; eauto|].
      split; [exact Hinc|]. split; [reflexivity | discriminate].
    - destruct (negb (mem d (visited s))) eqn:Ev.
      + apply negb_true_iff, mem_notIn in Ev.
        destruct (dfs_cycle_detect gr f d s) as [[s1 [cy|]]|] eqn:Ed; [| |discriminate].
        * injection Hl as <- <-. destruct (IH d s s1 (Some cy) Hs Ev Ed) as [A [B [_ D]]].
          split; [exact A|]. split; [intros x Hx; apply B, Hinc, Hx|].
          split; [discriminate | exact D].
        * destruct (IH d s s1 None Hs Ev Ed) as [A [B [C _]]].
          specialize (C eq_refl).
          destruct (IHd s1 A) as [A' [B' [C' D']]].
          -- exists P. rewrite C. exact HP.
          -- intros x Hx. apply B, Hinc, Hx.
          -- exact Hl.
          -- split; [exact A'|]. split; [exact B'|]. split; [|exact D'].
             intros Hc. rewrite (C' Hc), C. reflexivity.
      + destruct (mem d (rec_stack s)) eqn:Er.
        * injection Hl as <- <-. split; [exact Hs|]. split; [exact Hinc|].
          split; [discriminate|]. intros cy [= <-].
          apply mem_In in Er. apply (proj1 Hs) in Er.
          destruct (skipn_index_of d (path s) Er) as [t Ht]. rewrite Ht.
          exists d, t. reflexivity.
        * apply IHd; eauto. }
  destruct (L (deps_of gr node) _ (vinv_enter st node Hv Hn)) as [A [B [C D]]].
  - simpl. eexists. reflexivity.
  - simpl. intros x Hx. apply In_set_add. auto.
  - exact Hr.
  - split; [exact A|]. split; [exact B|]. split; [|exact D].
    intros Hc. rewrite (C Hc). simpl. apply removelast_last.
Qed.

Definition unv (st : DFSState) : nat :=
  List.length (filter (fun x => negb (mem x (visited st))) (all_nodes gr)).

(** [dfs_fuel] is enough: every recursive call visits a new node. *)
Lemma dfs_fuel_ok : forall fuel node st,
  vinv st -> In node (all_nodes gr) -> ~ In node (visited st) -> S (unv st) <= fuel ->
  dfs_cycle_detect gr fuel node st <> None.
Proof.
  induction fuel as [|f IH]; intros node st Hv Ha Hn Hf; [lia|].
  cbn [dfs_cycle_detect].
  assert (L : forall ds s, incl ds (all_nodes gr) -> vinv s ->
             incl (set_add node (visited st)) (visited s) ->
             dfs_loop (dfs_cycle_detect gr f) node ds s <> None).
  { induction ds as [|d ds IHd]; intros s Hds Hs Hinc; cbn [dfs_loop]; [discriminate|].
    destruct (negb (mem d (visited s))) eqn:Ev.
    - apply negb_true_iff, mem_notIn in Ev.
      assert (Hlt : unv s < unv st).
      { unfold unv. apply (filter_len_strict _ _ _ node).
        - intros x Hx. apply Hinc, In_set_add. auto.
        - exact Ha.
        - exact Hn.
        - apply Hinc, In_set_add. auto. }
      destruct (dfs_cycle_detect gr f d s) as [[s1 [cy|]]|] eqn:Ed.
      + discriminate.
      + destruct (dfs_vinv f d s s1 None Hs Ev Ed) as [A [B _]].
        apply IHd; [intros x Hx; apply Hds; right; exact Hx | exact A |].
        intros x Hx. apply B, Hinc, Hx.
      + exfalso. revert Ed. apply IH; [exact Hs | apply Hds; left; reflexivity | exact Ev | lia].
    - destruct (mem d (rec_stack s)); [discriminate|].
      apply IHd; auto. intros x Hx. apply Hds. right. exact Hx. }
  apply L.
  - intros x Hx. eapply in_deps_all. exact Hx.
  - apply vinv_enter; assumption.
  - intros x Hx. exact Hx.
Qed.

(** Until a cycle is found the search keeps [cinv]; a cycle it finds then
    is a real one. *)
Lemma dfs_clean : forall fuel node st F,
  cinv gr F st -> ~ In node (visited st) ->
  (forall P a, path st = P ++ [a] -> dep_edge gr a node) ->
  forall st' c, dfs_cycle_detect gr fuel node st = Some (st', c) ->
  match c with
  | Some _ => has_cycle gr
  | None => exists F', cinv gr F' st' /\ path st' = path st /\ In node F' /\ incl F F'
  end.
Proof.
  induction fuel as [|f IH]; intros node st F Hc Hn He st' c Hr; [discriminate|].
  cbn [dfs_cycle_detect] in Hr.
  assert (L : forall ds s F1 pre, cinv gr F1 s -> path s = path st ++ [node] ->
             deps_of gr node = pre ++ ds -> incl pre F1 -> ~ In node F1 ->
             dfs_loop (dfs_cycle_detect gr f) node ds s = Some (st', c) ->
             match c with
             | Some _ => has_cycle gr
             | None => exists F', cinv gr F' st' /\ path st' = path st /\ In node F' /\ incl F1 F'
             end).
  { induction ds as [|d ds IHd]; intros s F1 pre Hs HP Hd Hpre HnF Hl; cbn [dfs_loop] in Hl.
    - injection Hl as <- <-.
      destruct Hs as [Hv [Hvis [Hdis [Ht [Hnd Hch]]]]].
      assert (Hnp : ~ In node (path st)).
      { destruct Hv as [_ [H2 _]]. rewrite HP in H2. apply NoDup_remove_2 in H2.
        rewrite app_nil_r in H2. exact H2. }
      exists (node :: F1). simpl. rewrite HP, removelast_last.
      split; [|split; [reflexivity | split; [left; reflexivity | intros x Hx; right; exact Hx]]].
      unfold cinv; simpl. split; [|split; [|split; [|split; [|split]]]].
      + pose proof (vinv_leave s (path st) node Hv HP) as V. simpl in V.
        rewrite HP, removelast_last in V. exact V.
      + intros x. rewrite Hvis, HP, in_app_iff. simpl. intuition.
      + intros x [<-|Hx]; [exact Hnp|]. intros Hp. apply (Hdis x Hx). rewrite HP.
        apply in_app_iff. left. exact Hp.
      + split; [|exact Ht]. intros y Hy. apply Hpre. rewrite Hd, app_nil_r in Hy. exact Hy.
      + constructor; assumption.
      + rewrite HP in Hch. eapply chain_app_l. exact Hch.
    - destruct (negb (mem d (visited s))) eqn:Ev.
      + apply negb_true_iff, mem_notIn in Ev.
        destruct (dfs_cycle_detect gr f d s) as [[s1 c1]|] eqn:Ed; [|discriminate].
        assert (Hed : forall P a, path s = P ++ [a] -> dep_edge gr a d).
        { intros P a HPa. rewrite HP in HPa. apply app_inj_tail in HPa as [_ <-].
          unfold dep_edge. rewrite Hd. apply in_app_iff. right. left. reflexivity. }
        pose proof (IH d s F1 Hs Ev Hed s1 c1 Ed) as R1.
        destruct c1 as [cy|].
        * injection Hl as <- <-. exact R1.
        * destruct R1 as [F2 [Hs1 [Hp1 [Hd2 Hi2]]]].
          assert (R2 := IHd s1 F2 (pre ++ [d]) Hs1 ltac:(rewrite Hp1; exact HP)
                          ltac:(rewrite Hd, <- app_assoc; reflexivity)).
          assert (Hpre2 : incl (pre ++ [d]) F2).
          { intros x Hx. apply in_app_iff in Hx as [Hx|[<-|[]]]; [apply Hi2, Hpre, Hx | exact Hd2]. }
          assert (HnF2 : ~ In node F2).
          { destruct Hs1 as [_ [_ [Hdis2 _]]]. intros HF. apply (Hdis2 node HF).
            rewrite Hp1, HP. apply in_app_iff. right. left. reflexivity. }
          specialize (R2 Hpre2 HnF2 Hl). destruct c as [cy|]; [exact R2|].
          destruct R2 as [F' [A [B [C D]]]]. exists F'. split; [exact A|]. split; [exact B|].
          split; [exact C|]. intros x Hx. apply D, Hi2, Hx.
      + destruct (mem d (rec_stack s)) eqn:Er.
        * injection Hl as <- <-.
          destruct Hs as [[H1 _] [_ [_ [_ [_ Hch]]]]].
          apply mem_In, H1 in Er. rewrite HP in Er, Hch.
          exists d. apply clos_rt_t with node.
          -- exact (chain_reach _ _ _ _ Hch Er).
          -- apply t_step. unfold dep_edge. rewrite Hd. apply in_app_iff. right. left. reflexivity.
        * apply negb_false_iff, mem_In in Ev. apply mem_notIn in Er.
          assert (HdF : In d F1).
          { destruct Hs as [[H1 _] [Hvis _]]. apply Hvis in Ev as [Ev|Ev]; [exact Ev|].
            exfalso. apply Er, H1, Ev. }
          apply (IHd s F1 (pre ++ [d])); auto.
          -- rewrite Hd, <- app_assoc. reflexivity.
          -- intros x Hx. apply in_app_iff in Hx as [Hx|[<-|[]]]; auto. }
  destruct Hc as [Hv [Hvis [Hdis [Ht [Hnd Hch]]]]].
  apply (L _ _ F []) in Hr.
  - exact Hr.
  - unfold cinv; simpl. split; [|split; [|split; [|split; [|split]]]].
    + apply vinv_enter; assumption.
    + intros x. rewrite In_set_add, Hvis, in_app_iff. simpl. intuition.
    + intros x Hx Hp. apply in_app_iff in Hp as [Hp|[<-|[]]].
      * exact (Hdis x Hx Hp).
      * apply Hn, Hvis. left. exact Hx.
    + exact Ht.
    + exact Hnd.
    + apply chain_snoc; assumption.
  - reflexivity.
  - reflexivity.
  - intros x [].
  - intros HF. apply Hn, Hvis. left. exact HF.
Qed.

Lemma detect_from_shape : forall nodes st, vinv st ->
  forall c, In c (detect_from gr nodes st) -> exists x mid, c = x :: mid ++ [x].
Proof.
  induction nodes as [|n ns IH]; intros st Hv c Hc; cbn [detect_from] in Hc; [destruct Hc|].
  destruct (mem n (visited st)) eqn:Em; [eapply IH; eauto|].
  apply mem_notIn in Em.
  destruct (dfs_cycle_detect gr (dfs_fuel gr) n st) as [[st' [cy|]]|] eqn:Ed; [| |destruct Hc].
  - destruct (dfs_vinv _ _ _ _ _ Hv Em Ed) as [A [_ [_ D]]].
    destruct Hc as [<-|Hc]; [apply D; reflexivity | eapply IH; eauto].
  - destruct (dfs_vinv _ _ _ _ _ Hv Em Ed) as [A _]. eapply IH; eauto.
Qed.

Lemma detect_from_clean : forall nodes st F,
  cinv gr F st -> path st = [] -> incl nodes (all_nodes gr) ->
  (detect_from gr nodes st <> [] -> has_cycle gr) /\
  (detect_from gr nodes st = [] ->
     exists F', topo_ok (deps_of gr) F' /\ incl nodes F' /\ incl F F').
Proof.
  induction nodes as [|n ns IH]; intros st F Hc Hp Hi; cbn [detect_from].
  - split; [congruence|]. intros _. exists F.
    split; [apply Hc|]. split; [intros x []|intros x Hx; exact Hx].
  - assert (Hi' : incl ns (all_nodes gr)) by (intros x Hx; apply Hi; right; exact Hx).
    destruct (mem n (visited st)) eqn:Em.
    + destruct (IH st F Hc Hp Hi') as [A B]. split; [exact A|].
      intros He. destruct (B He) as [F' [T [I1 I2]]]. exists F'.
      split; [exact T|]. split; [|exact I2].
      intros x [<-|Hx]; [|apply I1, Hx]. apply I2.
      apply mem_In in Em. destruct Hc as [_ [Hvis _]]. apply Hvis in Em as [Em|Em]; [exact Em|].
      rewrite Hp in Em. destruct Em.
    + apply mem_notIn in Em.
      assert (Hne : dfs_cycle_detect gr (dfs_fuel gr) n st <> None).
      { apply dfs_fuel_ok; [apply Hc | apply Hi; left; reflexivity | exact Em |].
        unfold dfs_fuel, unv. pose proof (filter_length_le (fun x => negb (mem x (visited st))) (all_nodes gr)). lia. }
      assert (He : forall P a, path st = P ++ [a] -> dep_edge gr a n).
      { intros P a H. rewrite Hp in H. destruct P; discriminate. }
      destruct (dfs_cycle_detect gr (dfs_fuel gr) n st) as [[st' [cy|]]|] eqn:Ed; [| |congruence].
      * pose proof (dfs_clean _ _ _ _ Hc Em He _ _ Ed) as R. simpl in R.
        split; [intros _; exact R | discriminate].
      * pose proof (dfs_clean _ _ _ _ Hc Em He _ _ Ed) as R. simpl in R.
        destruct R as [F1 [Hc1 [Hp1 [Hn1 Hs1]]]].
        destruct (IH st' F1 Hc1 ltac:(rewrite Hp1; exact Hp) Hi') as [A B]. split; [exact A|].
        intros Hd. destruct (B Hd) as [F' [T [I1 I2]]]. exists F'.
        split; [exact T|]. split.
        -- intros x [<-|Hx]; [apply I2, Hn1 | apply I1, Hx].
        -- intros x Hx. apply I2, Hs1, Hx.
Qed.

Lemma no_cycle_of_topo F :
  topo_ok (deps_of gr) F -> incl (all_nodes gr) F -> ~ has_cycle gr.
Proof.
  intros Ht Hi [u Hu].
  assert (Hv := Hu). apply clos_trans_first in Hv as [v Hv].
  apply dep_edge_src, Hi in Hv.
  apply (acc_no_cycle (fun y x => In y (deps_of gr x)) u (topo_acc _ _ Ht u Hv)).
  apply clos_trans_flip in Hu. exact Hu.
Qed.

Lemma cinv_init : cinv gr [] (mk_dfs [] [] []).
Proof.
  unfold cinv, vinv; simpl. split; [|split; [|split; [|split; [|split]]]].
  - split; [tauto|]. split; [constructor | intros x []].
  - tauto.
  - intros x [].
  - exact I.
  - constructor.
  - exact I.
Qed.

Lemma detect_cycles_iff : detect_cycles gr <> [] <-> has_cycle gr.
Proof.
  unfold detect_cycles. destruct gr as [|p rest] eqn:Eg.
  - split; [congruence|]. intros [u Hu]. apply clos_trans_first in Hu as [v Hv].
    unfold dep_edge, deps_of in Hv. simpl in Hv. destruct Hv.
  - rewrite <- Eg.
    destruct (detect_from_clean (all_nodes gr) _ [] cinv_init eq_refl (fun x Hx => Hx)) as [A B].
    split; [exact A|]. intros Hcy Hd. destruct (B Hd) as [F' [T [I1 _]]].
    exact (no_cycle_of_topo F' T I1 Hcy).
Qed.

Lemma detect_cycles_shape c :
  In c (detect_cycles gr) -> exists x mid, c = x :: mid ++ [x].
Proof.
  unfold detect_cycles. destruct gr as [|p rest] eqn:Eg; [intros []|].
  rewrite <- Eg. apply detect_from_shape. apply cinv_init.
Qed.

Lemma fold_keeps_cycles {B} (f : ValidationReport -> B -> ValidationReport) :
  (forall r c, cycles (f r c) = cycles r) ->
  forall l r, cycles (fold_left f l r) = cycles r.
Proof. intros Hf l. induction l as [|a l IH]; intros r; simpl; [reflexivity|]. rewrite IH. apply Hf. Qed.

Lemma fold_invalid {B} (f : ValidationReport -> B -> ValidationReport) :
  (forall r c, is_valid (f r c) = false) ->
  forall l r, l <> [] -> is_valid (fold_left f l r) = false.
Proof.
  intros Hf l. induction l as [|a l IH]; intros r Hl; [congruence|]. simpl.
  destruct l as [|b l]; simpl; [apply Hf|]. apply IH. discriminate.
Qed.

Lemma validate_cycles : cycles (validate gr) = detect_cycles gr.
Proof.
  unfold validate. destruct (detect_cycles gr) as [|c cs] eqn:E.
  - destruct (check_missing_refs gr); destruct (check_orphaned_tasks gr); reflexivity.
  - destruct (check_missing_refs gr); simpl; rewrite fold_keeps_cycles; try reflexivity; intros; reflexivity.
Qed.

Lemma validate_valid : is_valid (validate gr) = false <-> detect_cycles gr <> [].
Proof.
  unfold validate. destruct (detect_cycles gr) as [|c cs] eqn:E.
  - split; [|congruence]. destruct (check_missing_refs gr); destruct (check_orphaned_tasks gr); simpl; discriminate.
  - split; [discriminate|]. intros _.
    destruct (check_missing_refs gr); cbn [add_warning set_missing is_valid];
      (apply fold_invalid; [intros; reflexivity | discriminate]).
Qed.

End Graph.
End ValidatorProofs.

(** ** [graphlib]: the sorter built from an edge map *)
Module GraphlibProofs.
Import Graphlib Validator GraphSpec Order GraphlibInv ListFacts.
Local Open Scope Z_scope.

Ltac streq :=
  unfold str_eqb in *;
  repeat match goal with
  | |- context [String.eqb ?a ?b] => destruct (String.eqb_spec a b); subst
  | H : context [String.eqb ?a ?b] |- _ => destruct (String.eqb_spec a b); subst
  end.

Lemma lookup_update x n f (l : list (string * NodeInfo)) :
  lookup x (update_info n f l) = if str_eqb n x then option_map f (lookup x l) else lookup x l.
Proof.
  unfold update_info. induction l as [|[k v] l IH]; simpl.
  - destruct (str_eqb n x); reflexivity.
  - unfold str_eqb in *. destruct (String.eqb_spec n k) as [->|Hnk]; simpl;
      destruct (String.eqb_spec x k) as [->|Hxk]; simpl.
    + rewrite String.eqb_refl. reflexivity.
    + rewrite IH. destruct (String.eqb_spec k x); [congruence | reflexivity].
    + destruct (String.eqb_spec n k); [congruence | reflexivity].
    + rewrite IH. reflexivity.
Qed.

Lemma keys_update n f (l : list (string * NodeInfo)) : keys (update_info n f l) = keys l.
Proof.
  unfold update_info, keys. rewrite map_map. apply map_ext. intros [k v]. simpl.
  destruct (str_eqb n k); reflexivity.
Qed.

Lemma lookup_app {V} x (l1 l2 : list (string * V)) :
  lookup x (l1 ++ l2) = match lookup x l1 with Some v => Some v | None => lookup x l2 end.
Proof.
  induction l1 as [|[k v] l1 IH]; simpl; [reflexivity|].
  destruct (str_eqb x k); [reflexivity | exact IH].
Qed.

Lemma mem_app x l1 l2 : mem x (l1 ++ l2) = mem x l1 || mem x l2.
Proof. unfold mem. apply existsb_app. Qed.

Lemma mem_cons x a l : mem x (a :: l) = str_eqb x a || mem x l.
Proof. reflexivity. Qed.

Lemma rep_ext acc Kp N S Kp' N' S' :
  rep acc Kp N S -> (forall x, Kp x <-> Kp' x) -> (forall x, N x = N' x) ->
  (forall x, S x = S' x) -> rep acc Kp' N' S'.
Proof.
  intros [A [B [C D]]] HK HN HS. split; [exact A|]. split; [intros x; rewrite B; apply HK|].
  split.
  - intros x Hx. rewrite <- HN, <- HS. apply C, Hx.
  - intros x Hx. rewrite <- HN, <- HS. apply D, Hx.
Qed.

Lemma rep_get acc Kp N S n :
  rep acc Kp N S -> rep (get_nodeinfo n acc) (fun x => Kp x \/ x = n) N S.
Proof.
  intros [A [B [C D]]]. unfold get_nodeinfo. destruct (lookup n acc) as [i|] eqn:E.
  - apply lookup_keys in E. split; [exact A|]. split; [|split; [exact C | exact D]].
    intros x. rewrite B. split; [tauto|]. intros [H | ->]; [exact H | apply B, E].
  - apply lookup_None in E. unfold rep, keys in *. rewrite map_app. simpl.
    split; [|split; [|split]].
    + apply NoDup_app; [exact A | repeat constructor; simpl; tauto|].
      intros a Ha [<-|[]]. exact (E Ha).
    + intros x. rewrite in_app_iff, B. simpl. intuition.
    + intros x Hx. rewrite lookup_app. apply in_app_iff in Hx as [Hx|[<-|[]]].
      * rewrite (C x Hx). reflexivity.
      * assert (E' : lookup n acc = None) by (apply lookup_None; exact E).
        rewrite E'. simpl. unfold str_eqb. rewrite String.eqb_refl.
        destruct (D n E) as [-> ->]. reflexivity.
    + intros x Hx. apply D. intros H. apply Hx, in_app_iff. left. exact H.
Qed.

Lemma rep_upd acc Kp N S n f :
  rep acc Kp N S -> In n (keys acc) ->
  rep (update_info n f acc) Kp
    (fun x => if str_eqb x n then npredecessors (f (mk_info (N x) (S x))) else N x)
    (fun x => if str_eqb x n then successors (f (mk_info (N x) (S x))) else S x).
Proof.
  intros [A [B [C D]]] Hn. unfold rep. rewrite keys_update.
  split; [exact A|]. split; [exact B|]. split.
  - intros x Hx. rewrite lookup_update, (C x Hx). simpl. unfold str_eqb.
    destruct (String.eqb_spec n x) as [<-|Hne].
    + rewrite String.eqb_refl. destruct (f (mk_info (N n) (S n))); reflexivity.
    + destruct (String.eqb_spec x n); [congruence | reflexivity].
  - intros x Hx. unfold str_eqb. destruct (String.eqb_spec x n) as [->|]; [contradiction|].
    apply D, Hx.
Qed.

Lemma rep_preds node preds : NoDup preds -> forall acc Kp N S, rep acc Kp N S ->
  rep (fold_left (fun acc pred => update_info pred (add_succ node) (get_nodeinfo pred acc)) preds acc)
      (fun x => Kp x \/ In x preds) N (fun x => S x ++ (if mem x preds then [node] else [])).
Proof.
  induction preds as [|p ps IH]; intros Hnd acc Kp N S Hr; simpl.
  - apply (rep_ext _ _ _ _ _ _ _ Hr); intros x; [tauto | reflexivity | rewrite app_nil_r; reflexivity].
  - inversion Hnd as [|? ? Hp Hps]; subst.
    pose proof (rep_get _ _ _ _ p Hr) as H1.
    assert (Hk : In p (keys (get_nodeinfo p acc))) by (apply (proj1 (proj2 H1)); right; reflexivity).
    pose proof (rep_upd _ _ _ _ p (add_succ node) H1 Hk) as H2.
    apply (IH Hps) in H2.
    apply (rep_ext _ _ _ _ _ _ _ H2); intros x.
    + simpl. intuition.
    + simpl. streq; reflexivity.
    + simpl. unfold str_eqb. destruct (String.eqb_spec x p) as [->|]; simpl.
      * apply mem_notIn in Hp. rewrite Hp. rewrite <- app_assoc. reflexivity.
      * reflexivity.
Qed.

Lemma npsum_app x P q : npsum x (P ++ [q]) =
  (npsum x P + (if str_eqb x (fst q) then List.length (snd q) else 0))%nat.
Proof. unfold npsum. rewrite fold_right_app. induction P as [|p P IH]; simpl in *; lia. Qed.

Lemma sgr_app x P q : sgr x (P ++ [q]) = sgr x P ++ (if mem x (snd q) then [fst q] else []).
Proof. unfold sgr. rewrite flat_map_app. simpl. rewrite app_nil_r. reflexivity. Qed.

Lemma rep_item acc P node preds : NoDup preds ->
  rep acc (fun x => In x (keys P) \/ In x (List.concat (map snd P)))
      (fun x => Z.of_nat (npsum x P)) (fun x => sgr x P) ->
  rep (add_n2i node preds acc)
      (fun x => In x (keys (P ++ [(node, preds)])) \/ In x (List.concat (map snd (P ++ [(node, preds)]))))
      (fun x => Z.of_nat (npsum x (P ++ [(node, preds)]))) (fun x => sgr x (P ++ [(node, preds)])).
Proof.
  intros Hnd Hr. unfold add_n2i.
  pose proof (rep_get _ _ _ _ node Hr) as H1.
  assert (Hk : In node (keys (get_nodeinfo node acc))) by (apply (proj1 (proj2 H1)); right; reflexivity).
  pose proof (rep_upd _ _ _ _ node (add_npred (Z.of_nat (List.length preds))) H1 Hk) as H2.
  pose proof (rep_preds node preds Hnd _ _ _ _ H2) as H3.
  apply (rep_ext _ _ _ _ _ _ _ H3); intros x.
  - unfold keys. rewrite !map_app, concat_app, !in_app_iff. simpl. rewrite app_nil_r.
    split; intros Hx; repeat destruct Hx as [Hx|Hx]; subst; tauto.
  - rewrite npsum_app. simpl. streq; simpl; lia.
  - rewrite sgr_app. simpl. streq; reflexivity.
Qed.

Lemma rep_fold Q : (forall p, In p Q -> NoDup (snd p)) -> forall P acc,
  rep acc (fun x => In x (keys P) \/ In x (List.concat (map snd P)))
      (fun x => Z.of_nat (npsum x P)) (fun x => sgr x P) ->
  rep (fold_left (fun acc item => add_n2i (fst item) (snd item) acc) Q acc)
      (fun x => In x (keys (P ++ Q)) \/ In x (List.concat (map snd (P ++ Q))))
      (fun x => Z.of_nat (npsum x (P ++ Q))) (fun x => sgr x (P ++ Q)).
Proof.
  induction Q as [|[k ds] Q IH]; intros HQ P acc Hr; simpl.
  - rewrite app_nil_r. exact Hr.
  - replace (P ++ (k, ds) :: Q) with ((P ++ [(k, ds)]) ++ Q) by (rewrite <- app_assoc; reflexivity).
    apply IH; [intros p Hp; apply HQ; right; exact Hp|].
    apply rep_item; [apply (HQ (k, ds)); left; reflexivity | exact Hr].
Qed.

Lemma npsum_notin x P : ~ In x (keys P) -> npsum x P = 0%nat.
Proof.
  induction P as [|[k ds] P IH]; simpl; [reflexivity|]. intros Hx.
  streq; [exfalso; apply Hx; left; reflexivity|]. apply IH. intros H. apply Hx. right. exact H.
Qed.

Lemma npsum_deps gr x : NoDup (keys gr) -> npsum x gr = List.length (deps_of gr x).
Proof.
  unfold deps_of. induction gr as [|[k ds] gr IH]; simpl; [reflexivity|]. intros Hn.
  inversion Hn as [|? ? Hk Hg]; subst.
  streq.
  - rewrite npsum_notin; [lia | exact Hk].
  - apply IH, Hg.
Qed.

Lemma sgr_keys x y P : In y (sgr x P) -> In y (keys P).
Proof.
  unfold sgr. rewrite in_flat_map. intros [p [Hp Hy]].
  destruct (mem x (snd p)); [|destruct Hy]. destruct Hy as [<-|[]].
  apply in_map. exact Hp.
Qed.

Lemma sgr_edge gr x y : wf_graph gr -> In y (sgr x gr) <-> dep_edge gr y x.
Proof.
  intros [Hk _]. unfold sgr, dep_edge, deps_of. rewrite in_flat_map. split.
  - intros [[k ds] [Hp Hy]]. simpl in Hy. destruct (mem x ds) eqn:E; [|destruct Hy].
    destruct Hy as [<-|[]]. rewrite (In_lookup _ _ _ Hk Hp). apply mem_In, E.
  - destruct (lookup y gr) as [ds|] eqn:E; [|intros []]. intros Hx.
    exists (y, ds). split; [apply lookup_In, E|]. simpl. apply mem_In in Hx. rewrite Hx. left. reflexivity.
Qed.

Lemma sgr_NoDup gr x : NoDup (keys gr) -> NoDup (sgr x gr).
Proof.
  induction gr as [|[k ds] gr IH]; simpl; [constructor|]. intros Hn.
  inversion Hn as [|? ? Hk Hg]; subst. fold (sgr x gr).
  destruct (mem x ds); simpl; [|apply IH, Hg].
  constructor; [|apply IH, Hg]. intros H. apply Hk. eapply sgr_keys. exact H.
Qed.

(** What [TopologicalSorter(graph)] records for an edge map. *)
Lemma new_sorter_rep gr : wf_graph gr ->
  rep (node2info (new_sorter gr)) (fun x => In x (all_nodes gr))
      (fun x => Z.of_nat (List.length (deps_of gr x))) (fun x => sgr x gr).
Proof.
  intros [Hk Hd]. unfold new_sorter. simpl.
  assert (H0 : rep [] (fun x => In x (keys ([] : list (string * list string))) \/
                                In x (List.concat (map snd ([] : list (string * list string)))))
                 (fun x => Z.of_nat (npsum x [])) (fun x => sgr x [])).
  { split; [constructor|]. split; [simpl; tauto|]. split; [intros x []|]. intros x _. split; reflexivity. }
  pose proof (rep_fold gr (fun p Hp => Hd (fst p) (snd p) ltac:(destruct p; exact Hp)) [] [] H0) as R.
  simpl in R. apply (rep_ext _ _ _ _ _ _ _ R); intros x.
  - unfold all_nodes. rewrite In_dedup, in_app_iff. tauto.
  - rewrite npsum_deps; [reflexivity | exact Hk].
  - reflexivity.
Qed.

End GraphlibProofs.

(** ** [graphlib._find_cycle]: a search without a cycle orders the nodes *)
Module FindCycleProofs.
Import Graphlib Validator Order GraphlibInv ListFacts.

Lemma frok_mono n2i fr : forall F F1 a b, incl F F1 ->
  (forall y, Some y = a -> In y F1 \/ Some y = b) ->
  frok n2i F a fr -> frok n2i F1 b fr.
Proof.
  induction fr as [|[s it] fr IH]; simpl; [tauto|].
  intros F F1 a b Hinc Hab [[pre [Hs Hpre]] Hr]. split.
  - exists pre. split; [exact Hs|]. intros y Hy.
    destruct (Hpre y Hy) as [H|H]; [left; apply Hinc, H | apply Hab, H].
  - apply (IH F F1 (Some s) (Some s)); auto.
Qed.

Lemma dict_del_keys {V} k (d : list (string * V)) : NoDup (keys d) ->
  NoDup (keys (dict_del k d)) /\ (forall x, In x (keys (dict_del k d)) <-> In x (keys d) /\ x <> k).
Proof.
  induction d as [|[k' v] d IH]; simpl; intros Hn; [split; [constructor | tauto]|].
  inversion Hn as [|? ? Hk Hd]; subst. destruct (IH Hd) as [A B].
  destruct (str_eqb k k') eqn:E.
  - apply str_eqb_true in E. subst. split; [exact Hd|].
    intros x. split; [intros Hx; split; [right; exact Hx | intros ->; exact (Hk Hx)]|].
    intros [[->|Hx] Hne]; [congruence | exact Hx].
  - apply str_eqb_false in E. simpl. split.
    + constructor; [|exact A]. rewrite B. tauto.
    + intros x. rewrite B. split; [intros [->|[Hx Hne]]; [split; auto | auto]|].
      intros [[->|Hx] Hne]; [left; reflexivity | right; auto].
Qed.

Lemma backtrack_ok n2i : forall frames n2s F seen,
  fc_inv n2i F (mk_fc frames seen n2s) -> frok n2i F None frames ->
  match backtrack frames n2s with
  | (Some x, frames', n2s') =>
      exists F', fc_inv n2i F' (mk_fc frames' seen n2s') /\ frok n2i F' (Some x) frames' /\ incl F F'
  | (None, frames', n2s') =>
      frames' = [] /\ exists F', fc_inv n2i F' (mk_fc [] seen n2s') /\ incl F F'
  end.
Proof.
  induction frames as [|[s it] frames IH]; intros n2s F seen Hi Hf; simpl.
  - split; [reflexivity|]. exists F. split; [exact Hi | intros y H; exact H].
  - destruct it as [|x it].
    + destruct Hi as [I1 [I2 [I3 [I4 [I5 [I6 I7]]]]]]. simpl in *.
      destruct Hf as [[pre [Hs Hpre]] Hf]. rewrite app_nil_r in Hs.
      inversion I2 as [|? ? Hsf Hfr]; subst.
      destruct (dict_del_keys s n2s I4) as [D1 D2].
      assert (H1 : fc_inv n2i (s :: F) (mk_fc frames seen (dict_del s n2s))).
      { unfold fc_inv; simpl. split; [|split; [|split; [|split; [|split; [|split]]]]].
        - intros x. rewrite I1. simpl. tauto.
        - exact Hfr.
        - intros x [<-|Hx]; [exact Hsf|]. intros H. apply (I3 x Hx). right. exact H.
        - exact D1.
        - intros x. rewrite D2, I5. simpl. split; [intros [[->|H] Hne]; [congruence | exact H]|].
          intros H. split; [right; exact H | intros ->; exact (Hsf H)].
        - split; [|exact I6]. intros y Hy. destruct (Hpre y Hy) as [H|H]; [exact H | discriminate].
        - constructor; [|exact I7]. intros H. apply (I3 s H). left. reflexivity. }
      assert (H2 : frok n2i (s :: F) None frames).
      { apply (frok_mono n2i frames F (s :: F) (Some s) None); [intros y Hy; right; exact Hy| |exact Hf].
        intros y [= ->]. left. left. reflexivity. }
      pose proof (IH (dict_del s n2s) (s :: F) seen H1 H2) as R.
      destruct (backtrack frames (dict_del s n2s)) as [[[y|] fr'] n2s'].
      * destruct R as [F' [A [B C]]]. exists F'. split; [exact A|]. split; [exact B|].
        intros z Hz. apply C. right. exact Hz.
      * destruct R as [E [F' [A C]]]. split; [exact E|]. exists F'. split; [exact A|].
        intros z Hz. apply C. right. exact Hz.
    + exists F. split; [exact Hi|]. split; [|intros y H; exact H].
      destruct Hf as [[pre [Hs Hpre]] Hf]. split; [|exact Hf].
      exists (pre ++ [x]). split; [rewrite Hs, <- app_assoc; reflexivity|].
      intros y Hy. apply in_app_iff in Hy as [Hy|[<-|[]]].
      * destruct (Hpre y Hy) as [H|H]; [left; exact H | discriminate].
      * right. reflexivity.
Qed.

Lemma walk_ok n2i : forall fuel node st F st',
  fc_inv n2i F st -> frok n2i F (Some node) (fc_frames st) ->
  fc_walk n2i fuel node st = WalkDone st' ->
  exists F', fc_inv n2i F' st' /\ fc_frames st' = [] /\
             incl (fc_seen st) (fc_seen st') /\ In node (fc_seen st').
Proof.
  induction fuel as [|fuel IH]; intros node st F st' Hi Hf Hw; [discriminate|].
  cbn [fc_walk] in Hw.
  assert (Tail : forall st1, fc_inv n2i F st1 -> frok n2i F None (fc_frames st1) ->
            In node (fc_seen st1) -> incl (fc_seen st) (fc_seen st1) ->
            match backtrack (fc_frames st1) (fc_node2stacki st1) with
            | (Some node', frames, n2s) => fc_walk n2i fuel node' (mk_fc frames (fc_seen st1) n2s)
            | (None, frames, n2s) => WalkDone (mk_fc frames (fc_seen st1) n2s)
            end = WalkDone st' ->
            exists F', fc_inv n2i F' st' /\ fc_frames st' = [] /\
                       incl (fc_seen st) (fc_seen st') /\ In node (fc_seen st')).
  { intros [fr seen n2s] H1 H2 H3 H4 Hw1. simpl in *.
    pose proof (backtrack_ok n2i fr n2s F seen H1 H2) as B.
    destruct (backtrack fr n2s) as [[[x|] fr'] n2s'].
    - destruct B as [F1 [B1 [B2 _]]].
      destruct (IH x _ F1 st' B1 B2 Hw1) as [F' [A [Bq [C D]]]]. simpl in C.
      exists F'. split; [exact A|]. split; [exact Bq|].
      split; [intros y Hy; apply C, H4, Hy | apply C, H3].
    - destruct B as [-> [F1 [B1 _]]]. injection Hw1 as <-. exists F1. simpl.
      split; [exact B1|]. split; [reflexivity|]. split; [exact H4 | exact H3]. }
  pose proof Hi as Hi0. destruct Hi as [I1 [I2 [I3 [I4 [I5 [I6 I7]]]]]].
  destruct (mem node (fc_seen st)) eqn:Em.
  - destruct (lookup node (fc_node2stacki st)) as [i|] eqn:El; [discriminate|].
    apply (Tail st).
    + exact Hi0.
    + apply (frok_mono n2i _ F F (Some node) None); [intros y H; exact H| |exact Hf].
      intros y [= ->]. left. apply mem_In, I1 in Em as [Em|Em]; [exact Em|].
      exfalso. apply lookup_None in El. apply El, I5, Em.
    + apply mem_In, Em.
    + intros y H; exact H.
    + exact Hw.
  - apply mem_notIn in Em.
    apply (Tail (mk_fc ((node, succs_of n2i node) :: fc_frames st) (set_add node (fc_seen st))
                       (fc_node2stacki st ++ [(node, List.length (fc_frames st))]))).
    + unfold fc_inv; simpl. split; [|split; [|split; [|split; [|split; [|split]]]]].
      * intros x. rewrite In_set_add, I1. tauto.
      * constructor; [|exact I2]. intros H. apply Em, I1. right. exact H.
      * intros x Hx [<-|H]; [apply Em, I1; left; exact Hx | exact (I3 x Hx H)].
      * unfold keys. rewrite map_app. simpl. apply NoDup_app; [exact I4 | repeat constructor; simpl; tauto|].
        intros a Ha [<-|[]]. apply Em, I1. right. apply I5, Ha.
      * intros x. unfold keys. rewrite map_app, in_app_iff. simpl. fold (keys (fc_node2stacki st)).
        rewrite I5. tauto.
      * exact I6.
      * exact I7.
    + simpl. split; [|exact Hf]. exists []. split; [reflexivity | intros y []].
    + simpl. apply In_set_add. right. reflexivity.
    + simpl. intros y Hy. apply In_set_add. left. exact Hy.
    + exact Hw.
Qed.

Lemma roots_ok n2i fuel : forall roots st F,
  fc_inv n2i F st -> fc_frames st = [] -> fc_roots n2i fuel roots st = Some None ->
  exists F', topo_ok (succs_of n2i) F' /\ NoDup F' /\ incl roots F' /\ incl (fc_seen st) F'.
Proof.
  induction roots as [|r rs IH]; intros st F Hi Hfr Hr; simpl in Hr.
  - exists F. destruct Hi as [I1 [_ [_ [_ [_ [I6 I7]]]]]]. split; [exact I6|]. split; [exact I7|].
    split; [intros x []|]. intros x Hx. apply I1 in Hx as [Hx|Hx]; [exact Hx|]. rewrite Hfr in Hx. destruct Hx.
  - destruct (mem r (fc_seen st)) eqn:Em.
    + destruct (IH st F Hi Hfr Hr) as [F' [A [B [C D]]]]. exists F'.
      split; [exact A|]. split; [exact B|]. split; [|exact D].
      intros x [<-|Hx]; [apply D, mem_In, Em | apply C, Hx].
    + destruct (fc_walk n2i fuel r st) as [c|st1|] eqn:Ew; [discriminate| |discriminate].
      assert (Hf0 : frok n2i F (Some r) (fc_frames st)) by (rewrite Hfr; exact I).
      destruct (walk_ok n2i fuel r st F st1 Hi Hf0 Ew) as [F1 [A [B [C D]]]].
      destruct (IH st1 F1 A B Hr) as [F' [A' [B' [C' D']]]]. exists F'.
      split; [exact A'|]. split; [exact B'|]. split.
      * intros x [<-|Hx]; [apply D', D | apply C', Hx].
      * intros x Hx. apply D', C, Hx.
Qed.

(** A [_find_cycle] that finds nothing has ordered every node after its
    successors. *)
Lemma find_cycle_none n2i : find_cycle n2i = None ->
  exists F, topo_ok (succs_of n2i) F /\ NoDup F /\ incl (keys n2i) F.
Proof.
  unfold find_cycle. destruct (fc_roots n2i (fc_fuel n2i) (keys n2i) (mk_fc [] [] [])) as [r|] eqn:E;
    [|discriminate].
  intros ->.
  assert (H0 : fc_inv n2i [] (mk_fc [] [] [])).
  { unfold fc_inv; simpl. split; [tauto|]. split; [constructor|]. split; [intros x []|].
    split; [constructor|]. split; [tauto|]. split; [exact I | constructor]. }
  destruct (roots_ok n2i _ _ _ _ H0 eq_refl E) as [F [A [B [C _]]]]. exists F. auto.
Qed.

Lemma topo_index succ F : topo_ok succ F -> NoDup F -> forall d x, In d F -> In x (succ d) ->
  In x F /\ index_of d F < index_of x F.
Proof.
  induction F as [|a F IH]; simpl; [tauto|]. intros [Hs Ht] Hnd d x Hd Hx.
  inversion Hnd as [|? ? Ha HF]; subst.
  destruct Hd as [<-|Hd].
  - assert (HxF := Hs x Hx). split; [right; exact HxF|].
    unfold str_eqb. rewrite String.eqb_refl.
    destruct (String.eqb_spec x a) as [->|]; [contradiction | lia].
  - destruct (IH Ht HF d x Hd Hx) as [HxF Hlt]. split; [right; exact HxF|].
    unfold str_eqb. destruct (String.eqb_spec d a) as [->|]; [contradiction|].
    destruct (String.eqb_spec x a) as [->|]; [contradiction | lia].
Qed.

Lemma topo_ind succ F (P : string -> Prop) : topo_ok succ F -> NoDup F ->
  (forall x, In x F -> (forall d, In d F -> In x (succ d) -> P d) -> P x) ->
  forall x, In x F -> P x.
Proof.
  intros Ht Hn Hstep.
  assert (G : forall n x, index_of x F = n -> In x F -> P x).
  { intros n. induction n as [n IHn] using lt_wf_ind. intros x Hi Hx.
    apply Hstep; [exact Hx|]. intros d Hd Hxd.
    destruct (topo_index succ F Ht Hn d x Hd Hxd) as [_ Hlt].
    apply (IHn (index_of d F)); [lia | reflexivity | exact Hd]. }
  intros x Hx. exact (G _ x eq_refl Hx).
Qed.

End FindCycleProofs.

(** ** [graphlib]: [prepare], [get_ready] and [done] keep the sorter's
    bookkeeping *)
Module KahnProofs.
Import Graphlib Validator GraphSpec Order GraphlibInv ListFacts GraphlibProofs FindCycleProofs.


Lemma cnt_step (l M : list string) x : NoDup l -> In x l -> ~ In x M ->
  List.length (filter (fun d => negb (mem d M)) l) = S (List.length (filter (fun d => negb (mem d (M ++ [x]))) l)).
Proof.
  induction l as [|a l IH]; simpl; [tauto|]. intros Hn Hx HM.
  inversion Hn as [|? ? Ha Hl]; subst. rewrite mem_app. simpl. unfold str_eqb.
  destruct Hx as [<-|Hx].
  - apply mem_notIn in HM. rewrite HM, String.eqb_refl. simpl. f_equal.
    apply f_equal. apply filter_ext_in. intros b Hb. rewrite mem_app. simpl. unfold str_eqb.
    destruct (String.eqb_spec b a) as [->|]; [contradiction|]. rewrite orb_false_r. reflexivity.
  - destruct (String.eqb_spec a x) as [->|]; [contradiction|].
    rewrite orb_false_r. destruct (mem a M); simpl; [|f_equal]; apply IH; auto.
Qed.

Lemma cnt_same (l M : list string) x : ~ In x l ->
  filter (fun d => negb (mem d (M ++ [x]))) l = filter (fun d => negb (mem d M)) l.
Proof.
  intros Hx. apply filter_ext_in. intros b Hb. rewrite mem_app. simpl. unfold str_eqb.
  destruct (String.eqb_spec b x) as [->|]; [contradiction|]. rewrite orb_false_r. reflexivity.
Qed.

Lemma cnt_zero (l M : list string) : List.length (filter (fun d => negb (mem d M)) l) = 0%nat <-> incl l M.
Proof.
  induction l as [|a l IH]; simpl.
  - split; [intros _ x []|reflexivity].
  - destruct (mem a M) eqn:E; simpl.
    + rewrite IH. apply mem_In in E. split.
      * intros H y [<-|Hy]; [exact E | apply H, Hy].
      * intros H y Hy. apply H. right. exact Hy.
    + split; [discriminate|]. intros H. exfalso. apply mem_notIn in E. apply E, H. left. reflexivity.
Qed.

Lemma not_incl (l M : list string) : ~ incl l M -> exists d, In d l /\ ~ In d M.
Proof.
  induction l as [|a l IH]; intros H.
  - exfalso. apply H. intros x [].
  - destruct (in_dec string_dec a M) as [Ha|Ha].
    + destruct IH as [d [Hd HdM]].
      * intros Hi. apply H. intros y [<-|Hy]; [exact Ha | apply Hi, Hy].
      * exists d. split; [right; exact Hd | exact HdM].
    + exists a. split; [left; reflexivity | exact Ha].
Qed.

Lemma NoDup_map_fst_filter {V} (f : string * V -> bool) (l : list (string * V)) :
  NoDup (map fst l) -> NoDup (map fst (filter f l)).
Proof.
  induction l as [|a l IH]; simpl; [constructor|]. intros Hn. inversion Hn as [|? ? Ha Hl]; subst.
  destruct (f a); simpl; [|apply IH, Hl]. constructor; [|apply IH, Hl].
  intros H. apply Ha. apply in_map_iff in H as [b [Hb Hin]]. apply filter_In in Hin as [Hin _].
  rewrite <- Hb. apply in_map. exact Hin.
Qed.

Lemma fold_set_keys k R : forall (m : list (string * NodeInfo)),
  keys (fold_left (fun acc n => update_info n (set_npred k) acc) R m) = keys m.
Proof.
  induction R as [|r R IH]; intros m; simpl; [reflexivity|]. rewrite IH. apply keys_update.
Qed.

Lemma fold_set_lookup k R : forall (m : list (string * NodeInfo)) x,
  lookup x (fold_left (fun acc n => update_info n (set_npred k) acc) R m) =
  if mem x R then option_map (set_npred k) (lookup x m) else lookup x m.
Proof.
  induction R as [|r R IH]; intros m x; cbn [fold_left]; [reflexivity|].
  rewrite IH, lookup_update, mem_cons. unfold str_eqb.
  destruct (String.eqb_spec r x) as [->|Hne].
  - rewrite String.eqb_refl. simpl. destruct (mem x R); [|reflexivity].
    destruct (lookup x m); reflexivity.
  - destruct (String.eqb_spec x r); [congruence|]. reflexivity.
Qed.

Lemma deps_NoDup gr : wf_graph gr -> forall x, NoDup (deps_of gr x).
Proof.
  intros [_ Hd] x. unfold deps_of. destruct (lookup x gr) as [ds|] eqn:E; [|constructor].
  apply (Hd x ds), lookup_In, E.
Qed.

Lemma filter_notin_nil (l : list string) : filter (fun d => negb (mem d [])) l = l.
Proof. induction l as [|a l IH]; [reflexivity|]. cbn [filter]. rewrite IH. reflexivity. Qed.

Lemma prepare_new_sorter gr :
  fst (prepare (new_sorter gr)) =
  mk_sorter (node2info (new_sorter gr))
    (Some (map fst (filter (fun p => (npredecessors (snd p) =? 0)%Z) (node2info (new_sorter gr))))) 0 0.
Proof. unfold prepare. simpl. destruct (find_cycle _); reflexivity. Qed.

(** [prepare()] on [TopologicalSorter(graph)]: nothing handed out yet. *)
Lemma prepare_KI gr : wf_graph gr -> KI gr (fst (prepare (new_sorter gr))) [] [].
Proof.
  intros Hwf. rewrite prepare_new_sorter.
  destruct (new_sorter_rep gr Hwf) as [A [B [C D]]].
  set (n2i0 := node2info (new_sorter gr)) in *.
  unfold KI. cbn [node2info ready_nodes npassedout nfinished]. repeat match goal with |- _ /\ _ => split end.
  - apply deps_NoDup, Hwf.
  - exact A.
  - exact B.
  - intros x i Hl. pose proof (lookup_keys _ _ _ Hl) as Hk. rewrite (C x Hk) in Hl.
    injection Hl as <-. simpl. split; [intros y; apply sgr_edge, Hwf|].
    split; [apply sgr_NoDup, Hwf|]. unfold notdone_count. rewrite filter_notin_nil. reflexivity.
  - eexists. split; [reflexivity|]. split; [apply NoDup_map_fst_filter, A|].
    intros x. rewrite in_map_iff. split.
    + intros [[k i] [Hk Hin]]. simpl in Hk. subst k. apply filter_In in Hin as [Hin Hz].
      pose proof (In_lookup _ _ _ A Hin) as Hl. pose proof (lookup_keys _ _ _ Hl) as Hkx.
      rewrite (C x Hkx) in Hl. injection Hl as <-. simpl in Hz. apply Z.eqb_eq in Hz.
      split; [apply B, Hkx|]. split; [intros []|].
      destruct (deps_of gr x) as [|d l]; [intros y []|]. simpl in Hz. lia.
    + intros [Ha [_ Hi]]. apply B in Ha.
      exists (x, mk_info (Z.of_nat (List.length (deps_of gr x))) (sgr x gr)). split; [reflexivity|].
      apply filter_In. split; [apply lookup_In, C, Ha|]. simpl.
      apply incl_l_nil in Hi. rewrite Hi. reflexivity.
  - constructor.
  - constructor.
  - intros x [].
  - intros x [].
  - intros x d [].
  - reflexivity.
  - reflexivity.
Qed.

(** [get_ready()] hands out the ready list. *)
Lemma get_ready_KI gr s H M R : KI gr s H M -> ready_nodes s = Some R ->
  exists s', get_ready s = (s', Ok R) /\ KI gr s' (H ++ R) M.
Proof.
  intros [K0 [K1 [K2 [K3 [[R0 [KR1 [KR2 KR3]]] [K5 [K6 [K7 [K8 [K9 [K10 K11]]]]]]]]]]] HR.
  rewrite HR in KR1. injection KR1 as <-.
  unfold get_ready. rewrite HR. eexists. split; [reflexivity|].
  unfold KI; simpl. repeat match goal with |- _ /\ _ => split end.
  - exact K0.
  - rewrite fold_set_keys. exact K1.
  - intros x. rewrite fold_set_keys. apply K2.
  - intros x i Hl. rewrite fold_set_lookup in Hl. destruct (mem x R) eqn:ER.
    + destruct (lookup x (node2info s)) as [i0|] eqn:E0; [|discriminate]. simpl in Hl.
      injection Hl as <-. destruct (K3 x i0 E0) as [S1 [S2 _]]. simpl.
      split; [exact S1|]. split; [exact S2|].
      pose proof ER as ER'. apply mem_In, KR3 in ER' as [_ [HnH _]].
      assert (HnM : mem x M = false) by (apply mem_notIn; intros Hm; apply HnH, K7, Hm).
      rewrite HnM, mem_app. apply mem_notIn in HnH. rewrite HnH, ER. reflexivity.
    + destruct (K3 x i Hl) as [S1 [S2 S3]]. split; [exact S1|]. split; [exact S2|].
      rewrite S3, mem_app, ER, orb_false_r. reflexivity.
  - exists []. split; [reflexivity|]. split; [constructor|]. intros x. split; [intros []|].
    intros [Ha [Hn Hi]]. apply Hn, in_app_iff. right. apply KR3.
    split; [exact Ha|]. split; [intros Hh; apply Hn, in_app_iff; left; exact Hh | exact Hi].
  - apply NoDup_app; [exact K5 | exact KR2|]. intros a Ha Hr. apply KR3 in Hr as [_ [Hr _]]. exact (Hr Ha).
  - exact K6.
  - intros x Hx. apply in_app_iff. left. apply K7, Hx.
  - intros x Hx. apply in_app_iff in Hx as [Hx|Hx]; [apply K8, Hx | apply KR3, Hx].
  - intros x d Hx Hd. apply in_app_iff in Hx as [Hx|Hx]; [exact (K9 x d Hx Hd)|].
    apply KR3 in Hx as [_ [_ Hi]]. apply Hi, Hd.
  - rewrite length_app, K10. reflexivity.
  - exact K11.
Qed.

Lemma release_spec L : NoDup L -> forall m rd,
  exists m', release_successors L (m, rd) =
    (m', rd ++ filter (fun y => match lookup y m with
                                | Some i => (npredecessors (add_npred (-1) i) =? 0)%Z
                                | None => false end) L) /\
    keys m' = keys m /\
    forall y, lookup y m' = if mem y L then option_map (add_npred (-1)) (lookup y m) else lookup y m.
Proof.
  unfold release_successors. match goal with |- context [fold_left ?f _ _] => set (step := f) end.
  induction L as [|y0 L IH]; intros Hn m rd.
  - exists m. simpl. rewrite app_nil_r. split; [reflexivity|]. split; reflexivity.
  - inversion Hn as [|? ? Hy0 HL]; subst.
    change (fold_left step (y0 :: L) (m, rd)) with (fold_left step L (step (m, rd) y0)).
    set (m1 := update_info y0 (add_npred (-1)) m).
    assert (Hm1 : forall y, y <> y0 -> lookup y m1 = lookup y m).
    { intros y Hy. unfold m1. rewrite lookup_update. unfold str_eqb.
      destruct (String.eqb_spec y0 y); [congruence | reflexivity]. }
    assert (Hm0 : lookup y0 m1 = option_map (add_npred (-1)) (lookup y0 m)).
    { unfold m1. rewrite lookup_update. unfold str_eqb. rewrite String.eqb_refl. reflexivity. }
    assert (Hf : filter (fun y => match lookup y m1 with
                                  | Some i => (npredecessors (add_npred (-1) i) =? 0)%Z
                                  | None => false end) L =
                 filter (fun y => match lookup y m with
                                  | Some i => (npredecessors (add_npred (-1) i) =? 0)%Z
                                  | None => false end) L).
    { apply filter_ext_in. intros y Hy. rewrite Hm1; [reflexivity|]. intros ->. contradiction. }
    assert (Hlk : forall y, (if mem y L then option_map (add_npred (-1)) (lookup y m1) else lookup y m1) =
                            (if mem y (y0 :: L) then option_map (add_npred (-1)) (lookup y m) else lookup y m)).
    { intros y. rewrite mem_cons. unfold str_eqb at 1.
      destruct (String.eqb_spec y y0) as [->|Hne].
      - apply mem_notIn in Hy0. rewrite Hy0. exact Hm0.
      - simpl. rewrite Hm1 by exact Hne. reflexivity. }
    assert (Hstep : step (m, rd) y0 =
                    (m1, rd ++ match lookup y0 m with
                               | Some i => if (npredecessors (add_npred (-1) i) =? 0)%Z then [y0] else []
                               | None => [] end)).
    { unfold step. cbn beta iota zeta. change (update_info y0 (add_npred (-1)) m) with m1.
      rewrite Hm0. destruct (lookup y0 m) as [i|]; simpl; [|rewrite app_nil_r; reflexivity].
      destruct (npredecessors i + -1 =? 0)%Z; [reflexivity | rewrite app_nil_r; reflexivity]. }
    rewrite Hstep. destruct (IH HL m1 (rd ++ match lookup y0 m with
                               | Some i => if (npredecessors (add_npred (-1) i) =? 0)%Z then [y0] else []
                               | None => [] end)) as [m' [E1 [E2 E3]]].
    exists m'. rewrite E1, Hf. split; [|split; [rewrite E2; apply keys_update | intros y; rewrite E3; apply Hlk]].
    rewrite <- app_assoc. f_equal. simpl.
    destruct (lookup y0 m) as [i|]; [|reflexivity].
    destruct (npredecessors i + -1 =? 0)%Z; reflexivity.
Qed.


(** One valid id of [done(...)]: handed out and not yet done. *)
Lemma done_valid_step gr s H M x rest : KI gr s H M -> In x H -> ~ In x M ->
  exists s1, done_nodes s (x :: rest) = done_nodes s1 rest /\ KI gr s1 H (M ++ [x]).
Proof.
  intros HK Hx HxM.
  destruct HK as [K0 [K1 [K2 [K3 [[R [KR1 [KR2 KR3]]] [K5 [K6 [K7 [K8 [K9 [K10 K11]]]]]]]]]]].
  destruct (lookup x (node2info s)) as [i|] eqn:Ei.
  2:{ exfalso. apply lookup_None in Ei. apply Ei, K2, K8, Hx. }
  destruct (K3 x i Ei) as [S1 [S2 S3]].
  assert (HmM : mem x M = false) by (apply mem_notIn; exact HxM).
  assert (HmH : mem x H = true) by (apply mem_In; exact Hx).
  rewrite HmM, HmH in S3.
  assert (Edone : done_nodes s (x :: rest) =
            let '(n2i2, ready') := release_successors (successors i)
                                     (update_info x (set_npred NODE_DONE) (node2info s), R) in
            done_nodes (mk_sorter n2i2 (Some ready') (npassedout s) (S (nfinished s))) rest).
  { cbn [done_nodes]. rewrite KR1, Ei. cbv zeta. rewrite S3. reflexivity. }
  destruct (release_spec (successors i) S2 (update_info x (set_npred NODE_DONE) (node2info s)) R)
    as [m' [E1 [E2 E3]]].
  rewrite Edone, E1. eexists. split; [reflexivity|].
  assert (Hsucc : forall y, In y (successors i) <-> In x (deps_of gr y)) by (intros y; apply S1).
  assert (HxL : ~ In x (successors i)).
  { intros H1. apply HxM. apply (K9 x x Hx). apply Hsucc, H1. }
  assert (HLH : forall y, In y (successors i) -> ~ In y H).
  { intros y Hy HyH. apply HxM. apply (K9 y x HyH). apply Hsucc, Hy. }
  assert (Hkey : forall y, In y (all_nodes gr) -> exists j, lookup y (node2info s) = Some j).
  { intros y Hy. destruct (lookup y (node2info s)) as [j|] eqn:Ej; [eauto|].
    apply lookup_None in Ej. exfalso. apply Ej, K2, Hy. }
  assert (Hne : forall y, In y (successors i) ->
            lookup y (update_info x (set_npred NODE_DONE) (node2info s)) = lookup y (node2info s)).
  { intros y Hy. rewrite lookup_update. unfold str_eqb.
    destruct (String.eqb_spec x y) as [->|]; [contradiction | reflexivity]. }
  assert (Hall : forall y, In y (successors i) -> In y (all_nodes gr)).
  { intros y Hy. apply (ValidatorProofs.dep_edge_src gr y x). apply S1, Hy. }
  (* the count of a successor: one prerequisite, [x], fewer *)
  assert (Hcnt : forall y j, In y (successors i) -> lookup y (node2info s) = Some j ->
            npredecessors j = Z.of_nat (S (notdone_count gr (M ++ [x]) y))).
  { intros y j Hy Hj. destruct (K3 y j Hj) as [_ [_ T3]].
    assert (HyM : mem y M = false) by (apply mem_notIn; intros Hm; apply (HLH y Hy), K7, Hm).
    assert (HyH : mem y H = false) by (apply mem_notIn, HLH, Hy).
    rewrite HyM, HyH in T3. rewrite T3. unfold notdone_count.
    rewrite (cnt_step (deps_of gr y) M x (K0 y) (proj1 (Hsucc y) Hy) HxM). reflexivity. }
  assert (HmemL : forall y, y <> x -> mem y (M ++ [x]) = mem y M).
  { intros y Hy. rewrite mem_app. simpl. unfold str_eqb.
    destruct (String.eqb_spec y x); [contradiction|]. rewrite orb_false_r. reflexivity. }
  unfold KI. cbn [node2info ready_nodes npassedout nfinished].
  repeat match goal with |- _ /\ _ => split end.
  - exact K0.
  - rewrite E2, keys_update. exact K1.
  - intros y. rewrite E2, keys_update. apply K2.
  - intros y j Hl. rewrite E3 in Hl. destruct (mem y (successors i)) eqn:EL.
    + apply mem_In in EL. rewrite (Hne y EL) in Hl.
      destruct (lookup y (node2info s)) as [j0|] eqn:Ej0; [|discriminate].
      simpl in Hl. injection Hl as <-. destruct (K3 y j0 Ej0) as [T1 [T2 _]].
      simpl. split; [exact T1|]. split; [exact T2|].
      assert (Hyx : y <> x) by (intros ->; contradiction).
      rewrite (HmemL y Hyx).
      assert (HyM : mem y M = false) by (apply mem_notIn; intros Hm; apply (HLH y EL), K7, Hm).
      assert (HyH : mem y H = false) by (apply mem_notIn, HLH, EL).
      rewrite HyM, HyH, (Hcnt y j0 EL Ej0). lia.
    + rewrite lookup_update in Hl. unfold str_eqb in Hl.
      destruct (String.eqb_spec x y) as [<-|Hxy].
      * rewrite Ei in Hl. simpl in Hl. injection Hl as <-. simpl.
        split; [exact S1|]. split; [exact S2|].
        rewrite mem_app. simpl. unfold str_eqb. rewrite String.eqb_refl, orb_true_r. reflexivity.
      * destruct (K3 y j Hl) as [T1 [T2 T3]]. split; [exact T1|]. split; [exact T2|].
        rewrite (HmemL y (not_eq_sym Hxy)).
        destruct (mem y M); [exact T3|]. destruct (mem y H); [exact T3|].
        rewrite T3. unfold notdone_count. rewrite cnt_same; [reflexivity|].
        intros Hd. apply Hsucc, mem_In in Hd. congruence.
  - eexists. split; [reflexivity|]. split.
    + apply NoDup_app; [exact KR2 | apply NoDup_filter, S2|].
      intros y HyR Hy. apply filter_In in Hy as [Hy _]. apply KR3 in HyR as [_ [_ Hinc]].
      apply HxM, Hinc, Hsucc, Hy.
    + intros y. rewrite in_app_iff, filter_In. split.
      * intros [HR|[HL Hf]].
        -- apply KR3 in HR as [Ha [Hn Hinc]]. split; [exact Ha|]. split; [exact Hn|].
           intros d Hd. apply in_app_iff. left. apply Hinc, Hd.
        -- split; [apply Hall, HL|]. split; [apply HLH, HL|].
           rewrite (Hne y HL) in Hf.
           destruct (lookup y (node2info s)) as [j0|] eqn:Ej0; [|discriminate].
           simpl in Hf. rewrite (Hcnt y j0 HL Ej0) in Hf. apply Z.eqb_eq in Hf.
           apply cnt_zero. unfold notdone_count in Hf. lia.
      * intros [Ha [Hn Hinc]]. destruct (in_dec string_dec x (deps_of gr y)) as [Hxd|Hxd].
        -- right. assert (HL : In y (successors i)) by (apply Hsucc, Hxd).
           split; [exact HL|]. rewrite (Hne y HL).
           destruct (Hkey y Ha) as [j0 Ej0]. rewrite Ej0. simpl. rewrite (Hcnt y j0 HL Ej0).
           apply cnt_zero in Hinc. unfold notdone_count. rewrite Hinc. reflexivity.
        -- left. apply KR3. split; [exact Ha|]. split; [exact Hn|].
           intros d Hd. destruct (proj1 (in_app_iff _ _ _) (Hinc d Hd)) as [H1|H1]; [exact H1|].
           destruct H1 as [<-|[]]. contradiction.
  - exact K5.
  - apply NoDup_app; [exact K6 | repeat constructor; simpl; tauto|].
    intros a Ha [<-|[]]. contradiction.
  - intros y Hy. apply in_app_iff in Hy as [Hy|[<-|[]]]; [apply K7, Hy | exact Hx].
  - exact K8.
  - intros y d Hy Hd. apply in_app_iff. left. exact (K9 y d Hy Hd).
  - exact K10.
  - rewrite length_app, K11. simpl. lia.
Qed.

(** An id of [done(...)] that was not handed out, or is done already,
    raises [ValueError] and changes nothing. *)
Lemma done_invalid_head gr s H M y rest : KI gr s H M -> ~ (In y H /\ ~ In y M) ->
  exists m, done_nodes s (y :: rest) = (s, Raise (ValueError m)).
Proof.
  intros [K0 [K1 [K2 [K3 [[R [KR1 _]] _]]]]] Hy.
  cbn [done_nodes]. rewrite KR1.
  destruct (lookup y (node2info s)) as [i|] eqn:Ei; [|eexists; reflexivity].
  destruct (K3 y i Ei) as [_ [_ S3]]. cbv zeta. rewrite S3.
  destruct (mem y M) eqn:EM; [eexists; reflexivity|].
  destruct (mem y H) eqn:EH.
  - exfalso. apply Hy. split; [apply mem_In, EH | apply mem_notIn, EM].
  - assert (A1 : (Z.of_nat (notdone_count gr M y) =? NODE_OUT)%Z = false)
      by (apply Z.eqb_neq; unfold NODE_OUT; lia).
    assert (A2 : (0 <=? Z.of_nat (notdone_count gr M y))%Z = true) by (apply Z.leb_le; lia).
    rewrite A1, A2. eexists; reflexivity.
Qed.

Lemma done_valid_list gr ids : forall s H M, KI gr s H M -> NoDup ids -> incl ids H ->
  (forall y, In y ids -> ~ In y M) ->
  exists s', done_nodes s ids = (s', Ok tt) /\ KI gr s' H (M ++ ids).
Proof.
  induction ids as [|y ids IH]; intros s H M HK Hn Hi HM.
  - exists s. rewrite app_nil_r. split; [reflexivity | exact HK].
  - inversion Hn as [|? ? Hy Hids]; subst.
    destruct (done_valid_step gr s H M y ids HK (Hi y (or_introl eq_refl)) (HM y (or_introl eq_refl)))
      as [s1 [E1 HK1]].
    destruct (IH s1 H (M ++ [y]) HK1 Hids) as [s' [E2 HK2]].
    + intros z Hz. apply Hi. right. exact Hz.
    + intros z Hz Hzm. apply in_app_iff in Hzm as [Hzm|[<-|[]]]; [|contradiction].
      apply (HM z (or_intror Hz)), Hzm.
    + exists s'. rewrite E1, E2. split; [reflexivity|]. rewrite <- app_assoc in HK2. exact HK2.
Qed.

(** [done(...)] accepts the ids one by one while they are valid. *)
Lemma done_ghost gr ids : forall s H M, KI gr s H M ->
  KI gr (fst (done_nodes s ids)) H (Session.ghost_mark H M ids).
Proof.
  induction ids as [|y ids IH]; intros s H M HK; [exact HK|].
  cbn [Session.ghost_mark]. destruct (mem y H && negb (mem y M)) eqn:E.
  - apply andb_true_iff in E as [E1 E2]. apply mem_In in E1. apply negb_true_iff, mem_notIn in E2.
    destruct (done_valid_step gr s H M y ids HK E1 E2) as [s1 [Eq HK1]]. rewrite Eq. apply IH, HK1.
  - destruct (done_invalid_head gr s H M y ids HK) as [m Eq].
    + intros [A B]. apply mem_In in A. apply mem_notIn in B. rewrite A, B in E. discriminate.
    + rewrite Eq. exact HK.
Qed.

Lemma done_invalid gr ids x : forall s H M, KI gr s H M -> In x ids -> ~ (In x H /\ ~ In x M) ->
  exists s' m, done_nodes s ids = (s', Raise (ValueError m)).
Proof.
  induction ids as [|y ids IH]; intros s H M HK Hx Hinv; [destruct Hx|].
  destruct (in_dec string_dec y H) as [HyH|HyH]; [destruct (in_dec string_dec y M) as [HyM|HyM]|].
  - destruct (done_invalid_head gr s H M y ids HK) as [m Eq]; [tauto|]. exists s, m. exact Eq.
  - destruct (done_valid_step gr s H M y ids HK HyH HyM) as [s1 [Eq HK1]]. rewrite Eq.
    apply (IH s1 H (M ++ [y]) HK1).
    + destruct Hx as [<-|Hx]; [exfalso; tauto | exact Hx].
    + intros [A B]. apply Hinv. split; [exact A|]. intros C. apply B, in_app_iff. left. exact C.
  - destruct (done_invalid_head gr s H M y ids HK) as [m Eq]; [tauto|]. exists s, m. exact Eq.
Qed.

(** With everything handed out done and nothing ready, every node of an
    ordered edge map was handed out. *)
Lemma kahn_complete gr s H F succ : KI gr s H H -> ready_nodes s = Some [] ->
  topo_ok succ F -> NoDup F -> incl (all_nodes gr) F ->
  (forall y x, dep_edge gr y x -> In y (succ x)) -> incl (all_nodes gr) H.
Proof.
  intros [_ [_ [_ [_ [[R [KR1 [_ KR3]]] _]]]]] Hr Ht Hn Hi Hs.
  rewrite Hr in KR1. injection KR1 as <-.
  assert (Step : forall z, In z F ->
            (forall d, In d F -> In z (succ d) -> In d (all_nodes gr) -> In d H) ->
            In z (all_nodes gr) -> In z H).
  { intros z Hz IH Hza. destruct (in_dec string_dec z H) as [Hh|Hh]; [exact Hh|exfalso].
    assert (Hni : ~ incl (deps_of gr z) H).
    { intros Hinc. exact (proj2 (KR3 z) (conj Hza (conj Hh Hinc))). }
    destruct (not_incl _ _ Hni) as [d [Hd HdH]]. apply HdH.
    assert (Hda : In d (all_nodes gr)) by (eapply ValidatorProofs.in_deps_all; exact Hd).
    apply IH; [apply Hi, Hda | apply Hs, Hd | exact Hda]. }
  intros x Hx.
  exact (topo_ind succ F (fun x => In x (all_nodes gr) -> In x H) Ht Hn Step x (Hi x Hx) Hx).
Qed.

End KahnProofs.

(** ** [DependencyGraph]: sessions, [build], and draining the graph *)
Module DepGraphProofs.
Import Graphlib DepGraph Validator GraphSpec Order GraphlibInv SessionInv Session
       ListFacts OrderFacts GraphlibProofs FindCycleProofs KahnProofs.

(** *** [d[k] = v] keeps a dict a dict *)

Lemma keys_upsert {V} k (v : V) d x : In x (keys (upsert k v d)) <-> x = k \/ In x (keys d).
Proof.
  unfold keys. induction d as [|[k' v'] d IH]; simpl; [intuition (subst; auto)|].
  unfold str_eqb. destruct (String.eqb_spec k k') as [->|Hne]; simpl; [intuition (subst; auto)|].
  rewrite IH. intuition (subst; auto).
Qed.

Lemma NoDup_keys_upsert {V} k (v : V) d : NoDup (keys d) -> NoDup (keys (upsert k v d)).
Proof.
  induction d as [|[k' v'] d IH]; simpl; intros Hn.
  - repeat constructor. simpl. tauto.
  - inversion Hn as [|? ? Hk Hd]; subst. unfold str_eqb.
    destruct (String.eqb_spec k k') as [->|Hne]; simpl; [constructor; assumption|].
    constructor; [|apply IH, Hd]. intros Hin. apply keys_upsert in Hin as [->|Hin]; auto.
Qed.

Lemma In_upsert {V} k (v : V) d p : In p (upsert k v d) -> p = (k, v) \/ In p d.
Proof.
  induction d as [|[k' v'] d IH]; simpl.
  - intros [<-|[]]. left. reflexivity.
  - unfold str_eqb. destruct (String.eqb_spec k k') as [->|Hne]; simpl.
    + intros [<-|Hp]; [left; reflexivity | right; right; exact Hp].
    + intros [<-|Hp]; [right; left; reflexivity|]. destruct (IH Hp); auto.
Qed.

Lemma wf_upsert gr k ds : wf_graph gr -> wf_graph (upsert k (dedup ds) gr).
Proof.
  intros [Hk Hd]. split; [apply NoDup_keys_upsert, Hk|].
  intros k' ds' Hp. apply In_upsert in Hp as [E|Hp].
  - injection E as -> ->. apply NoDup_dedup.
  - exact (Hd _ _ Hp).
Qed.

(** *** [build] *)

Lemma prepare_fresh_ok s s' : ready_nodes s = None -> prepare s = (s', Ok tt) ->
  find_cycle (node2info s) = None.
Proof.
  intros Hr Hp. unfold prepare in Hp. rewrite Hr in Hp. cbv zeta in Hp.
  destruct (find_cycle (node2info s)); [discriminate | reflexivity].
Qed.

Lemma prepare_fresh_cycle s c : ready_nodes s = None -> find_cycle (node2info s) = Some c ->
  exists s' m, prepare s = (s', Raise (CycleError m)).
Proof.
  intros Hr Hc. unfold prepare. rewrite Hr. cbv zeta. rewrite Hc. eexists; eexists; reflexivity.
Qed.

Lemma sorter_keys gr x : wf_graph gr -> In x (all_nodes gr) ->
  In x (keys (node2info (new_sorter gr))).
Proof. intros Hwf Hx. destruct (new_sorter_rep gr Hwf) as [_ [Hk _]]. apply Hk, Hx. Qed.

(** The successors the sorter records are the dependents. *)
Lemma succ_edge gr y x : wf_graph gr -> dep_edge gr y x ->
  In y (succs_of (node2info (new_sorter gr)) x).
Proof.
  intros Hwf He. destruct (new_sorter_rep gr Hwf) as [_ [Hk [Hl _]]].
  assert (Hx : In x (all_nodes gr)) by exact (ValidatorProofs.in_deps_all gr y x He).
  unfold succs_of. rewrite (Hl x (proj2 (Hk x) Hx)). simpl. apply sgr_edge; assumption.
Qed.

(** [_find_cycle] finds no cycle only on an acyclic edge map. *)
Lemma find_cycle_acyclic gr : wf_graph gr -> find_cycle (node2info (new_sorter gr)) = None ->
  ~ has_cycle gr.
Proof.
  intros Hwf Hf [u Hu]. destruct (find_cycle_none _ Hf) as [F [Ht [Hn Hi]]].
  assert (Hc : clos_trans string (fun y x => In y (succs_of (node2info (new_sorter gr)) x)) u u).
  { assert (Hm : forall a b, clos_trans string (dep_edge gr) a b ->
            clos_trans string (fun y x => In y (succs_of (node2info (new_sorter gr)) x)) a b).
    { intros a b Hab. induction Hab as [a b Hab|a b c _ IH1 _ IH2].
      - apply t_step. exact (succ_edge gr a b Hwf Hab).
      - eapply t_trans; eassumption. }
    exact (Hm u u Hu). }
  assert (HuF : In u F).
  { apply Hi, sorter_keys; [exact Hwf|]. destruct (clos_trans_first _ _ _ Hu) as [v Hv].
    exact (ValidatorProofs.dep_edge_src gr u v Hv). }
  exact (acc_no_cycle _ u (topo_acc _ F Ht u HuF) Hc).
Qed.

Lemma build_shape gr so b :
  graph (fst (build (mk_graph gr so b))) = gr /\
  sorter (fst (build (mk_graph gr so b))) = Some (fst (prepare (new_sorter gr))).
Proof.
  unfold build. cbn [graph]. destruct gr as [|p l].
  - destruct (prepare (new_sorter [])) as [s r]. split; reflexivity.
  - destruct (prepare (new_sorter (p :: l))) as [s r]. destruct r; split; reflexivity.
Qed.

(** A successful [build]: the graph is built, its sorter is a fresh one,
    and the edge map has a topological order. *)
Lemma build_ok gr so b g' : wf_graph gr -> build (mk_graph gr so b) = (g', Ok tt) ->
  graph g' = gr /\ is_built g' = true /\ sorter g' = Some (fst (prepare (new_sorter gr))) /\
  exists F succ, topo_ok succ F /\ NoDup F /\ incl (all_nodes gr) F /\
    (forall y x, dep_edge gr y x -> In y (succ x)).
Proof.
  intros Hwf Hb. unfold build in Hb. cbn [graph] in Hb. destruct gr as [|p l].
  - destruct (prepare (new_sorter [])) as [s r] eqn:Ep. injection Hb as <-.
    cbn [graph is_built sorter].
    split; [reflexivity|]. split; [reflexivity|]. split; [reflexivity|].
    exists [], (fun _ => []). split; [exact I|]. split; [constructor|]. split.
    + intros x Hx. exact Hx.
    + intros y x Hd. exact Hd.
  - destruct (prepare (new_sorter (p :: l))) as [s r] eqn:Ep. destruct r as [u|e]; [|discriminate].
    injection Hb as <-. cbn [graph is_built sorter].
    split; [reflexivity|]. split; [reflexivity|]. split; [reflexivity|].
    assert (Hf : find_cycle (node2info (new_sorter (p :: l))) = None).
    { apply (prepare_fresh_ok _ s); [reflexivity|]. rewrite Ep. destruct u. reflexivity. }
    destruct (find_cycle_none _ Hf) as [F [Ht [Hn Hi]]].
    exists F, (succs_of (node2info (new_sorter (p :: l)))).
    split; [exact Ht|]. split; [exact Hn|]. split.
    + intros x Hx. apply Hi, sorter_keys; assumption.
    + intros y x Hd. apply succ_edge; assumption.
Qed.

Lemma build_cycle gr so b : wf_graph gr -> has_cycle gr ->
  exists g' m, build (mk_graph gr so b) = (g', Raise (CycleDetectedError m)).
Proof.
  intros Hwf Hc. unfold build. cbn [graph]. destruct gr as [|p l].
  - exfalso. destruct Hc as [u Hu]. destruct (clos_trans_first _ _ _ Hu) as [v Hv]. exact Hv.
  - destruct (find_cycle (node2info (new_sorter (p :: l)))) as [c|] eqn:Ef.
    + destruct (prepare_fresh_cycle (new_sorter (p :: l)) c eq_refl Ef) as [s' [m Ep]].
      rewrite Ep. eexists; eexists; reflexivity.
    + exfalso. exact (find_cycle_acyclic _ Hwf Ef Hc).
Qed.

(** *** Every session keeps [sess_inv] *)

Lemma sess_inv_step st o : sess_inv st -> sess_inv (step st o).
Proof.
  destruct st as [[gr so b] [H M]]. intros [Hwf Hs]. cbn [fst snd graph sorter handed marked] in Hwf, Hs.
  destruct o as [t ds| | |ids|b'].
  - cbn [step]. unfold add_task. cbn [is_built graph sorter].
    destruct b; (split; [apply wf_upsert, Hwf|]); cbn [fst snd sorter handed marked].
    + intros s E. discriminate.
    + exact Hs.
  - cbn [step]. destruct (build_shape gr so b) as [E1 E2]. split; cbn [fst snd handed marked].
    + rewrite E1. exact Hwf.
    + intros s Es. rewrite E2 in Es. injection Es as <-. exists gr. apply prepare_KI, Hwf.
  - cbn [step]. destruct (get_ready_tasks (mk_graph gr so b)) as [g' r] eqn:E.
    unfold get_ready_tasks in E. cbn [is_built sorter] in E.
    destruct b; [destruct so as [s|]|].
    + destruct (Hs s eq_refl) as [gr0 HK].
      pose proof HK as (_ & _ & _ & _ & (R & KR1 & _) & _).
      destruct (Graphlib.is_active s) as [act|e] eqn:Ea.
      * destruct act.
        -- destruct (get_ready_KI gr0 s H M R HK KR1) as [s1 [Eg HK1]]. rewrite Eg in E.
           injection E as <- <-. split; [exact Hwf|]. intros s2 E2. cbn in E2.
           injection E2 as <-. exists gr0. exact HK1.
        -- injection E as <- <-. split; [exact Hwf|]. intros s2 E2. cbn in E2.
           injection E2 as <-. exists gr0. cbn [handed marked]. rewrite app_nil_r. exact HK.
      * injection E as <- <-. split; [exact Hwf | exact Hs].
    + injection E as <- <-. split; [exact Hwf|]. intros s2 E2. discriminate.
    + injection E as <- <-. split; [exact Hwf|]. cbn [fst snd handed marked].
      rewrite app_nil_r. exact Hs.
  - cbn [step]. destruct b; [destruct so as [s|]|].
    + destruct (Hs s eq_refl) as [gr0 HK]. destruct ids as [|i0 ids'].
      * split; [exact Hwf|]. exact Hs.
      * unfold mark_completed. cbn [is_built sorter].
        destruct (done_nodes s (i0 :: ids')) as [s' r] eqn:Ed.
        pose proof (done_ghost gr0 (i0 :: ids') s H M HK) as HG. rewrite Ed in HG. cbn [fst] in HG.
        split; [exact Hwf|]. intros s2 E2. cbn in E2. injection E2 as <-. exists gr0. exact HG.
    + split; [exact Hwf|]. intros s2 E2. discriminate.
    + split; [exact Hwf | exact Hs].
  - cbn [step set_built_state fst snd graph sorter]. split; assumption.
Qed.

Lemma run_ops_inv ops : sess_inv (run_ops ops).
Proof.
  unfold run_ops.
  assert (H0 : sess_inv (empty, mk_ghost [] [])).
  { split; [split; [constructor | intros k ds []] | intros s E; discriminate]. }
  revert H0. generalize (empty, mk_ghost [] []).
  induction ops as [|o ops IH]; intros st Hst; [exact Hst|].
  cbn [fold_left]. apply IH, sess_inv_step, Hst.
Qed.

(** *** Draining a built graph *)

Lemma ready_active gr s H R : KI gr s H H -> ready_nodes s = Some R ->
  Graphlib.is_active s = Ok (negb (List.length R =? 0)%nat).
Proof.
  intros (_ & _ & _ & _ & _ & _ & _ & _ & _ & _ & K10 & K11) Hr.
  unfold Graphlib.is_active. rewrite Hr, K10, K11, Nat.ltb_irrefl. reflexivity.
Qed.

(** The client loop from a sorter whose handed-out ids [H] are all
    done: the rounds are new and distinct, each id comes after its
    prerequisites, and with enough rounds every node is handed out. *)
Lemma drain_ok gr fuel : forall s H, KI gr s H H ->
  NoDup (H ++ List.concat (drain fuel (mk_graph gr (Some s) true))) /\
  incl (List.concat (drain fuel (mk_graph gr (Some s) true))) (all_nodes gr) /\
  (forall pre r post, drain fuel (mk_graph gr (Some s) true) = pre ++ r :: post ->
     forall t d, In t r -> dep_edge gr t d -> In d (H ++ List.concat pre)) /\
  ((List.length (all_nodes gr) - List.length H < fuel)%nat ->
   forall F succ, topo_ok succ F -> NoDup F -> incl (all_nodes gr) F ->
   (forall y x, dep_edge gr y x -> In y (succ x)) ->
   incl (all_nodes gr) (H ++ List.concat (drain fuel (mk_graph gr (Some s) true)))).
Proof.
  induction fuel as [|fuel IH]; intros s H HK.
  - cbn [drain List.concat]. rewrite app_nil_r. destruct HK as (_ & _ & _ & _ & _ & K5 & _).
    split; [exact K5|]. split; [intros x []|].
    split; [intros pre r post E; destruct pre; discriminate|]. intros Hf. lia.
  - pose proof HK as (K0 & K1 & K2 & K3 & (R & KR1 & KR2 & KR3) & K5 & K6 & K7 & K8 & K9 & K10 & K11).
    pose proof (ready_active gr s H R HK KR1) as Ea.
    destruct R as [|r0 R'].
    + assert (Eg : get_ready_tasks (mk_graph gr (Some s) true) = (mk_graph gr (Some s) true, Ok [])).
      { unfold get_ready_tasks. cbn [is_built sorter]. rewrite Ea. reflexivity. }
      cbn [drain]. rewrite Eg. cbn [List.concat]. rewrite app_nil_r.
      split; [exact K5|]. split; [intros x []|].
      split; [intros pre r post E; destruct pre; discriminate|].
      intros _ F succ T1 T2 T3 T4. exact (kahn_complete gr s H F succ HK KR1 T1 T2 T3 T4).
    + destruct (get_ready_KI gr s H H (r0 :: R') HK KR1) as [s1 [Eg1 HK1]].
      destruct (done_valid_list gr (r0 :: R') s1 (H ++ r0 :: R') H HK1 KR2) as [s2 [Ed HK2]].
      { intros y Hy. apply in_app_iff. right. exact Hy. }
      { intros y Hy. apply KR3 in Hy. tauto. }
      assert (Eg : get_ready_tasks (mk_graph gr (Some s) true) =
                   (mk_graph gr (Some s1) true, Ok (r0 :: R'))).
      { unfold get_ready_tasks. cbn [is_built sorter]. rewrite Ea, Eg1. reflexivity. }
      assert (Em : mark_completed (mk_graph gr (Some s1) true) (r0 :: R') =
                   (mk_graph gr (Some s2) true, Ok tt)).
      { unfold mark_completed. cbn [is_built sorter]. rewrite Ed. reflexivity. }
      destruct (IH s2 (H ++ r0 :: R') HK2) as (I1 & I2 & I3 & I4).
      cbn [drain]. rewrite Eg. lazy beta iota zeta. rewrite Em. lazy beta iota zeta.
      cbn [List.concat].
      split; [rewrite app_assoc; exact I1|]. split.
      { intros x Hx. apply in_app_iff in Hx as [Hx|Hx]; [apply KR3 in Hx; tauto | apply I2, Hx]. }
      split.
      { intros pre r post E t d Ht Hd. destruct pre as [|p0 pre'].
        - injection E as E1 _. subst r. cbn [List.concat]. rewrite app_nil_r.
          apply KR3 in Ht as (_ & _ & Hinc). apply Hinc, Hd.
        - injection E as E1 E'. subst p0. cbn [List.concat]. rewrite app_assoc.
          exact (I3 pre' r post E' t d Ht Hd). }
      { intros Hf F succ T1 T2 T3 T4. rewrite app_assoc. refine (I4 _ F succ T1 T2 T3 T4).
        destruct HK2 as (_ & _ & _ & _ & _ & N5 & _ & _ & N8 & _).
        pose proof (NoDup_incl_length N5 N8) as Hl.
        rewrite length_app in Hl |- *. cbn [List.length] in Hl |- *. lia. }
Qed.

(** *** The claims on [DependencyGraph] *)

(** Claim C2.  Before [build()], [get_ready_tasks()] returns the empty
    tuple.  For a graph built through the public calls ([add_task], then
    [build()] succeeding), the client loop that calls [get_ready_tasks()]
    and passes the ids to [mark_completed] hands out every task (every
    node of the edge map) exactly once, and hands a task out only in a
    round after those of all its prerequisites, which were all marked
    completed. *)
Theorem get_ready_drain_topological :
  (forall g, is_built g = false -> get_ready_tasks g = (g, Ok [])) /\
  (forall ops g gh g', run_ops ops = (g, gh) -> build g = (g', Ok tt) ->
     NoDup (List.concat (drain (S (List.length (all_nodes (graph g)))) g')) /\
     (forall x, In x (List.concat (drain (S (List.length (all_nodes (graph g)))) g')) <->
                In x (all_nodes (graph g))) /\
     (forall pre r post, drain (S (List.length (all_nodes (graph g)))) g' = pre ++ r :: post ->
        forall t d, In t r -> dep_edge (graph g) t d -> In d (List.concat pre))).
Proof.
  split.
  - intros [gr so b] Hb. cbn [is_built] in Hb. subst b. reflexivity.
  - intros ops g gh g' Hr Hb. pose proof (run_ops_inv ops) as [Hwf _]. rewrite Hr in Hwf.
    cbn [fst] in Hwf. destruct g as [gr so b]. cbn [graph] in *.
    destruct (build_ok gr so b g' Hwf Hb) as (E1 & E2 & E3 & F & succ & T1 & T2 & T3 & T4).
    destruct g' as [gr' so' b']. cbn [graph is_built sorter] in E1, E2, E3. subst gr' b' so'.
    destruct (drain_ok gr (S (List.length (all_nodes gr))) _ [] (prepare_KI gr Hwf))
      as (D1 & D2 & D3 & D4).
    split; [exact D1|]. split.
    + intros x. split; [apply D2|]. intros Hx.
      refine (D4 _ F succ T1 T2 T3 T4 x Hx). cbn [List.length]. lia.
    + intros pre r post E t d Ht Hd. exact (D3 pre r post E t d Ht Hd).
Qed.

Lemma get_ready_drain_topological_witness :
  get_ready_tasks empty = (empty, Ok []) /\
  NoDup (List.concat (drain (S (List.length (all_nodes (graph (fst (run_ops Scenarios.ab_ops))))))
                        (fst (build (fst (run_ops Scenarios.ab_ops)))))).
Proof.
  split.
  - apply (proj1 get_ready_drain_topological). reflexivity.
  - refine (proj1 (proj2 get_ready_drain_topological Scenarios.ab_ops
                     (fst (run_ops Scenarios.ab_ops)) (snd (run_ops Scenarios.ab_ops))
                     (fst (build (fst (run_ops Scenarios.ab_ops)))) _ _)).
    + apply surjective_pairing.
    + vm_compute. reflexivity.
Defined.

(** Claim C6.  On an edge map with the shape [add_task] gives it,
    [build()] raises [CycleDetectedError] whenever the dependencies have a
    cycle (a self-loop, a 2-cycle or a longer one); [validate] reports
    each cycle as a path whose first and last ids are the same; and its
    [is_valid] flag is false exactly when there is a cycle. *)
Theorem build_validate_cycles (g : DependencyGraph) : wf_graph (graph g) ->
  (has_cycle (graph g) -> exists g' m, build g = (g', Raise (CycleDetectedError m))) /\
  (forall c, In c (cycles (validate (graph g))) -> exists x mid, c = x :: mid ++ [x]) /\
  (is_valid (validate (graph g)) = false <-> has_cycle (graph g)).
Proof.
  intros Hwf. split; [|split].
  - intros Hc. destruct g as [gr so b]. exact (build_cycle gr so b Hwf Hc).
  - intros c Hc. rewrite ValidatorProofs.validate_cycles in Hc.
    exact (ValidatorProofs.detect_cycles_shape _ c Hc).
  - rewrite ValidatorProofs.validate_valid. apply ValidatorProofs.detect_cycles_iff.
Qed.

Lemma build_validate_cycles_witness :
  wf_graph (graph Scenarios.cyc_graph) /\
  exists g' m, build Scenarios.cyc_graph = (g', Raise (CycleDetectedError m)).
Proof.
  assert (Hwf : wf_graph (graph Scenarios.cyc_graph)).
  { split.
    - repeat constructor; simpl; intuition discriminate.
    - intros k ds Hk. simpl in Hk. destruct Hk as [E|[E|[]]]; injection E as <- <-;
        repeat constructor; simpl; tauto. }
  split; [exact Hwf|].
  apply (proj1 (build_validate_cycles Scenarios.cyc_graph Hwf)).
  exists "A". apply t_trans with "B"; apply t_step; vm_compute; tauto.
Defined.

(** Claim C10.  In every session, on a built graph, [mark_completed]
    raises [ValueError] when one of the ids was not handed out by
    [get_ready_tasks] since the last [build()]/[rebuild()], or was
    already marked completed since then: this covers unknown ids, ids
    whose prerequisites are not done, ids done already, and ids
    completed before a rebuild. *)
Theorem mark_completed_rejects (ops : list GraphOp) g gh ids x :
  run_ops ops = (g, gh) -> is_built g = true -> In x ids ->
  ~ (In x (handed gh) /\ ~ In x (marked gh)) ->
  exists g' m, mark_completed g ids = (g', Raise (ValueError m)).
Proof.
  intros Hr Hb Hx Hinv. pose proof (run_ops_inv ops) as [_ Hs]. rewrite Hr in Hs.
  cbn [fst snd] in Hs. destruct g as [gr so b]. cbn [is_built] in Hb. subst b.
  destruct so as [s|].
  - destruct (Hs s eq_refl) as [gr0 HK].
    destruct (done_invalid gr0 ids x s _ _ HK Hx Hinv) as [s' [m Ed]].
    unfold mark_completed. cbn [is_built sorter].
    destruct ids as [|i0 ids']; [destruct Hx|]. rewrite Ed. eexists; eexists; reflexivity.
  - eexists; eexists; reflexivity.
Qed.

Lemma mark_completed_rejects_witness :
  exists g' m, mark_completed (fst (run_ops Scenarios.ab_ready_ops)) ["B"] = (g', Raise (ValueError m)).
Proof.
  apply (mark_completed_rejects Scenarios.ab_ready_ops (fst (run_ops Scenarios.ab_ready_ops))
           (snd (run_ops Scenarios.ab_ready_ops)) ["B"] "B").
  - apply surjective_pairing.
  - vm_compute. reflexivity.
  - simpl. tauto.
  - vm_compute. intros [[E|[]] _]. discriminate.
Defined.

End DepGraphProofs.

(** ** The agent pool: construction, statistics and allocation *)
Module PoolExtra.
Import AgentPool PoolInv.

Lemma initialize_pool_ok create : forall n i acc,
  (forall j, (j < n)%nat -> create (i + j)%nat = Ok tt) ->
  initialize_pool create i n acc = Ok (acc ++ map (fun k => mk_agent k IDLE None) (seq i n)).
Proof.
  induction n as [|n IH]; intros i acc Hc; cbn [initialize_pool].
  - rewrite app_nil_r. reflexivity.
  - specialize (Hc O ltac:(lia)) as Hc0. rewrite Nat.add_0_r in Hc0. rewrite Hc0.
    rewrite IH.
    + rewrite <- app_assoc. reflexivity.
    + intros j Hj. replace (S i + j)%nat with (i + S j)%nat by lia. apply Hc. lia.
Qed.

Lemma initialize_pool_raise create : forall n i acc j e,
  (j < n)%nat -> (forall k, (k < j)%nat -> create (i + k)%nat = Ok tt) ->
  create (i + j)%nat = Raise e -> initialize_pool create i n acc = Raise e.
Proof.
  induction n as [|n IH]; intros i acc j e Hj Hk He; [lia|]. cbn [initialize_pool].
  destruct j as [|j].
  - rewrite Nat.add_0_r in He. rewrite He. reflexivity.
  - specialize (Hk O ltac:(lia)) as Hc0. rewrite Nat.add_0_r in Hc0. rewrite Hc0.
    apply (IH (S i) _ j e); [lia| |].
    + intros k Hk'. replace (S i + k)%nat with (i + S k)%nat by lia. apply Hk. lia.
    + replace (S i + j)%nat with (i + S j)%nat by lia. exact He.
Qed.

Lemma initialize_pool_shape create : forall n i acc agents,
  initialize_pool create i n acc = Ok agents ->
  agents = acc ++ map (fun k => mk_agent k IDLE None) (seq i n).
Proof.
  induction n as [|n IH]; intros i acc agents H; cbn [initialize_pool] in H.
  - injection H as <-. rewrite app_nil_r. reflexivity.
  - destruct (create i); [|discriminate]. rewrite (IH _ _ _ H).
    rewrite <- app_assoc. reflexivity.
Qed.

Lemma new_pool_shape max create agents : new_pool max create = Ok agents ->
  (1 <= max <= 10)%Z /\ agents = map (fun k => mk_agent k IDLE None) (seq 0 (Z.to_nat max)).
Proof.
  unfold new_pool, MIN_AGENTS, MAX_AGENTS_LIMIT.
  destruct (1 <=? max)%Z eqn:E1; destruct (max <=? 10)%Z eqn:E2; cbn [andb negb];
    try discriminate.
  intros H. apply Z.leb_le in E1. apply Z.leb_le in E2. split; [lia|].
  exact (initialize_pool_shape create _ _ [] agents H).
Qed.

Lemma count_fresh s n : forall i,
  count_status s (map (fun k => mk_agent k IDLE None) (seq i n)) =
  (if status_eqb IDLE s then n else O).
Proof.
  induction n as [|n IH]; intros i; [destruct s; reflexivity|].
  cbn [seq map]. unfold count_status in *. cbn [filter status].
  destruct s; cbn [status_eqb List.length]; rewrite IH; reflexivity.
Qed.

Lemma count_sum agents :
  (count_status IDLE agents + count_status BUSY agents + count_status FAILED agents)%nat
  = List.length agents.
Proof.
  unfold count_status. induction agents as [|a l IH]; [reflexivity|].
  cbn [filter List.length]. destruct (status a); cbn [status_eqb List.length]; lia.
Qed.

Lemma map_id_put agents b : map id (put_agent agents b) = map id agents.
Proof.
  unfold put_agent. rewrite map_map. apply map_ext. intros c.
  destruct (Nat.eqb (id c) (id b)) eqn:E; [apply Nat.eqb_eq in E; auto | reflexivity].
Qed.

Lemma task_ok_put agents b : Forall task_ok agents -> task_ok b -> Forall task_ok (put_agent agents b).
Proof.
  intros H Hb. unfold put_agent. apply Forall_map.
  eapply Forall_impl; [|exact H]. intros c Hc. destruct (Nat.eqb (id c) (id b)); assumption.
Qed.

Lemma apply_op_task_ok a op a' : apply_op a op = Ok a' -> task_ok a' /\ id a' = id a.
Proof.
  destruct op as [t| |r|]; cbn [apply_op].
  - unfold mark_busy. destruct (negb (status_eqb (status a) IDLE)); [discriminate|].
    intros [= <-]. split; [unfold task_ok; cbn; discriminate | reflexivity].
  - intros [= <-]. split; reflexivity.
  - intros [= <-]. split; reflexivity.
  - unfold reset_agent. destruct (negb (status_eqb (status a) FAILED)); [discriminate|].
    intros [= <-]. split; reflexivity.
Qed.

(** With distinct ids, writing back an agent of the list is a no-op. *)
Lemma put_agent_self agents a :
  NoDup (map id agents) -> In a agents -> put_agent agents a = agents.
Proof.
  induction agents as [|c l IH]; intros Hn Ha; [destruct Ha|].
  cbn [map] in Hn. inversion Hn as [|? ? Hc Hl]; subst.
  unfold put_agent in *. cbn [map]. destruct Ha as [<-|Ha].
  - rewrite Nat.eqb_refl. f_equal.
    rewrite <- (map_id l) at 2. apply map_ext_in. intros d Hd.
    destruct (Nat.eqb (id d) (id c)) eqn:E; [|reflexivity].
    apply Nat.eqb_eq in E. exfalso. apply Hc. rewrite <- E. apply in_map, Hd.
  - rewrite (IH Hl Ha). destruct (Nat.eqb (id c) (id a)) eqn:E; [|reflexivity].
    apply Nat.eqb_eq in E. exfalso. apply Hc. rewrite E. apply in_map, Ha.
Qed.

Lemma count_put s agents a b :
  NoDup (map id agents) -> In a agents -> id b = id a ->
  (count_status s (put_agent agents b) + (if status_eqb (status a) s then 1 else 0))%nat =
  (count_status s agents + (if status_eqb (status b) s then 1 else 0))%nat.
Proof.
  unfold count_status, put_agent. induction agents as [|c l IH]; intros Hn Ha Hb; [destruct Ha|].
  cbn [map] in Hn. inversion Hn as [|? ? Hc Hl]; subst.
  cbn [map filter]. destruct Ha as [<-|Ha].
  - rewrite Hb, Nat.eqb_refl.
    assert (E : map (fun d => if Nat.eqb (id d) (id c) then b else d) l = l).
    { rewrite <- (map_id l) at 2. apply map_ext_in. intros d Hd.
      destruct (Nat.eqb (id d) (id c)) eqn:E; [|reflexivity].
      apply Nat.eqb_eq in E. exfalso. apply Hc. rewrite <- E. apply in_map, Hd. }
    rewrite E. destruct (status_eqb (status b) s), (status_eqb (status c) s);
      cbn [List.length]; lia.
  - assert (E : Nat.eqb (id c) (id b) = false).
    { apply Nat.eqb_neq. rewrite Hb. intros E. apply Hc. rewrite E. apply in_map, Ha. }
    rewrite E. specialize (IH Hl Ha Hb).
    destruct (status_eqb (status c) s); cbn [List.length]; lia.
Qed.

Lemma get_idle_agent_split agents a : get_idle_agent agents = Some a ->
  exists pre post, agents = pre ++ a :: post /\ status a = IDLE /\
    Forall (fun b => status b <> IDLE) pre.
Proof.
  induction agents as [|b l IH]; cbn [get_idle_agent]; [discriminate|].
  destruct (status_eqb (status b) IDLE) eqn:E.
  - intros [= <-]. exists [], l. split; [reflexivity|]. split; [|constructor].
    destruct (status b); cbn in E; congruence.
  - intros H. destruct (IH H) as (pre & post & -> & Hs & Hf).
    exists (b :: pre), post. split; [reflexivity|]. split; [exact Hs|].
    constructor; [|exact Hf]. destruct (status b); cbn in E; congruence.
Qed.

Lemma get_idle_agent_none agents :
  get_idle_agent agents = None <-> count_status IDLE agents = O.
Proof.
  unfold count_status. induction agents as [|b l IH]; cbn [get_idle_agent filter]; [tauto|].
  destruct (status_eqb (status b) IDLE); cbn [List.length]; [split; discriminate | exact IH].
Qed.

(** X1.  [AgentPool(org_id, token, max_agents)] raises [ValueError]
    unless [1 <= max_agents <= 10]; in range, when every [Agent] is
    created, the pool holds [max_agents] idle agents with no task and
    ids [0 .. max_agents-1] in order; when the creation of an agent
    raises, the constructor re-raises that exception. *)
Theorem new_pool_spec (max_agents : Z) (create : nat -> Res unit) :
  ((max_agents < 1 \/ 10 < max_agents)%Z ->
     exists m, new_pool max_agents create = Raise (ValueError m)) /\
  ((1 <= max_agents <= 10)%Z -> (forall i, (i < Z.to_nat max_agents)%nat -> create i = Ok tt) ->
     new_pool max_agents create
     = Ok (map (fun i => mk_agent i IDLE None) (seq 0 (Z.to_nat max_agents)))) /\
  ((1 <= max_agents <= 10)%Z -> forall i e, (i < Z.to_nat max_agents)%nat ->
     (forall j, (j < i)%nat -> create j = Ok tt) -> create i = Raise e ->
     new_pool max_agents create = Raise e).
Proof.
  unfold new_pool, MIN_AGENTS, MAX_AGENTS_LIMIT. split; [|split].
  - intros H. destruct (1 <=? max_agents)%Z eqn:E1; destruct (max_agents <=? 10)%Z eqn:E2;
      cbn [andb negb]; try (eexists; reflexivity).
    apply Z.leb_le in E1. apply Z.leb_le in E2. lia.
  - intros H Hc. replace (1 <=? max_agents)%Z with true by (symmetry; apply Z.leb_le; lia).
    replace (max_agents <=? 10)%Z with true by (symmetry; apply Z.leb_le; lia).
    cbn [andb negb]. apply initialize_pool_ok. intros j Hj. apply Hc, Hj.
  - intros H i e Hi Hj He. replace (1 <=? max_agents)%Z with true by (symmetry; apply Z.leb_le; lia).
    replace (max_agents <=? 10)%Z with true by (symmetry; apply Z.leb_le; lia).
    cbn [andb negb]. apply (initialize_pool_raise create _ O [] i e Hi); [exact Hj | exact He].
Qed.

Lemma new_pool_spec_witness :
  (exists m, new_pool 11 (fun _ => Ok tt) = Raise (ValueError m)) /\
  new_pool 2 (fun _ => Ok tt) = Ok [mk_agent 0 IDLE None; mk_agent 1 IDLE None] /\
  new_pool 3 (fun i => if Nat.eqb i 1 then Raise (mk_exn KOtherError "auth") else Ok tt)
  = Raise (mk_exn KOtherError "auth").
Proof.
  split; [|split].
  - apply (proj1 (new_pool_spec 11 (fun _ => Ok tt))). lia.
  - apply (proj1 (proj2 (new_pool_spec 2 (fun _ => Ok tt)))); [lia|]. intros; reflexivity.
  - apply (proj2 (proj2 (new_pool_spec 3 _)) ltac:(lia) 1 _ ltac:(simpl; lia)).
    + intros j Hj. destruct j; [reflexivity | lia].
    + reflexivity.
Defined.

(** X2.  A new pool reports [max_agents] idle, 0 busy and 0 failed
    agents; every pool call ([mark_busy], [mark_idle], [mark_failed],
    [reset_agent]) keeps the ids [0 .. n-1] in order and keeps "a task is
    recorded exactly on busy agents"; and the [get_stats] counts always
    add up to [get_total_agents()]. *)
Theorem pool_invariant :
  (forall max_agents create agents, new_pool max_agents create = Ok agents ->
     pool_ok (Z.to_nat max_agents) agents /\
     get_stats agents = mk_pool_stats (Z.to_nat max_agents) O O) /\
  (forall n agents a op, pool_ok n agents -> pool_ok n (fst (pool_call agents a op))) /\
  (forall n agents, pool_ok n agents ->
     (idle (get_stats agents) + busy (get_stats agents) + failed (get_stats agents))%nat = n /\
     get_total_agents agents = n).
Proof.
  split; [|split].
  - intros max_agents create agents H. apply new_pool_shape in H as [_ ->].
    split.
    + split.
      * rewrite map_map. cbn [id]. apply map_id.
      * apply Forall_map. apply Forall_forall. intros x _. reflexivity.
    + unfold get_stats. rewrite !count_fresh. reflexivity.
  - intros n agents a op [Hid Hok]. unfold pool_call.
    destruct (apply_op a op) as [a'|e] eqn:E; cbn [fst]; [|split; assumption].
    destruct (apply_op_task_ok a op a' E) as [Ht _]. split.
    + rewrite map_id_put. exact Hid.
    + apply task_ok_put; assumption.
  - intros n agents [Hid _]. unfold get_stats, get_total_agents. cbn [idle busy failed].
    rewrite count_sum. rewrite <- (length_map id agents), Hid. split; apply length_seq.
Qed.

Lemma pool_invariant_witness :
  pool_ok 2 (fst (pool_call [mk_agent 0 IDLE None; mk_agent 1 IDLE None]
                     (mk_agent 1 IDLE None) (OpMarkBusy "t"))) /\
  get_stats [mk_agent 0 IDLE None; mk_agent 1 IDLE None] = mk_pool_stats 2 0 0.
Proof.
  assert (H : new_pool 2 (fun _ => Ok tt) = Ok [mk_agent 0 IDLE None; mk_agent 1 IDLE None])
    by reflexivity.
  destruct (proj1 pool_invariant 2%Z _ _ H) as [Hp Hs]. split; [|exact Hs].
  exact (proj1 (proj2 pool_invariant) 2%nat _ _ _ Hp).
Defined.

(** X3.  [get_idle_agent()] returns the first idle agent in pool order
    (every agent before it is busy or failed), and returns [None]
    exactly when [get_stats()] counts no idle agent. *)
Theorem get_idle_agent_first (agents : list ManagedAgent) :
  (forall a, get_idle_agent agents = Some a ->
     exists pre post, agents = pre ++ a :: post /\ status a = IDLE /\
       Forall (fun b => status b <> IDLE) pre) /\
  (get_idle_agent agents = None <-> idle (get_stats agents) = O).
Proof.
  split.
  - intros a. apply get_idle_agent_split.
  - apply get_idle_agent_none.
Qed.

Lemma get_idle_agent_first_witness :
  exists pre post, [mk_agent 0 BUSY (Some "t"); mk_agent 1 IDLE None]
                   = pre ++ mk_agent 1 IDLE None :: post /\
    status (mk_agent 1 IDLE None) = IDLE /\ Forall (fun b => status b <> IDLE) pre.
Proof.
  apply (proj1 (get_idle_agent_first [mk_agent 0 BUSY (Some "t"); mk_agent 1 IDLE None])).
  reflexivity.
Defined.

(** X4.  In a pool of the shape [AgentPool] keeps, allocating the agent
    [get_idle_agent()] returns with [mark_busy(agent, t)] succeeds, moves
    exactly one agent from the idle to the busy count, and the matching
    [mark_idle(agent)] restores the pool exactly as it was. *)
Theorem allocate_release n agents a t :
  pool_ok n agents -> get_idle_agent agents = Some a ->
  let b := mk_agent (id a) BUSY (Some t) in
  pool_call agents a (OpMarkBusy t) = (put_agent agents b, Ok tt) /\
  get_stats (put_agent agents b) =
    mk_pool_stats (idle (get_stats agents) - 1) (busy (get_stats agents) + 1)
      (failed (get_stats agents)) /\
  pool_call (put_agent agents b) b OpMarkIdle = (agents, Ok tt).
Proof.
  intros [Hid Hok] Hg b.
  destruct (get_idle_agent_split agents a Hg) as (pre & post & Ea & Hs & _).
  assert (Ha : In a agents) by (rewrite Ea; apply in_elt).
  assert (Hn : NoDup (map id agents)) by (rewrite Hid; apply seq_NoDup).
  assert (Hc : current_task a = None).
  { rewrite Forall_forall in Hok. specialize (Hok a Ha). unfold task_ok in Hok.
    rewrite Hs in Hok. exact Hok. }
  split; [|split].
  - unfold pool_call. cbn [apply_op]. unfold mark_busy. rewrite Hs. reflexivity.
  - unfold get_stats. cbn [idle busy failed].
    pose proof (count_put IDLE agents a b Hn Ha eq_refl) as C1.
    pose proof (count_put BUSY agents a b Hn Ha eq_refl) as C2.
    pose proof (count_put FAILED agents a b Hn Ha eq_refl) as C3.
    rewrite Hs in C1, C2, C3. cbn [b status status_eqb] in C1, C2, C3. f_equal; lia.
  - unfold pool_call. cbn [apply_op]. unfold put_agent. rewrite map_map.
    assert (Ea' : mark_idle b = a).
    { destruct a as [i s c]. cbn [id status current_task] in *. subst. reflexivity. }
    rewrite Ea'. f_equal. rewrite <- (put_agent_self agents a Hn Ha) at 2. unfold put_agent.
    apply map_ext. intros d. cbn [b id].
    destruct (Nat.eqb (id d) (id a)) eqn:E; cbn [id]; [rewrite Nat.eqb_refl; reflexivity|].
    rewrite E. reflexivity.
Qed.

Lemma allocate_release_witness :
  pool_call [mk_agent 0 IDLE None; mk_agent 1 IDLE None] (mk_agent 0 IDLE None) (OpMarkBusy "t")
  = (put_agent [mk_agent 0 IDLE None; mk_agent 1 IDLE None] (mk_agent 0 BUSY (Some "t")), Ok tt).
Proof.
  refine (proj1 (allocate_release 2 [mk_agent 0 IDLE None; mk_agent 1 IDLE None]
                   (mk_agent 0 IDLE None) "t" _ eq_refl)).
  split; [reflexivity|]. repeat constructor.
Defined.

End PoolExtra.

(** ** Error classification and retry configuration *)
Module RetryExtra.
Import Codegen Retry Executor.







(** X7.  [RetryConfig(max_attempts=0)] passes validation with retry
    enabled, and then [execute_with_retry] never calls the function and
    never sleeps: it raises a [RuntimeError] ("Retry logic failed
    unexpectedly ..."), so an executor with this configuration fails
    every task without running it. *)
Theorem zero_attempts_never_call (base_delay_seconds : Z) (call : nat -> Res TaskResult) :
  (0 <= base_delay_seconds)%Z ->
  exists cfg e, RetryConfig_init 0 base_delay_seconds true = Ok cfg /\ ekind e = KRuntimeError /\
    Retry.execute_with_retry call (max_attempts cfg) (Executor.base_delay_seconds cfg)
    = ([], Raise e) /\
    run_attempts cfg call = Raise e.
Proof.
  intros Hb. exists (mk_retry_config 0 base_delay_seconds true).
  eexists. split; [|split; [|split]].
  - unfold RetryConfig_init. replace (base_delay_seconds <? 0)%Z with false
      by (symmetry; apply Z.ltb_ge; lia). reflexivity.
  - shelve.
  - reflexivity.
  - reflexivity.
  Unshelve. reflexivity.
Qed.

Lemma zero_attempts_never_call_witness :
  exists cfg e, RetryConfig_init 0 30 true = Ok cfg /\ ekind e = KRuntimeError /\
    Retry.execute_with_retry (fun _ => Ok (Scenarios.demo_result)) (max_attempts cfg)
      (Executor.base_delay_seconds cfg)
    = ([], Raise e) /\
    run_attempts cfg (fun _ => Ok (Scenarios.demo_result)) = Raise e.
Proof. apply zero_attempts_never_call. lia. Defined.

(** X8.  A configuration made by [RetryConfig.from_agent_config] never
    loses a first-attempt success: if the first call of the task
    succeeds, the executor's (possibly retry-wrapped) run returns that
    result, whether [retry_attempts] is 0 (retry disabled, one direct
    call) or positive. *)
Theorem from_agent_config_first_success (retry_attempts retry_delay_seconds : Z) cfg
  (call : nat -> Res TaskResult) v :
  from_agent_config retry_attempts retry_delay_seconds = Ok cfg -> call O = Ok v ->
  run_attempts cfg call = Ok v.
Proof.
  unfold from_agent_config, RetryConfig_init.
  destruct (retry_attempts <? 0)%Z eqn:E1; [discriminate|].
  destruct (retry_delay_seconds <? 0)%Z; [discriminate|]. intros [= <-] Hv.
  apply Z.ltb_ge in E1. unfold run_attempts. cbn [enabled max_attempts Executor.base_delay_seconds].
  destruct (0 <? retry_attempts)%Z eqn:E2; [|exact Hv].
  apply Z.ltb_lt in E2. unfold Retry.execute_with_retry.
  destruct (Z.to_nat retry_attempts) as [|n] eqn:En; [lia|].
  cbn [retry_loop]. replace (Z.to_nat (1 - 1)) with O by reflexivity. rewrite Hv. reflexivity.
Qed.

Lemma from_agent_config_first_success_witness :
  run_attempts (mk_retry_config 3 30 true) (fun _ => Ok Scenarios.demo_result)
  = Ok Scenarios.demo_result.
Proof. apply (from_agent_config_first_success 3 30); reflexivity. Defined.

End RetryExtra.

(** ** Insert and lookup on dicts *)
Module DictFacts.
Import ListFacts.

Lemma lookup_upsert_same {V} k (v : V) d : lookup k (upsert k v d) = Some v.
Proof.
  induction d as [|[k' v'] d IH]; cbn [upsert lookup].
  - unfold str_eqb. rewrite String.eqb_refl. reflexivity.
  - destruct (str_eqb k k') eqn:E; cbn [lookup]; rewrite E; [reflexivity | exact IH].
Qed.

Lemma lookup_upsert_other {V} k k2 (v : V) d : k2 <> k -> lookup k2 (upsert k v d) = lookup k2 d.
Proof.
  intros Hne. induction d as [|[k' v'] d IH]; cbn [upsert lookup].
  - destruct (str_eqb k2 k) eqn:E; [apply str_eqb_true in E; congruence | reflexivity].
  - destruct (str_eqb k k') eqn:E; cbn [lookup].
    + apply str_eqb_true in E. subst k'.
      destruct (str_eqb k2 k) eqn:E2; [apply str_eqb_true in E2; congruence | reflexivity].
    + rewrite IH. reflexivity.
Qed.

Lemma length_upsert {V} k (v : V) d :
  List.length (upsert k v d) = (if mem k (keys d) then List.length d else S (List.length d)).
Proof.
  induction d as [|[k' v'] d IH]; cbn [upsert List.length keys map]; [reflexivity|].
  unfold mem in *. cbn [existsb fst]. destruct (str_eqb k k'); cbn [orb List.length]; [reflexivity|].
  fold (keys d). rewrite IH. destruct (existsb (str_eqb k) (keys d)); reflexivity.
Qed.

Lemma keys_upsert_snoc {V} k (v : V) d :
  keys (upsert k v d) = if mem k (keys d) then keys d else keys d ++ [k].
Proof.
  induction d as [|[k' v'] d IH]; [reflexivity|].
  cbn [upsert keys map fst]. unfold mem in *. cbn [existsb].
  destruct (str_eqb k k') eqn:E; cbn [orb map fst].
  - apply str_eqb_true in E. subst k'. reflexivity.
  - fold (keys d). fold (keys (upsert k v d)). rewrite IH.
    destruct (existsb (str_eqb k) (keys d)); reflexivity.
Qed.

End DictFacts.

(** ** Results of the executor *)
Module ExecutorExtra.
Import Codegen AgentPool Executor DictFacts.

(** X9.  After [execute_task] returns normally with a result,
    [get_result(task_id)] gives that result; a task that raises records
    nothing (the stored results are unchanged); the results of other task
    ids are never touched; and [get_stats()]'s completed count grows by at
    most one. *)
Theorem execute_task_records ex task_id task_data call ex' tr r :
  execute_task ex task_id task_data call = Finished ex' tr r ->
  (forall v, r = Ok v -> get_result ex' task_id = Some v) /\
  (forall e, r = Raise e -> task_results ex' = task_results ex) /\
  (forall t, t <> task_id -> get_result ex' t = get_result ex t) /\
  (stat_completed_tasks (get_stats ex') <= S (stat_completed_tasks (get_stats ex)))%nat.
Proof.
  unfold execute_task, get_result, get_stats, set_active, set_pool, set_results.
  cbv zeta. cbn [stat_completed_tasks task_results agent_pool active_tasks].
  destruct (get_idle_agent _) as [agent|]; [|discriminate].
  destruct (mark_busy agent task_id) as [busy_agent|e0].
  2: { intros [= <- _ <-]. cbn [task_results].
       split; [discriminate|]. split; [reflexivity|]. split; [reflexivity | lia]. }
  destruct (get_or_create_executor _ agent) as [ex2'|e1] eqn:Eg.
  2: { intros [= <- _ <-]. cbn [task_results].
       split; [discriminate|]. split; [reflexivity|]. split; [reflexivity | lia]. }
  assert (Hr : task_results ex2' = task_results ex).
  { unfold get_or_create_executor in Eg. destruct existsb; [injection Eg as <-; reflexivity|].
    destruct (timeout_seconds _ <? 60)%Z; [discriminate|].
    destruct (poll_interval_seconds _ <? 1)%Z; [discriminate|].
    injection Eg as <-. reflexivity. }
  destruct (run_attempts (retry_config ex2') (call (id agent))) as [res|e2].
  - intros [= <- _ <-]. cbn [task_results]. rewrite Hr.
    split; [intros v [= <-]; apply lookup_upsert_same|]. split; [discriminate|]. split.
    + intros t Ht. apply lookup_upsert_other, Ht.
    + rewrite length_upsert. destruct mem; lia.
  - intros [= <- _ <-]. cbn [task_results]. rewrite Hr.
    split; [discriminate|]. split; [reflexivity|]. split; [reflexivity | lia].
Qed.

Lemma execute_task_records_witness :
  get_result (mk_executor [Scenarios.demo_agent] [] [("task-1", Scenarios.demo_result)] [0%nat]
                600 2 (mk_retry_config 3 30 true)) "task-1"
  = Some Scenarios.demo_result.
Proof.
  refine (proj1 (execute_task_records Scenarios.demo_executor "task-1" []
                   (fun _ _ => Ok Scenarios.demo_result)
                   (mk_executor [Scenarios.demo_agent] [] [("task-1", Scenarios.demo_result)] [0%nat]
                      600 2 (mk_retry_config 3 30 true)) _ (Ok Scenarios.demo_result) _)
            Scenarios.demo_result eq_refl).
  vm_compute. reflexivity.
Defined.

End ExecutorExtra.

(** *** More of [dependency_graph.py] *)
Module DepGraphExtra.
Import Graphlib DepGraph Validator GraphSpec GraphlibInv SessionInv Session
       ListFacts OrderFacts GraphlibProofs FindCycleProofs KahnProofs DepGraphProofs DictFacts.

Lemma dedup_snoc l x : dedup (l ++ [x]) = if mem x l then dedup l else dedup l ++ [x].
Proof.
  induction l as [|a l IH]; [reflexivity|].
  cbn [app dedup]. rewrite IH. unfold mem. cbn [existsb].
  destruct (str_eqb x a) eqn:E; cbn [orb].
  - apply str_eqb_true in E. subst a.
    destruct (existsb (str_eqb x) l); [reflexivity|].
    rewrite filter_app. cbn [filter]. unfold str_eqb. rewrite String.eqb_refl. cbn [negb].
    rewrite app_nil_r. reflexivity.
  - destruct (existsb (str_eqb x) l); [reflexivity|].
    rewrite filter_app. cbn [filter]. unfold str_eqb in *.
    rewrite String.eqb_sym, E. reflexivity.
Qed.

Lemma mem_dedup x l : mem x (dedup l) = mem x l.
Proof.
  destruct (mem x l) eqn:E.
  - apply mem_In, In_dedup, mem_In. exact E.
  - apply mem_notIn. rewrite In_dedup. apply mem_notIn. exact E.
Qed.

Lemma get_ready_graph g : graph (fst (get_ready_tasks g)) = graph g.
Proof.
  destruct g as [gr [s|] b]; unfold get_ready_tasks; cbn [is_built sorter];
    destruct b; try reflexivity.
  destruct (Graphlib.is_active s) as [[|]|e]; try reflexivity.
  destruct (get_ready s) as [s' r]. reflexivity.
Qed.

Lemma mark_completed_graph g ids : graph (fst (mark_completed g ids)) = graph g.
Proof.
  destruct g as [gr [s|] b]; unfold mark_completed; cbn [is_built sorter];
    destruct b; try reflexivity.
  destruct ids as [|i ids]; [reflexivity|].
  destruct (done_nodes s (i :: ids)) as [s' r]. reflexivity.
Qed.

Lemma graph_step st o :
  graph (fst (step st o)) =
  match o with GAdd t ds => upsert t (dedup ds) (graph (fst st)) | _ => graph (fst st) end.
Proof.
  destruct st as [[gr so b] gh]. destruct o as [t ds| | |ids|b']; cbn [step fst].
  - unfold add_task. cbn [is_built graph]. destruct b; reflexivity.
  - exact (proj1 (build_shape gr so b)).
  - pose proof (get_ready_graph (mk_graph gr so b)) as E.
    destruct (get_ready_tasks (mk_graph gr so b)) as [g' r]. exact E.
  - apply mark_completed_graph.
  - reflexivity.
Qed.

Lemma run_ops_snoc ops o : run_ops (ops ++ [o]) = step (run_ops ops) o.
Proof. unfold run_ops. rewrite fold_left_app. reflexivity. Qed.

Lemma run_ops_keys ops : keys (graph (fst (run_ops ops))) = dedup (added_ids ops).
Proof.
  induction ops as [|o ops IH] using rev_ind; [reflexivity|].
  rewrite run_ops_snoc, graph_step. unfold added_ids in *. rewrite flat_map_app.
  destruct o as [t ds| | |ids|b']; cbn [flat_map app]; rewrite ?app_nil_r; try exact IH.
  rewrite keys_upsert_snoc, dedup_snoc, IH, mem_dedup. reflexivity.
Qed.

Lemma session_is_active ops : exists a, is_active (fst (run_ops ops)) = Ok a.
Proof.
  destruct (run_ops_inv ops) as [_ Hs].
  destruct (fst (run_ops ops)) as [gr [s|] b]; unfold is_active; cbn [is_built sorter] in *;
    destruct b; try (exists false; reflexivity).
  destruct (Hs s eq_refl) as [gr0 (_ & _ & _ & _ & (R & HR & _) & _)].
  unfold Graphlib.is_active. rewrite HR. eexists. reflexivity.
Qed.

(** X10: [add_task] stores a copy of the set under its id, leaves the
    other ids alone, and throws away a built state: afterwards the graph
    is not built, [get_ready_tasks] returns the empty tuple, [is_active]
    is false and [mark_completed] raises ValueError. *)
Theorem add_task_invalidates g t ds :
  lookup t (graph (add_task g t ds)) = Some (dedup ds) /\
  (forall t', t' <> t -> lookup t' (graph (add_task g t ds)) = lookup t' (graph g)) /\
  is_built (add_task g t ds) = false /\
  get_ready_tasks (add_task g t ds) = (add_task g t ds, Ok []) /\
  is_active (add_task g t ds) = Ok false /\
  (forall ids, exists m, mark_completed (add_task g t ds) ids = (add_task g t ds, Raise (ValueError m))).
Proof.
  assert (Hb : is_built (add_task g t ds) = false).
  { unfold add_task. destruct (is_built g) eqn:E; reflexivity. }
  assert (Hg : graph (add_task g t ds) = upsert t (dedup ds) (graph g)).
  { unfold add_task. destruct (is_built g); reflexivity. }
  rewrite Hg. split; [apply lookup_upsert_same|]. split.
  { intros t' Hne. apply lookup_upsert_other, Hne. }
  split; [exact Hb|]. unfold get_ready_tasks, is_active, mark_completed. rewrite Hb.
  split; [reflexivity|]. split; [reflexivity|]. intros ids. eexists. reflexivity.
Qed.

Lemma add_task_invalidates_witness :
  lookup "a" (graph (add_task (fst (build (add_task empty "b" []))) "a" ["b"; "b"])) = Some (dedup ["b"; "b"]) /\
  lookup "b" (graph (add_task (fst (build (add_task empty "b" []))) "a" ["b"; "b"])) =
    lookup "b" (graph (fst (build (add_task empty "b" [])))).
Proof.
  split.
  - exact (proj1 (add_task_invalidates (fst (build (add_task empty "b" []))) "a" ["b"; "b"])).
  - refine (proj1 (proj2 (add_task_invalidates (fst (build (add_task empty "b" []))) "a" ["b"; "b"])) "b" _).
    discriminate.
Defined.

(** X11: in any session of calls on a new graph, the task ids of the
    graph are the ids passed to [add_task], each once, in the order of
    first insertion; [get_stats] does not raise and counts them. *)
Theorem session_keys ops g gh : run_ops ops = (g, gh) ->
  keys (graph g) = dedup (added_ids ops) /\
  exists st, get_stats g = Ok st /\ total_tasks st = List.length (dedup (added_ids ops)) /\
    stat_is_built st = is_built g.
Proof.
  intros E. pose proof (run_ops_keys ops) as Hk. pose proof (session_is_active ops) as [a Ha].
  rewrite E in Hk, Ha. cbn [fst] in Hk, Ha. split; [exact Hk|].
  unfold get_stats. rewrite Ha. eexists. split; [reflexivity|]. cbn [total_tasks stat_is_built].
  split; [|reflexivity]. rewrite <- Hk. unfold keys. rewrite length_map. reflexivity.
Qed.

Lemma session_keys_witness :
  keys (graph (fst (run_ops [GAdd "a" []; GAdd "b" ["a"]; GBuild; GAdd "a" ["c"]]))) =
    dedup (added_ids [GAdd "a" []; GAdd "b" ["a"]; GBuild; GAdd "a" ["c"]]).
Proof.
  refine (proj1 (session_keys [GAdd "a" []; GAdd "b" ["a"]; GBuild; GAdd "a" ["c"]]
                   (fst (run_ops [GAdd "a" []; GAdd "b" ["a"]; GBuild; GAdd "a" ["c"]]))
                   (snd (run_ops [GAdd "a" []; GAdd "b" ["a"]; GBuild; GAdd "a" ["c"]])) _)).
  vm_compute. reflexivity.
Defined.

Lemma all_nodes_nil gr : all_nodes gr = [] -> gr = [].
Proof.
  destruct gr as [|[k ds] gr]; [reflexivity|]. intros E.
  assert (Hk : In k (all_nodes ((k, ds) :: gr))).
  { unfold all_nodes. apply In_dedup, in_app_iff. left. left. reflexivity. }
  rewrite E in Hk. destruct Hk.
Qed.

Lemma incl_nil_eq (l : list string) : incl l [] <-> l = [].
Proof.
  split; [|intros ->; intros x Hx; exact Hx].
  destruct l as [|a l]; [reflexivity|]. intros H. destruct (H a (or_introl eq_refl)).
Qed.

(** X12: in any session, a successful [rebuild] (the same as [build])
    keeps the edge map and starts over from the fresh sorter: the next
    [get_ready_tasks] returns, without repetition, exactly the tasks that
    have no prerequisites, whatever was completed before, and [is_active]
    is true exactly when the graph has a task. *)
Theorem rebuild_first_round ops g gh g' : run_ops ops = (g, gh) -> rebuild g = (g', Ok tt) ->
  graph g' = graph g /\ is_built g' = true /\
  (is_active g' = Ok true <-> graph g <> []) /\
  exists g'' R, get_ready_tasks g' = (g'', Ok R) /\ NoDup R /\
    forall x, In x R <-> In x (all_nodes (graph g)) /\ deps_of (graph g) x = [].
Proof.
  intros E Hb. destruct (run_ops_inv ops) as [Hwf _]. rewrite E in Hwf. cbn [fst] in Hwf.
  destruct g as [gr so b]. cbn [graph] in *. unfold rebuild in Hb.
  destruct (build_ok gr so b g' Hwf Hb) as (Eg & Eb & Es & F & succ & Ht & Hn & Hi & He).
  pose proof (prepare_KI gr Hwf) as HK.
  pose proof HK as (_ & _ & _ & _ & (R & HR & HnR & HRi) & _).
  pose proof (ready_active gr _ [] R HK HR) as Hact.
  assert (HRnil : R = [] <-> gr = []).
  { split.
    - intros ->. apply all_nodes_nil, incl_nil_eq.
      exact (kahn_complete gr _ [] F succ HK HR Ht Hn Hi He).
    - intros ->. destruct R as [|r R]; [reflexivity|]. exfalso.
      destruct (proj1 (HRi r) (or_introl eq_refl)) as [Hr _]. exact Hr. }
  split; [exact Eg|]. split; [exact Eb|].
  assert (Ha : is_active g' = Graphlib.is_active (fst (prepare (new_sorter gr)))).
  { unfold is_active. rewrite Eb, Es. reflexivity. }
  split.
  - rewrite Ha, Hact. rewrite <- HRnil.
    destruct R as [|r R]; cbn; split; intros H; try congruence; discriminate.
  - unfold get_ready_tasks. rewrite Eb, Es, Hact.
    assert (Hx : forall x, In x R <-> In x (all_nodes gr) /\ deps_of gr x = []).
    { intros x. rewrite HRi, <- incl_nil_eq. cbn [In]. tauto. }
    destruct R as [|r R'] eqn:ER; cbn [List.length Nat.eqb negb].
    + exists g', []. split; [reflexivity|]. split; [constructor|]. exact Hx.
    + destruct (get_ready_KI gr _ [] [] (r :: R') HK HR) as [s' [Eg' _]]. rewrite Eg'.
      eexists; exists (r :: R'). split; [reflexivity|]. split; [exact HnR | exact Hx].
Qed.

Lemma rebuild_first_round_witness :
  exists g'' R, get_ready_tasks (fst (rebuild (fst (run_ops [GAdd "b" ["a"]; GAdd "c" []])))) = (g'', Ok R) /\
    NoDup R /\ forall x, In x R <-> In x (all_nodes (graph (fst (run_ops [GAdd "b" ["a"]; GAdd "c" []])))) /\
      deps_of (graph (fst (run_ops [GAdd "b" ["a"]; GAdd "c" []]))) x = [].
Proof.
  refine (proj2 (proj2 (proj2 (rebuild_first_round [GAdd "b" ["a"]; GAdd "c" []]
            (fst (run_ops [GAdd "b" ["a"]; GAdd "c" []])) (snd (run_ops [GAdd "b" ["a"]; GAdd "c" []]))
            (fst (rebuild (fst (run_ops [GAdd "b" ["a"]; GAdd "c" []])))) _ _)))).
  - vm_compute. reflexivity.
  - vm_compute. reflexivity.
Defined.

(** X13: [copy] keeps the edge map only: the copy is not built and has no
    sorter, so even after [set_built_state(True)] it hands out no task,
    is not active and refuses [mark_completed] with ValueError; building
    the copy gives the same edge map, sorter and outcome as building the
    original, except that after a cycle the copy stays unbuilt. *)
Theorem copy_edges_only g :
  graph (copy g) = graph g /\ is_built (copy g) = false /\ sorter (copy g) = None /\
  get_ready_tasks (copy g) = (copy g, Ok []) /\
  get_ready_tasks (set_built_state (copy g) true) = (set_built_state (copy g) true, Ok []) /\
  is_active (set_built_state (copy g) true) = Ok false /\
  (forall ids, exists m,
     mark_completed (set_built_state (copy g) true) ids =
     (set_built_state (copy g) true, Raise (ValueError m))) /\
  graph (fst (build (copy g))) = graph (fst (build g)) /\
  sorter (fst (build (copy g))) = sorter (fst (build g)) /\
  snd (build (copy g)) = snd (build g) /\
  is_built (fst (build (copy g))) = match snd (build g) with Ok _ => true | Raise _ => false end.
Proof.
  destruct g as [gr so b]. unfold copy. cbn [graph].
  do 6 (split; [reflexivity|]). split; [intros ids; eexists; reflexivity|].
  unfold build. cbn [graph is_built]. destruct gr as [|p l].
  - destruct (prepare (new_sorter [])) as [s r]. repeat split.
  - destruct (prepare (new_sorter (p :: l))) as [s [u|e]]; repeat split.
Qed.

End DepGraphExtra.

(** *** More of [dynamic_deps.py] *)
Module DynamicExtra.
Import Codegen Graphlib DepGraph GraphSpec Dynamic Scenarios ListFacts OrderFacts DepGraphProofs DictFacts.

Lemma build_ok_acyclic gr so b g' : wf_graph gr -> build (mk_graph gr so b) = (g', Ok tt) ->
  ~ has_cycle gr.
Proof.
  intros Hwf Hb [u Hu].
  destruct (build_ok gr so b g' Hwf Hb) as (_ & _ & _ & F & succ & Ht & _ & Hi & He).
  assert (Hc : clos_trans string (fun y x => In y (succ x)) u u).
  { assert (Hm : forall a c, clos_trans string (dep_edge gr) a c ->
              clos_trans string (fun y x => In y (succ x)) a c).
    { intros a c Hac. induction Hac as [a c Hac|a c d _ IH1 _ IH2].
      - apply t_step. exact (He a c Hac).
      - eapply t_trans; eassumption. }
    exact (Hm u u Hu). }
  assert (HuF : In u F).
  { apply Hi. destruct (clos_trans_first _ _ _ Hu) as [v Hv].
    exact (ValidatorProofs.dep_edge_src gr u v Hv). }
  exact (acc_no_cycle _ u (topo_acc _ F Ht u HuF) Hc).
Qed.

Lemma build_raise_kind g e : snd (build g) = Raise e -> ekind e = KCycleDetectedError.
Proof.
  destruct g as [gr so b]. unfold build. cbn [graph]. destruct gr as [|p l].
  - destruct (prepare (new_sorter [])) as [s r]. discriminate.
  - destruct (prepare (new_sorter (p :: l))) as [s [u|e']]; [discriminate|].
    cbn [snd]. intros [= <-]. reflexivity.
Qed.

Lemma copy_add_task g t ds :
  add_task (copy g) t ds = mk_graph (upsert t (dedup ds) (graph g)) None false.
Proof. reflexivity. Qed.

Lemma add_entries_cons g t d es :
  add_entries g ((t, d) :: es) =
  add_entries (match entry_deps d with Ok ds => add_task g t ds | Raise _ => g end) es.
Proof. reflexivity. Qed.

Lemma graph_add_task g t ds : graph (add_task g t ds) = upsert t (dedup ds) (graph g).
Proof. unfold add_task. destruct (is_built g); reflexivity. Qed.

Lemma add_entries_wf es : forall g, wf_graph (graph g) -> wf_graph (graph (add_entries g es)).
Proof.
  induction es as [|[t d] es IH]; intros g Hwf; [exact Hwf|].
  rewrite add_entries_cons. apply IH.
  destruct (entry_deps d) as [ds|e]; [|exact Hwf].
  rewrite graph_add_task. apply wf_upsert, Hwf.
Qed.

Lemma add_entries_keys es : forall g,
  incl (keys (graph g)) (keys (graph (add_entries g es))) /\
  forall t d ds, In (t, d) es -> entry_deps d = Ok ds -> In t (keys (graph (add_entries g es))).
Proof.
  induction es as [|[t0 d0] es IH]; intros g.
  - split; [intros x Hx; exact Hx | intros t d ds []].
  - rewrite add_entries_cons.
    set (g1 := match entry_deps d0 with Ok ds => add_task g t0 ds | Raise _ => g end).
    destruct (IH g1) as [I1 I2].
    assert (Hg1 : incl (keys (graph g)) (keys (graph g1))).
    { unfold g1. destruct (entry_deps d0) as [ds|e]; [|intros x Hx; exact Hx].
      intros x Hx. rewrite graph_add_task. apply keys_upsert. right. exact Hx. }
    split; [intros x Hx; apply I1, Hg1, Hx|].
    intros t d ds [E|Hin] Hd.
    + injection E as <- <-. apply I1. unfold g1. rewrite Hd, graph_add_task.
      apply keys_upsert. left. reflexivity.
    + exact (I2 t d ds Hin Hd).
Qed.

Lemma add_entries_other es t : ~ In t (keys es) -> forall g,
  lookup t (graph (add_entries g es)) = lookup t (graph g).
Proof.
  induction es as [|[t0 d0] es IH]; intros Hn g; [reflexivity|].
  rewrite add_entries_cons. cbn [keys map fst In] in Hn. rewrite IH by tauto.
  destruct (entry_deps d0) as [ds|e]; [|reflexivity].
  rewrite graph_add_task. apply lookup_upsert_other. intros ->. apply Hn. left. reflexivity.
Qed.

Lemma add_entries_lookup es : NoDup (keys es) -> forall g t d ds,
  In (t, d) es -> entry_deps d = Ok ds ->
  lookup t (graph (add_entries g es)) = Some (dedup ds).
Proof.
  induction es as [|[t0 d0] es IH]; intros Hn g t d ds Hin Hd; [destruct Hin|].
  inversion Hn as [|? ? Hn0 Hn1]; subst. rewrite add_entries_cons.
  destruct Hin as [E|Hin].
  - injection E as <- <-. rewrite add_entries_other by exact Hn0.
    rewrite Hd, graph_add_task. apply lookup_upsert_same.
  - exact (IH Hn1 _ t d ds Hin Hd).
Qed.

Lemma validate_entries_deps m es : validate_entries m es = Ok tt ->
  forall t d, In (t, d) es -> exists ds, entry_deps d = Ok ds.
Proof.
  induction es as [|[t0 d0] es IH]; intros Hv t d Hin; [destruct Hin|].
  cbn [validate_entries] in Hv.
  destruct (entry_deps d0) as [ds0|e] eqn:Ed; [|discriminate].
  destruct (would_create_cycle m t0 ds0) as [[|]|e]; try discriminate.
  destruct (validate_dependencies_exist m t0 ds0) as [u|e]; [|discriminate].
  destruct Hin as [E|Hin].
  - injection E as <- <-. exists ds0. exact Ed.
  - exact (IH Hv t d Hin).
Qed.

Lemma fold_upsert_lookup {V} (td : list (string * V)) : NoDup (keys td) -> forall acc k,
  lookup k (fold_left (fun d '(k, v) => upsert k v d) td acc) =
  match lookup k td with Some v => Some v | None => lookup k acc end.
Proof.
  induction td as [|[k0 v0] td IH]; intros Hn acc k; [reflexivity|].
  inversion Hn as [|? ? Hn0 Hn1]; subst. cbn [fold_left lookup]. rewrite (IH Hn1).
  destruct (str_eqb k k0) eqn:E.
  - apply str_eqb_true in E. subst k0.
    assert (Hn' : lookup k td = None) by (apply lookup_None; exact Hn0).
    rewrite Hn'. apply lookup_upsert_same.
  - destruct (lookup k td); [reflexivity|]. apply lookup_upsert_other.
    intros ->. unfold str_eqb in E. rewrite String.eqb_refl in E. discriminate.
Qed.

Lemma fold_upsert_keys {V} (td : list (string * V)) : forall acc1 acc2, keys acc1 = keys acc2 ->
  keys (fold_left (fun d '(k, v) => upsert k v d) td acc1) =
  keys (fold_left (fun d '(k, v) => upsert k v d) td acc2).
Proof.
  induction td as [|[k0 v0] td IH]; intros acc1 acc2 E; [exact E|].
  cbn [fold_left]. apply IH. rewrite !keys_upsert_snoc, E. reflexivity.
Qed.

Lemma fold_upsert_NoDup {V} (td : list (string * V)) : forall acc, NoDup (keys acc) ->
  NoDup (keys (fold_left (fun d '(k, v) => upsert k v d) td acc)).
Proof.
  induction td as [|[k0 v0] td IH]; intros acc Hn; [exact Hn|].
  cbn [fold_left]. apply IH, NoDup_keys_upsert, Hn.
Qed.

Lemma eq_of_lookup {V} (l1 l2 : list (string * V)) : keys l1 = keys l2 -> NoDup (keys l1) ->
  (forall k, lookup k l1 = lookup k l2) -> l1 = l2.
Proof.
  revert l2. induction l1 as [|[k1 v1] l1 IH]; intros [|[k2 v2] l2] Ek Hn Hl; try discriminate;
    [reflexivity|].
  injection Ek as <- Ek. inversion Hn as [|? ? Hn0 Hn1]; subst.
  pose proof (Hl k1) as E1. cbn [lookup] in E1. unfold str_eqb in E1. rewrite String.eqb_refl in E1.
  injection E1 as <-. f_equal. apply IH; [exact Ek | exact Hn1|].
  intros k. destruct (string_dec k k1) as [->|Hne].
  - rewrite (proj2 (lookup_None k1 l1) Hn0). symmetry. apply lookup_None. rewrite <- Ek. exact Hn0.
  - pose proof (Hl k) as E. cbn [lookup] in E.
    destruct (str_eqb k k1) eqn:Ekk; [apply str_eqb_true in Ekk; congruence | exact E].
Qed.

(** X14: on a graph of the shape [add_task] keeps, [_would_create_cycle]
    never raises; it answers True when adding the task with these
    prerequisites would close a cycle, and an answer of False means the
    extended edge map has no cycle. *)
Theorem would_create_cycle_sound m t ds : wf_graph (graph (dep_graph m)) ->
  (exists b, would_create_cycle m t ds = Ok b) /\
  (has_cycle (upsert t (dedup ds) (graph (dep_graph m))) -> would_create_cycle m t ds = Ok true) /\
  (would_create_cycle m t ds = Ok false -> ~ has_cycle (upsert t (dedup ds) (graph (dep_graph m)))).
Proof.
  intros Hwf. pose proof (wf_upsert _ t ds Hwf) as Hwf'.
  unfold would_create_cycle. rewrite copy_add_task.
  destruct (build (mk_graph (upsert t (dedup ds) (graph (dep_graph m))) None false))
    as [g' r] eqn:Eb.
  destruct r as [u|e]; cbn [snd].
  - destruct u. split; [eexists; reflexivity|]. split.
    + intros Hc. exfalso. exact (build_ok_acyclic _ _ _ _ Hwf' Eb Hc).
    + intros _. exact (build_ok_acyclic _ _ _ _ Hwf' Eb).
  - assert (Hk : ekind e = KCycleDetectedError).
    { apply (build_raise_kind (mk_graph (upsert t (dedup ds) (graph (dep_graph m))) None false)).
      rewrite Eb. reflexivity. }
    rewrite Hk. split; [eexists; reflexivity|]. split; [reflexivity | discriminate].
Qed.

Lemma would_create_cycle_sound_witness :
  exists b, would_create_cycle manager_fresh "task-3" ["task-2"] = Ok b.
Proof.
  refine (proj1 (would_create_cycle_sound manager_fresh "task-3" ["task-2"] _)).
  vm_compute. split.
  - repeat constructor; cbn; intuition discriminate.
  - intros k ds H. destruct H as [E|[E|[]]]; injection E as <- <-; repeat constructor; cbn; tauto.
Defined.

(** X15: a successful [add_dynamic_tasks] of a non-empty batch leaves the
    graph built and acyclic, still of the shape [add_task] keeps; each
    new task is registered with the set of its [dependencies] field, the
    other tasks keep theirs, the batch is queued after the earlier ones
    and the completed set is unchanged. *)
Theorem add_dynamic_tasks_success m nt m' :
  wf_graph (graph (dep_graph m)) -> nt <> [] -> NoDup (keys nt) ->
  add_dynamic_tasks m nt = (m', Ok tt) ->
  is_built (dep_graph m') = true /\ ~ has_cycle (graph (dep_graph m')) /\
  wf_graph (graph (dep_graph m')) /\
  (forall t, In t (keys nt) -> exists d ds, In (t, d) nt /\ entry_deps d = Ok ds /\
     lookup t (graph (dep_graph m')) = Some (dedup ds)) /\
  (forall t, ~ In t (keys nt) -> lookup t (graph (dep_graph m')) = lookup t (graph (dep_graph m))) /\
  new_tasks_queue m' = new_tasks_queue m ++ nt /\ completed_tasks m' = completed_tasks m.
Proof.
  intros Hwf Hne Hnd Ha. unfold add_dynamic_tasks in Ha.
  destruct nt as [|e0 nt0]; [congruence|].
  destruct (validate_entries m (e0 :: nt0)) as [[]|e] eqn:Ev; [|discriminate].
  cbv zeta in Ha. unfold rebuild in Ha.
  pose proof (add_entries_wf (e0 :: nt0) (dep_graph m) Hwf) as Hwf1.
  pose proof (add_entries_lookup (e0 :: nt0) Hnd (dep_graph m)) as Hl.
  pose proof (fun t Hn => add_entries_other (e0 :: nt0) t Hn (dep_graph m)) as Ho.
  destruct (add_entries (dep_graph m) (e0 :: nt0)) as [gr so b] eqn:EG.
  cbn [graph] in Hwf1, Hl, Ho.
  destruct (build (mk_graph gr so b)) as [g2 r] eqn:Eb.
  destruct r as [[]|e]; [|destruct (ekind e); discriminate].
  injection Ha as <-. cbn [dep_graph new_tasks_queue completed_tasks].
  destruct (build_ok gr so b g2 Hwf1 Eb) as (Eg & Ebt & _).
  rewrite Eg. split; [exact Ebt|]. split; [exact (build_ok_acyclic gr so b g2 Hwf1 Eb)|].
  split; [exact Hwf1|]. split.
  - intros t Ht. unfold keys in Ht. apply in_map_iff in Ht as [[t' d] [E Hin]].
    cbn [fst] in E. subst t'.
    destruct (validate_entries_deps m _ Ev t d Hin) as [ds Hd].
    exists d, ds. split; [exact Hin|]. split; [exact Hd|]. exact (Hl t d ds Hin Hd).
  - split; [exact Ho|]. split; reflexivity.
Qed.

Lemma add_dynamic_tasks_success_witness :
  lookup "task-3" (graph (dep_graph (fst (add_dynamic_tasks manager_fresh
     [("task-3", task_entry ["task-2"] "Task 3")])))) = Some (dedup ["task-2"]).
Proof.
  destruct (add_dynamic_tasks_success manager_fresh [("task-3", task_entry ["task-2"] "Task 3")]
              (fst (add_dynamic_tasks manager_fresh [("task-3", task_entry ["task-2"] "Task 3")])))
    as (_ & _ & _ & Hk & _).
  - vm_compute. split.
    + repeat constructor; cbn; intuition discriminate.
    + intros k ds H. destruct H as [E|[E|[]]]; injection E as <- <-; repeat constructor; cbn; tauto.
  - discriminate.
  - repeat constructor; cbn; tauto.
  - vm_compute. reflexivity.
  - destruct (Hk "task-3" (or_introl eq_refl)) as (d & ds & Hin & Hd & Hl).
    destruct Hin as [E|[]]. injection E as <-. vm_compute in Hd. injection Hd as <-. exact Hl.
Defined.

(** X16: the task data [add_discovered_task] registers is
    [{"dependencies": dependencies, **task_data}]: every key of
    [task_data] keeps its value, and the [dependencies] argument is used
    only when [task_data] has no ["dependencies"] key; when it has one,
    the argument is ignored altogether. *)
Theorem add_discovered_task_data m t d td : NoDup (keys td) ->
  (forall k, lookup k (full_task_data d td) =
     match lookup k td with
     | Some v => Some v
     | None => if str_eqb k "dependencies" then Some d else None
     end) /\
  (In "dependencies" (keys td) -> forall d', add_discovered_task m t d' td = add_discovered_task m t d td).
Proof.
  intros Hn.
  assert (Hlk : forall d0 k, lookup k (full_task_data d0 td) =
     match lookup k td with
     | Some v => Some v
     | None => if str_eqb k "dependencies" then Some d0 else None
     end).
  { intros d0 k. unfold full_task_data. rewrite (fold_upsert_lookup td Hn). reflexivity. }
  split; [apply Hlk|]. intros Hd d'. unfold add_discovered_task. f_equal. f_equal. f_equal.
  apply eq_of_lookup.
  - apply fold_upsert_keys. reflexivity.
  - apply fold_upsert_NoDup. repeat constructor. intros [].
  - intros k. rewrite !Hlk. destruct (lookup k td) eqn:E; [reflexivity|].
    destruct (str_eqb k "dependencies") eqn:Ek; [|reflexivity].
    apply str_eqb_true in Ek. subst k. apply lookup_None in E. contradiction.
Qed.

Lemma add_discovered_task_data_witness :
  add_discovered_task manager_fresh "task-3" (VSet ["task-1"]) (task_entry ["task-2"] "Task 3") =
  add_discovered_task manager_fresh "task-3" (VSet []) (task_entry ["task-2"] "Task 3").
Proof.
  refine (proj2 (add_discovered_task_data manager_fresh "task-3" (VSet []) (task_entry ["task-2"] "Task 3") _)
            _ (VSet ["task-1"])).
  - vm_compute. repeat constructor; cbn; intuition discriminate.
  - vm_compute. left. reflexivity.
Defined.

End DynamicExtra.

(** *** More of [validator.py] *)
Module ValidatorExtra.
Import Validator GraphSpec Order ValidatorInv ListFacts OrderFacts FindCycleProofs.

Section Graph.
Variable gr : list (string * list string).

(** The queue entries and the unvisited nodes still to be paid for by
    the breadth-first walk. *)
Definition unv_weight (r : list string) : nat :=
  fold_right (fun x acc => if mem x r then acc else S (List.length (deps_of gr x)) + acc)
    O (all_nodes gr).

Lemma weight_add_gen (U : list string) c r : NoDup U -> In c U -> ~ In c r ->
  fold_right (fun x acc => if mem x (r ++ [c]) then acc else S (List.length (deps_of gr x)) + acc) O U
  + S (List.length (deps_of gr c)) =
  fold_right (fun x acc => if mem x r then acc else S (List.length (deps_of gr x)) + acc) O U.
Proof.
  induction U as [|u U IH]; intros Hn Hc Hr; [destruct Hc|].
  inversion Hn as [|? ? Hu HnU]; subst. cbn [fold_right].
  assert (Hm : forall x, mem x (r ++ [c]) = mem x r || str_eqb x c).
  { intros x. unfold mem. rewrite existsb_app. cbn [existsb]. rewrite orb_false_r. reflexivity. }
  rewrite Hm. destruct Hc as [<-|Hc].
  - unfold str_eqb at 1. rewrite String.eqb_refl, orb_true_r.
    rewrite (proj2 (mem_notIn u r) Hr).
    assert (Heq : forall l, ~ In u l ->
      fold_right (fun x acc => if mem x (r ++ [u]) then acc else S (List.length (deps_of gr x)) + acc) O l =
      fold_right (fun x acc => if mem x r then acc else S (List.length (deps_of gr x)) + acc) O l).
    { induction l as [|a l IHl]; intros Hl; [reflexivity|]. cbn [fold_right].
      rewrite IHl by (intros H; apply Hl; right; exact H). rewrite Hm.
      destruct (str_eqb a u) eqn:E; [apply str_eqb_true in E; subst; exfalso; apply Hl; left; reflexivity|].
      rewrite orb_false_r. reflexivity. }
    rewrite (Heq U Hu). lia.
  - assert (Hne : str_eqb u c = false) by (apply str_eqb_false; intros ->; contradiction).
    rewrite Hne, orb_false_r. rewrite <- (IH HnU Hc Hr). fold (mem u (r ++ [c])).
    destruct (mem u r); lia.
Qed.

Lemma weight_add c r : In c (all_nodes gr) -> ~ In c r ->
  unv_weight (set_add c r) + S (List.length (deps_of gr c)) = unv_weight r.
Proof.
  intros Hc Hr. unfold set_add. rewrite (proj2 (mem_notIn c r) Hr). unfold unv_weight.
  apply weight_add_gen; [apply NoDup_dedup | exact Hc | exact Hr].
Qed.

(** The breadth-first walk, given enough fuel, ends with a set that
    contains the start and is closed under dependencies. *)
Lemma bfs_closed fuel : forall q r,
  incl q (all_nodes gr) -> incl r (all_nodes gr) ->
  (forall x d, In x r -> In d (deps_of gr x) -> In d r \/ In d q) ->
  List.length q + unv_weight r < fuel ->
  incl r (bfs gr fuel q r) /\ incl q (bfs gr fuel q r) /\
  (forall x d, In x (bfs gr fuel q r) -> In d (deps_of gr x) -> In d (bfs gr fuel q r)).
Proof.
  induction fuel as [|f IH]; intros q r Hq Hr Hc Hf; [lia|].
  destruct q as [|c q']; cbn [bfs].
  - split; [intros x Hx; exact Hx|]. split; [intros x []|].
    intros x d Hx Hd. destruct (Hc x d Hx Hd) as [H|[]]. exact H.
  - destruct (mem c r) eqn:Em.
    + apply mem_In in Em.
      destruct (IH q' r) as (I1 & I2 & I3).
      * intros x Hx. apply Hq. right. exact Hx.
      * exact Hr.
      * intros x d Hx Hd. destruct (Hc x d Hx Hd) as [H|[<-|H]]; auto.
      * cbn [List.length] in Hf. lia.
      * split; [exact I1|]. split; [|exact I3].
        intros x [<-|Hx]; [apply I1, Em | apply I2, Hx].
    + apply mem_notIn in Em.
      assert (HcU : In c (all_nodes gr)) by (apply Hq; left; reflexivity).
      pose proof (weight_add c r HcU Em) as Hw.
      set (r' := set_add c r) in *.
      assert (Hr' : forall x, In x r' <-> In x r \/ x = c).
      { intros x. unfold r', set_add. rewrite (proj2 (mem_notIn c r) Em), in_app_iff.
        cbn [In]. intuition. }
      set (nd := filter (fun d => negb (mem d r')) (deps_of gr c)).
      assert (Hnd : List.length nd <= List.length (deps_of gr c)) by apply filter_length_le.
      destruct (IH (q' ++ nd) r') as (I1 & I2 & I3).
      * intros x Hx. apply in_app_iff in Hx as [Hx|Hx]; [apply Hq; right; exact Hx|].
        unfold nd in Hx. apply filter_In in Hx as [Hx _].
        exact (ValidatorProofs.in_deps_all gr c x Hx).
      * intros x Hx. destruct (proj1 (Hr' x) Hx) as [Hx' | ->]; [apply Hr, Hx' | exact HcU].
      * intros x d Hx Hd. rewrite !Hr', in_app_iff.
        destruct (proj1 (Hr' x) Hx) as [Hx' | ->].
        -- destruct (Hc x d Hx' Hd) as [H|[<-|H]]; auto.
        -- destruct (mem d r') eqn:Ed.
           ++ apply mem_In, Hr' in Ed. tauto.
           ++ right. right. unfold nd. apply filter_In. split; [exact Hd|]. rewrite Ed. reflexivity.
      * rewrite length_app. cbn [List.length] in Hf. lia.
      * split; [intros x Hx; apply I1, Hr'; left; exact Hx|]. split; [|exact I3].
        intros x [<-|Hx]; [apply I1, Hr'; right; reflexivity|].
        apply I2, in_app_iff. left. exact Hx.
Qed.

(** Everything the walk adds is reached from the start. *)
Lemma bfs_sound (P : string -> Prop) fuel : forall q r,
  (forall x, In x q \/ In x r -> P x) -> (forall x d, P x -> In d (deps_of gr x) -> P d) ->
  forall x, In x (bfs gr fuel q r) -> P x.
Proof.
  induction fuel as [|f IH]; intros q r Hs Hd x Hx; cbn [bfs] in Hx; [apply Hs; right; exact Hx|].
  destruct q as [|c q']; [apply Hs; right; exact Hx|].
  destruct (mem c r).
  - apply (IH q' r); [intros y Hy; apply Hs; cbn [In]; tauto | exact Hd | exact Hx].
  - refine (IH _ _ _ Hd x Hx).
    intros y [Hy|Hy].
    + apply in_app_iff in Hy as [Hy|Hy]; [apply Hs; left; right; exact Hy|].
      apply filter_In in Hy as [Hy _]. apply (Hd c); [apply Hs; left; left; reflexivity | exact Hy].
    + unfold set_add in Hy. destruct (mem c r); [apply Hs; right; exact Hy|].
      apply in_app_iff in Hy as [Hy|[<-|[]]]; [apply Hs; right; exact Hy|].
      apply Hs; left; left; reflexivity.
Qed.

Lemma length_in_concat (L : list (list string)) ds : In ds L -> List.length ds <= List.length (List.concat L).
Proof.
  induction L as [|a L IH]; intros H; [destruct H|]. cbn [List.concat]. rewrite length_app.
  destruct H as [->|H]; [lia|]. specialize (IH H). lia.
Qed.

Lemma deps_len x : List.length (deps_of gr x) <= List.length (List.concat (map snd gr)).
Proof.
  unfold deps_of. destruct (lookup x gr) as [ds|] eqn:E; [|cbn; lia].
  apply length_in_concat, in_map_iff. exists (x, ds). split; [reflexivity|]. apply lookup_In, E.
Qed.

Lemma weight_bound (U : list string) :
  fold_right (fun x acc => if mem x [] then acc else S (List.length (deps_of gr x)) + acc) O U
  <= List.length U * S (List.length (List.concat (map snd gr))).
Proof.
  induction U as [|u U IH]; cbn [fold_right List.length]; [lia|].
  pose proof (deps_len u). change (mem u []) with false. cbv beta iota. lia.
Qed.

Lemma keys_all_nodes x : In x (keys gr) -> In x (all_nodes gr).
Proof. intros H. unfold all_nodes. apply In_dedup, in_app_iff. left. exact H. Qed.

Lemma end_nodes_keys : incl (end_nodes gr) (keys gr).
Proof. intros x Hx. unfold end_nodes in Hx. apply filter_In in Hx as [Hx _]. exact Hx. Qed.

Lemma bfs_fuel_enough : NoDup (keys gr) ->
  List.length (end_nodes gr) + unv_weight [] < bfs_fuel gr.
Proof.
  intros Hn. unfold bfs_fuel, unv_weight.
  pose proof (weight_bound (all_nodes gr)).
  assert (List.length (end_nodes gr) <= List.length (keys gr)) by apply filter_length_le.
  assert (List.length (keys gr) <= List.length (all_nodes gr))
    by (apply NoDup_incl_length; [exact Hn | intros x; apply keys_all_nodes]).
  lia.
Qed.

(** The walk from the end nodes keeps exactly the ids they reach. *)
Lemma bfs_reaches : NoDup (keys gr) ->
  forall x, In x (bfs gr (bfs_fuel gr) (end_nodes gr) []) <-> reaches gr (end_nodes gr) x.
Proof.
  intros Hn x. split.
  - apply bfs_sound.
    + intros y [Hy|[]]. apply reaches_start, Hy.
    + intros y d Hy Hd. exact (reaches_dep _ _ y d Hy Hd).
  - destruct (bfs_closed (bfs_fuel gr) (end_nodes gr) [])
      as (_ & I2 & I3).
    + intros y Hy. apply keys_all_nodes, end_nodes_keys, Hy.
    + intros y [].
    + intros y d [].
    + apply bfs_fuel_enough, Hn.
    + intros Hr. induction Hr as [y Hy|y d _ IHr Hd]; [apply I2, Hy|]. exact (I3 y d IHr Hd).
Qed.

Lemma orphans_iff : NoDup (keys gr) -> forall x,
  In x (check_orphaned_tasks gr) <->
  end_nodes gr <> [] /\ In x (keys gr) /\ ~ reaches gr (end_nodes gr) x.
Proof.
  intros Hn x. unfold check_orphaned_tasks.
  assert (Hk : gr = [] -> end_nodes gr = []) by (intros ->; reflexivity).
  destruct gr as [|p l] eqn:Eg; [cbn; tauto|]. rewrite <- Eg in *.
  destruct (end_nodes gr) as [|e es] eqn:Ee; [cbn; tauto|]. rewrite <- Ee.
  rewrite filter_In, negb_true_iff, mem_notIn, bfs_reaches by exact Hn.
  split; [intros [A B]; split; [rewrite Ee; discriminate|]; tauto | tauto].
Qed.

Lemma end_nodes_iff t : In t (end_nodes gr) <->
  In t (keys gr) /\ forall t' ds, In (t', ds) gr -> ~ In t ds.
Proof.
  unfold end_nodes. rewrite filter_In, negb_true_iff.
  split.
  - intros [Hk He]. split; [exact Hk|]. intros t' ds Hin Ht.
    assert (existsb (fun p => mem t (snd p)) gr = true).
    { apply existsb_exists. exists (t', ds). split; [exact Hin|]. apply mem_In, Ht. }
    congruence.
  - intros [Hk He]. split; [exact Hk|].
    destruct (existsb (fun p => mem t (snd p)) gr) eqn:E; [|reflexivity].
    apply existsb_exists in E as [[t' ds] [Hin Hm]]. apply mem_In in Hm. exfalso. exact (He t' ds Hin Hm).
Qed.

Lemma topo_nodup succ F : topo_ok succ F -> exists G, topo_ok succ G /\ NoDup G /\ incl F G.
Proof.
  induction F as [|x F IH]; intros Ht.
  - exists []. split; [exact I|]. split; [constructor | intros y []].
  - destruct Ht as [Hx Ht]. destruct (IH Ht) as [G [TG [NG IG]]].
    destruct (in_dec string_dec x G) as [Hin|Hnin].
    + exists G. split; [exact TG|]. split; [exact NG|]. intros y [<-|Hy]; [exact Hin | apply IG, Hy].
    + exists (x :: G). split; [split; [intros y Hy; apply IG, Hx, Hy | exact TG]|].
      split; [constructor; assumption|]. intros y [<-|Hy]; [left; reflexivity | right; apply IG, Hy].
Qed.

(** On an acyclic map every task reaches an end node. *)
Lemma acyclic_all_reach : NoDup (keys gr) -> ~ has_cycle gr ->
  forall x, In x (keys gr) -> reaches gr (end_nodes gr) x.
Proof.
  intros Hn Hc.
  assert (Hd : detect_cycles gr = []).
  { destruct (detect_cycles gr) as [|c cs] eqn:E; [reflexivity|].
    exfalso. apply Hc, ValidatorProofs.detect_cycles_iff. rewrite E. discriminate. }
  intros x Hx. destruct gr as [|p l] eqn:Eg; [destruct Hx|]. rewrite <- Eg in *.
  unfold detect_cycles in Hd. rewrite Eg in Hd. rewrite <- Eg in Hd.
  destruct (ValidatorProofs.detect_from_clean gr (all_nodes gr) _ [] (ValidatorProofs.cinv_init gr)
              eq_refl (fun y Hy => Hy)) as [_ B].
  destruct (B Hd) as [F [T [I _]]].
  destruct (topo_nodup _ _ T) as [G [TG [NG IG]]].
  assert (HxG : In x G) by (apply IG, I, keys_all_nodes, Hx).
  refine (topo_ind (deps_of gr) G (fun x => In x (keys gr) -> reaches gr (end_nodes gr) x) TG NG _ x HxG Hx).
  intros y _ IH Hy.
  destruct (in_dec string_dec y (end_nodes gr)) as [He|He]; [apply reaches_start, He|].
  assert (Hex : exists t' ds, In (t', ds) gr /\ In y ds).
  { destruct (existsb (fun p => mem y (snd p)) gr) eqn:E.
    - apply existsb_exists in E as [[t' ds] [Hin Hm]]. exists t', ds. split; [exact Hin | apply mem_In, Hm].
    - exfalso. apply He. unfold end_nodes. apply filter_In. rewrite E. split; [exact Hy | reflexivity]. }
  destruct Hex as [t' [ds [Hin Hyd]]].
  assert (Ht' : In t' (keys gr)) by (unfold keys; apply in_map_iff; exists (t', ds); auto).
  assert (Hdt : In y (deps_of gr t')).
  { unfold deps_of. rewrite (In_lookup t' ds gr Hn Hin). exact Hyd. }
  apply (reaches_dep _ _ t' y); [|exact Hdt].
  apply IH; [apply IG, I, keys_all_nodes, Ht' | exact Hdt | exact Ht'].
Qed.

End Graph.

Lemma fold_keeps {A B} (proj : ValidationReport -> A) (f : ValidationReport -> B -> ValidationReport) :
  (forall r c, proj (f r c) = proj r) -> forall l r, proj (fold_left f l r) = proj r.
Proof. intros Hf l. induction l as [|a l IH]; intros r; cbn [fold_left]; [reflexivity|]. rewrite IH. apply Hf. Qed.

Lemma validate_fields gr :
  missing_refs (validate gr) = check_missing_refs gr /\
  orphaned_tasks (validate gr) = match detect_cycles gr with [] => check_orphaned_tasks gr | _ => [] end /\
  List.length (warnings (validate gr)) =
    (if (List.length (check_missing_refs gr) =? 0)%nat then 0 else 1) +
    (match detect_cycles gr, check_orphaned_tasks gr with [], _ :: _ => 1 | _, _ => 0 end).
Proof.
  unfold validate. cbv zeta.
  set (F := fun r c => add_error r ("Cycle detected: " ++ String.concat " -> " c)%string).
  assert (Fm : forall l r, missing_refs (fold_left F l r) = missing_refs r) by (apply fold_keeps; reflexivity).
  assert (Fo : forall l r, orphaned_tasks (fold_left F l r) = orphaned_tasks r) by (apply fold_keeps; reflexivity).
  assert (Fw : forall l r, warnings (fold_left F l r) = warnings r) by (apply fold_keeps; reflexivity).
  destruct (detect_cycles gr) as [|c cs]; destruct (check_missing_refs gr) as [|m ms];
    destruct (check_orphaned_tasks gr) as [|o os];
    cbn [missing_refs orphaned_tasks warnings add_warning set_missing set_orphaned empty_report
         List.length app Nat.eqb plus];
    rewrite ?Fm, ?Fo, ?Fw; repeat split.
Qed.


(** X18: [_find_end_nodes] gives the tasks no task depends on, and
    [_check_orphaned_tasks] gives exactly the tasks that no end node
    reaches by following dependencies (none at all when there is no end
    node); [validate] reports them only when it found no cycle. *)
Theorem orphaned_tasks_exact gr : NoDup (keys gr) ->
  (forall t, In t (end_nodes gr) <-> In t (keys gr) /\ forall t' ds, In (t', ds) gr -> ~ In t ds) /\
  (forall x, In x (check_orphaned_tasks gr) <->
     end_nodes gr <> [] /\ In x (keys gr) /\ ~ reaches gr (end_nodes gr) x) /\
  (has_cycle gr -> orphaned_tasks (validate gr) = []) /\
  (~ has_cycle gr -> orphaned_tasks (validate gr) = check_orphaned_tasks gr).
Proof.
  intros Hn. split; [apply end_nodes_iff|]. split; [apply orphans_iff, Hn|].
  destruct (validate_fields gr) as (_ & Ho & _). rewrite Ho.
  pose proof (ValidatorProofs.detect_cycles_iff gr) as Hd.
  destruct (detect_cycles gr) as [|c cs].
  - split; [intros Hc; exfalso; apply (proj2 Hd Hc); reflexivity | reflexivity].
  - split; [reflexivity|]. intros Hc. exfalso. apply Hc, Hd. discriminate.
Qed.

Lemma orphaned_tasks_exact_witness :
  (In "a" (check_orphaned_tasks [("a", ["b"]); ("b", ["a"]); ("c", [])]) <->
   end_nodes [("a", ["b"]); ("b", ["a"]); ("c", [])] <> [] /\
   In "a" (keys [("a", ["b"]); ("b", ["a"]); ("c", [])]) /\
   ~ reaches [("a", ["b"]); ("b", ["a"]); ("c", [])] (end_nodes [("a", ["b"]); ("b", ["a"]); ("c", [])]) "a").
Proof.
  refine (proj1 (proj2 (orphaned_tasks_exact [("a", ["b"]); ("b", ["a"]); ("c", [])] _)) "a").
  vm_compute. repeat constructor; cbn; intuition discriminate.
Defined.

(** X19: [validate] never reports orphaned tasks: with a cycle the check
    is skipped, and on an acyclic graph every task is reached from an end
    node.  So its warnings are at most one, about missing references. *)
Theorem validate_no_orphans gr : NoDup (keys gr) ->
  orphaned_tasks (validate gr) = [] /\
  (~ has_cycle gr -> check_orphaned_tasks gr = []) /\
  List.length (warnings (validate gr)) = (if (List.length (check_missing_refs gr) =? 0)%nat then 0 else 1).
Proof.
  intros Hn.
  assert (Ha : ~ has_cycle gr -> check_orphaned_tasks gr = []).
  { intros Hc. destruct (check_orphaned_tasks gr) as [|o os] eqn:E; [reflexivity|].
    exfalso. assert (Ho : In o (check_orphaned_tasks gr)) by (rewrite E; left; reflexivity).
    apply (orphans_iff gr Hn) in Ho as (_ & Hk & Hr).
    exact (Hr (acyclic_all_reach gr Hn Hc o Hk)). }
  destruct (validate_fields gr) as (_ & Ho & Hw). rewrite Ho, Hw.
  pose proof (ValidatorProofs.detect_cycles_iff gr) as Hd.
  destruct (detect_cycles gr) as [|c cs].
  - assert (Hc : ~ has_cycle gr) by (intros Hc; apply (proj2 Hd Hc); reflexivity).
    rewrite (Ha Hc). split; [reflexivity|]. split; [intros _; reflexivity | lia].
  - split; [reflexivity|]. split; [exact Ha | lia].
Qed.

Lemma validate_no_orphans_witness :
  orphaned_tasks (validate [("a", ["b"]); ("b", ["a"]); ("c", [])]) = [].
Proof.
  refine (proj1 (validate_no_orphans [("a", ["b"]); ("b", ["a"]); ("c", [])] _)).
  vm_compute. repeat constructor; cbn; intuition discriminate.
Defined.

End ValidatorExtra.


Module OrchExtra.
Import DepGraph Codegen Orch Graphlib Validator GraphSpec GraphlibInv Session KahnProofs DepGraphProofs.

Lemma dispatch_ok run tasks ids :
  (forall x, In x ids -> lookup x tasks <> None) ->
  exists outs, dispatch run tasks ids = Ok outs /\ map fst outs = ids /\
    (forall t o, In (t, o) outs -> exists d, lookup t tasks = Some d /\ o = run t d).
Proof.
  induction ids as [|x ids IH]; intros Hc.
  - exists []. split; [reflexivity|]. split; [reflexivity|]. intros t o [].
  - destruct (lookup x tasks) as [d|] eqn:El; [|exfalso; exact (Hc x (or_introl eq_refl) El)].
    destruct IH as [outs (E1 & E2 & E3)]; [intros y Hy; apply Hc; right; exact Hy|].
    exists ((x, run x d) :: outs). cbn [dispatch]. rewrite El, E1.
    split; [reflexivity|]. split; [cbn [map]; rewrite E2; reflexivity|].
    intros t o [Ht|Ht]; [injection Ht as <- <-; exists d; split; [exact El|reflexivity] | exact (E3 t o Ht)].
Qed.

Lemma process_base_ids outs :
  (forall t tr, In (t, Ok tr) outs -> task_id tr = t) ->
  map task_id (fst (process_base outs)) = map fst outs /\ snd (process_base outs) = map fst outs.
Proof.
  induction outs as [|[t [tr|e]] outs IH]; intros Hh; [split; reflexivity| |].
  - destruct IH as [I1 I2]; [intros t' tr' H'; apply (Hh t' tr'); right; exact H'|].
    cbn [process_base]. destruct (process_base outs) as [rs cs]. cbn [fst snd map] in *.
    rewrite (Hh t tr (or_introl eq_refl)), I1, I2. split; reflexivity.
  - destruct IH as [I1 I2]; [intros t' tr' H'; apply (Hh t' tr'); right; exact H'|].
    cbn [process_base]. destruct (process_base outs) as [rs cs]. cbn [fst snd map] in *.
    rewrite I1, I2. split; reflexivity.
Qed.

Section Honest.
Variable gr : list (string * list string).
Variable run : Runner.
Variable tasks : list (string * TaskData).
Hypothesis Hcov : forall x, In x (all_nodes gr) -> lookup x tasks <> None.
Hypothesis Hhon : forall t d tr, lookup t tasks = Some d -> run t d = Ok tr -> task_id tr = t.

Lemma orch_loop_drain fuel : forall s H res tks, KI gr s H H ->
  (List.length (all_nodes gr) - List.length H < fuel)%nat ->
  exists g'' rs,
    orchestrate_loop run tasks fuel (mk_graph gr (Some s) true) res tks =
      Returned g'' (res ++ rs)
        (tks ++ map (fun r => mk_tick r r) (drain fuel (mk_graph gr (Some s) true))) /\
    map task_id rs = List.concat (drain fuel (mk_graph gr (Some s) true)).
Proof.
  induction fuel as [|fuel IH]; intros s H res tks HK Hf; [lia|].
  pose proof HK as (K0 & K1 & K2 & K3 & (R & KR1 & KR2 & KR3) & K5 & K6 & K7 & K8 & K9 & K10 & K11).
  pose proof (ready_active gr s H R HK KR1) as Ea.
  destruct R as [|r0 R'].
  - assert (Eg : get_ready_tasks (mk_graph gr (Some s) true) = (mk_graph gr (Some s) true, Ok [])).
    { unfold get_ready_tasks. cbn [is_built sorter]. rewrite Ea. reflexivity. }
    exists (mk_graph gr (Some s) true), []. cbn [orchestrate_loop drain].
    unfold DepGraph.is_active at 1. cbn [is_built sorter]. rewrite Ea, Eg. cbn.
    rewrite !app_nil_r. split; reflexivity.
  - destruct (get_ready_KI gr s H H (r0 :: R') HK KR1) as [s1 [Eg1 HK1]].
    destruct (done_valid_list gr (r0 :: R') s1 (H ++ r0 :: R') H HK1 KR2) as [s2 [Ed HK2]].
    { intros y Hy. apply in_app_iff. right. exact Hy. }
    { intros y Hy. apply KR3 in Hy. tauto. }
    assert (Eg : get_ready_tasks (mk_graph gr (Some s) true) =
                 (mk_graph gr (Some s1) true, Ok (r0 :: R'))).
    { unfold get_ready_tasks. cbn [is_built sorter]. rewrite Ea, Eg1. reflexivity. }
    assert (Em : mark_completed (mk_graph gr (Some s1) true) (r0 :: R') =
                 (mk_graph gr (Some s2) true, Ok tt)).
    { unfold mark_completed. cbn [is_built sorter]. rewrite Ed. reflexivity. }
    destruct (dispatch_ok run tasks (r0 :: R')) as [outs (D1 & D2 & D3)].
    { intros y Hy. apply Hcov. apply KR3 in Hy. tauto. }
    destruct (process_base_ids outs) as [P1 P2].
    { intros t tr Ht. destruct (D3 t (Ok tr) Ht) as [d [Hd Eo]].
      exact (Hhon t d tr Hd (eq_sym Eo)). }
    rewrite D2 in P1, P2.
    destruct (process_base outs) as [rs cids] eqn:Ep. cbn [fst snd] in P1, P2. subst cids.
    destruct (IH s2 (H ++ r0 :: R') (res ++ rs) (tks ++ [mk_tick (r0 :: R') (r0 :: R')]) HK2)
      as [g'' [rs' [I1 I2]]].
    { destruct HK2 as (_ & _ & _ & _ & _ & N5 & _ & _ & N8 & _).
      pose proof (NoDup_incl_length N5 N8) as Hl.
      rewrite length_app in Hl |- *. cbn [List.length] in Hl |- *. lia. }
    exists g'', (rs ++ rs'). cbn [orchestrate_loop drain].
    unfold DepGraph.is_active at 1. cbn [is_built sorter]. rewrite Ea. cbn [negb Nat.eqb List.length].
    rewrite Eg. lazy beta iota zeta. rewrite D1. lazy beta iota zeta. rewrite Ep.
    lazy beta iota zeta. rewrite Em. lazy beta iota zeta. rewrite I1.
    cbn [map List.concat]. rewrite <- !app_assoc. split; [reflexivity|].
    rewrite map_app, P1, I2. reflexivity.
Qed.

End Honest.

(** X20.  [orchestrate] over a graph built by [build], with a [tasks] dict
    that has an entry for every node and an executor whose results carry
    the id of the task they ran (or that raises), returns: one result per
    node and no other, in the order of the rounds it dispatched; every
    round marks exactly the ids it dispatched; and each dispatched task
    comes after all its dependencies in earlier rounds. *)
Theorem orchestrate_honest_complete ops g gh g' run tasks :
  run_ops ops = (g, gh) -> build g = (g', Ok tt) ->
  (forall x, In x (all_nodes (graph g)) -> lookup x tasks <> None) ->
  (forall t d tr, lookup t tasks = Some d -> run t d = Ok tr -> task_id tr = t) ->
  exists g'' rs tks,
    orchestrate run tasks (S (List.length (all_nodes (graph g)))) g' = Returned g'' rs tks /\
    map task_id rs = List.concat (map dispatched tks) /\
    (forall tk, In tk tks -> Orch.marked tk = dispatched tk) /\
    NoDup (map task_id rs) /\
    (forall x, In x (map task_id rs) <-> In x (all_nodes (graph g))) /\
    (forall pre tk post, tks = pre ++ tk :: post ->
       forall t d, In t (dispatched tk) -> dep_edge (graph g) t d ->
         In d (List.concat (map dispatched pre))).
Proof.
  intros Hr Hb Hcov Hhon. pose proof (run_ops_inv ops) as [Hwf _]. rewrite Hr in Hwf.
  cbn [fst] in Hwf. destruct g as [gr so b]. cbn [graph] in *.
  destruct (build_ok gr so b g' Hwf Hb) as (E1 & E2 & E3 & F & succ & T1 & T2 & T3 & T4).
  destruct g' as [gr' so' b']. cbn [graph is_built sorter] in E1, E2, E3. subst gr' b' so'.
  destruct tasks as [|p tasks0].
  - exists (mk_graph gr (Some (fst (prepare (new_sorter gr)))) true), [], [].
    split; [reflexivity|]. split; [reflexivity|]. split; [intros tk []|].
    split; [constructor|]. split.
    + intros x. split; [intros []|intros Hx; exact (Hcov x Hx eq_refl)].
    + intros pre tk post E. destruct pre; discriminate.
  - destruct (orch_loop_drain gr run (p :: tasks0) Hcov Hhon (S (List.length (all_nodes gr)))
                (fst (prepare (new_sorter gr))) [] [] [] (prepare_KI gr Hwf)) as [g'' [rs [I1 I2]]].
    { cbn [List.length]. lia. }
    destruct (drain_ok gr (S (List.length (all_nodes gr))) _ [] (prepare_KI gr Hwf))
      as (D1 & D2 & D3 & D4).
    cbn [app] in I1, D1.
    set (dr := drain (S (List.length (all_nodes gr))) (mk_graph gr (Some (fst (prepare (new_sorter gr)))) true)) in *.
    exists g'', rs, (map (fun r => mk_tick r r) dr).
    split; [exact I1|].
    assert (Hd : map dispatched (map (fun r => mk_tick r r) dr) = dr).
    { rewrite map_map. cbn [dispatched]. apply map_id. }
    split; [rewrite Hd; exact I2|].
    split; [intros tk Htk; apply in_map_iff in Htk as [r [<- _]]; reflexivity|].
    rewrite I2. split; [exact D1|]. split.
    + intros x. split; [apply D2|]. intros Hx.
      refine (D4 _ F succ T1 T2 T3 T4 x Hx). cbn [List.length]. lia.
    + intros pre tk post E t d Ht Hdep.
      apply map_eq_app in E as [pre' [l2 [E [Ep E2]]]].
      apply map_eq_cons in E2 as [r [post' [El [Er _]]]]. subst l2 tk pre.
      cbn [dispatched] in Ht.
      assert (Hp : map dispatched (map (fun r => mk_tick r r) pre') = pre').
      { rewrite map_map. cbn [dispatched]. apply map_id. }
      rewrite Hp. exact (D3 pre' r post' E t d Ht Hdep).
Qed.

Lemma orchestrate_honest_complete_witness :
  exists g'' rs tks,
    orchestrate (fun t d => Ok (mk_result (result_task_id d) COMPLETED None None None 0))
      [("b", [("task_id", VStr "b")]); ("a", [("task_id", VStr "a")])]
      (S (List.length (all_nodes (graph (fst (run_ops [GAdd "b" ["a"]; GAdd "a" []]))))))
      (fst (build (fst (run_ops [GAdd "b" ["a"]; GAdd "a" []])))) = Returned g'' rs tks /\
    map task_id rs = List.concat (map dispatched tks) /\
    (forall tk, In tk tks -> Orch.marked tk = dispatched tk) /\
    NoDup (map task_id rs) /\
    (forall x, In x (map task_id rs) <-> In x (all_nodes (graph (fst (run_ops [GAdd "b" ["a"]; GAdd "a" []]))))) /\
    (forall pre tk post, tks = pre ++ tk :: post ->
       forall t d, In t (dispatched tk) -> dep_edge (graph (fst (run_ops [GAdd "b" ["a"]; GAdd "a" []]))) t d ->
         In d (List.concat (map dispatched pre))).
Proof.
  refine (orchestrate_honest_complete [GAdd "b" ["a"]; GAdd "a" []]
            (fst (run_ops [GAdd "b" ["a"]; GAdd "a" []])) (snd (run_ops [GAdd "b" ["a"]; GAdd "a" []]))
            (fst (build (fst (run_ops [GAdd "b" ["a"]; GAdd "a" []]))))
            _ _ _ _ _ _).
  - reflexivity.
  - vm_compute. reflexivity.
  - intros x Hx. vm_compute in Hx.
    destruct Hx as [<-|[<-|[]]]; vm_compute; discriminate.
  - intros t d tr Hl Hrun. injection Hrun as <-. cbn [task_id].
    cbn [lookup] in Hl.
    destruct (str_eqb t "b") eqn:Eb; [injection Hl as <-; apply String.eqb_eq in Eb; exact (eq_sym Eb)|].
    destruct (str_eqb t "a") eqn:Ea; [injection Hl as <-; apply String.eqb_eq in Ea; exact (eq_sym Ea)|].
    discriminate.
Defined.

Lemma dispatch_missing run tasks ids x :
  In x ids -> lookup x tasks = None -> exists e, dispatch run tasks ids = Raise e.
Proof.
  induction ids as [|y ids IH]; intros Hx Hl; [destruct Hx|].
  cbn [dispatch]. destruct (lookup y tasks) as [d|] eqn:Ey; [|eexists; reflexivity].
  destruct Hx as [<-|Hx]; [congruence|].
  destruct (IH Hx Hl) as [e Ee]. rewrite Ee. eexists; reflexivity.
Qed.

(** X21.  A task without dependencies that has no entry in [tasks] makes
    [orchestrate] on a graph built by [build] raise [OrchestrationError]
    in its first iteration, with no result and no task marked: the
    [KeyError] of [tasks[task_id]] is raised while the round's
    coroutines are built. *)
Theorem orchestrate_missing_root ops g gh g' run tasks x fuel :
  run_ops ops = (g, gh) -> build g = (g', Ok tt) -> tasks <> [] ->
  In x (all_nodes (graph g)) -> deps_of (graph g) x = [] -> lookup x tasks = None ->
  exists g1 e, orchestrate run tasks (S fuel) g' = Raised g1 e [] [] /\
    ekind e = KOrchestrationError /\ graph g1 = graph g.
Proof.
  intros E Hb Ht Hx Hd Hl. destruct (run_ops_inv ops) as [Hwf _]. rewrite E in Hwf. cbn [fst] in Hwf.
  destruct g as [gr so b]. cbn [graph] in *.
  destruct (build_ok gr so b g' Hwf Hb) as (Eg & Eb & Es & _).
  pose proof (prepare_KI gr Hwf) as HK.
  pose proof HK as (_ & _ & _ & _ & (R & HR & _ & HRi) & _).
  pose proof (ready_active gr _ [] R HK HR) as Hact.
  assert (HxR : In x R).
  { apply HRi. split; [exact Hx|]. split; [intros []|]. rewrite Hd. intros y []. }
  destruct R as [|r R']; [destruct HxR|].
  destruct (get_ready_KI gr _ [] [] (r :: R') HK HR) as [s' [Eg' _]].
  destruct (dispatch_missing run tasks (r :: R') x HxR Hl) as [e Ed].
  destruct tasks as [|p tasks0]; [congruence|].
  exists (mk_graph gr (Some s') true), (OrchestrationError "Critical orchestration failure").
  split; [|split; reflexivity].
  destruct g' as [gr' so' b']. cbn [graph is_built sorter] in Eg, Eb, Es. subst gr' so' b'.
  unfold orchestrate. cbn [orchestrate_loop]. unfold DepGraph.is_active at 1.
  cbn [is_built sorter]. rewrite Hact. cbn [negb Nat.eqb List.length].
  unfold get_ready_tasks. cbn [is_built sorter]. rewrite Hact. cbn [negb Nat.eqb List.length].
  rewrite Eg'. lazy beta iota zeta. rewrite Ed. reflexivity.
Qed.

Lemma orchestrate_missing_root_witness :
  exists g1 e,
    orchestrate (fun t d => Ok (mk_result (result_task_id d) COMPLETED None None None 0))
      [("b", [("task_id", VStr "b")])] 5
      (fst (build (fst (run_ops [GAdd "b" ["a"]; GAdd "a" []])))) = Raised g1 e [] [] /\
    ekind e = KOrchestrationError /\ graph g1 = graph (fst (run_ops [GAdd "b" ["a"]; GAdd "a" []])).
Proof.
  refine (orchestrate_missing_root [GAdd "b" ["a"]; GAdd "a" []]
            (fst (run_ops [GAdd "b" ["a"]; GAdd "a" []])) (snd (run_ops [GAdd "b" ["a"]; GAdd "a" []]))
            (fst (build (fst (run_ops [GAdd "b" ["a"]; GAdd "a" []]))))
            _ _ "a" 4 _ _ _ _ _ _).
  - reflexivity.
  - vm_compute. reflexivity.
  - discriminate.
  - vm_compute. right. left. reflexivity.
  - vm_compute. reflexivity.
  - vm_compute. reflexivity.
Defined.

End OrchExtra.
